(** * TaskProcessManagerMax: a shallow embedding of the process-task scheduler

    The development models [src/TaskProcessManagerMax.ts]: the fields of the
    class, the Node.js event loop around it (live child processes with their
    attached listeners, pending timers, suspended [runSingle] loops and
    grouped lanes) and every public method.  Hooks are optional callbacks of
    the class; a hook call is recorded in a trace when the hook is installed.

    Modelling conventions.
    - A hook is an observer: it neither calls back into the manager nor
      suspends on an event of the loop, so the code between two event-loop
      turns runs as one transition.
    - [spawn] succeeds and yields a child with a fresh pid.
    - The environment decides when a live child emits data or closes, and
      with which exit code and signal; [child.kill] only records the signal. *)

From Stdlib Require Import ZArith.
From stdpp Require Import base list gmap strings.



(** ** JavaScript arrays

    An array cell is a hole (reads as [undefined]), [null] or a value.  A
    write past the end extends the array with holes. *)

Inductive Cell (A : Type) : Type :=
| Hole
| Null
| Val (a : A).
Arguments Hole {A}.
Arguments Null {A}.
Arguments Val {A} a.

Definition js_get {A} (l : list (Cell A)) (i : nat) : Cell A :=
  match l !! i with
  | Some c => c
  | None => Hole
  end.

Definition js_set {A} (l : list (Cell A)) (i : nat) (v : Cell A) : list (Cell A) :=
  if decide (i < length l) then <[i := v]> l
  else l ++ replicate (i - length l) Hole ++ [v].

(** [Array.prototype.findIndex]: the callback sees the element and its index;
    [None] stands for the result [-1]. *)
Fixpoint findIndex_from {A} (p : A -> nat -> bool) (l : list A) (i : nat) : option nat :=
  match l with
  | [] => None
  | x :: l' => if p x i then Some i else findIndex_from p l' (S i)
  end.

Definition findIndex {A} (p : A -> nat -> bool) (l : list A) : option nat :=
  findIndex_from p l 0.

Definition includes (l : list nat) (i : nat) : bool := bool_decide (i ∈ l).

(** [l.filter(idx => idx !== i)] *)
Definition without (i : nat) (l : list nat) : list nat := filter (λ idx, idx ≠ i) l.

(** [if (!l.includes(i)) l.push(i)] *)
Definition push_new (i : nat) (l : list nat) : list nat :=
  if includes l i then l else l ++ [i].

(** ** [Map<number, ChildProcess>]: insertion-ordered, keyed by task index *)

Fixpoint map_get (k : nat) (m : list (nat * nat)) : option nat :=
  match m with
  | [] => None
  | (k', v) :: m' => if decide (k' = k) then Some v else map_get k m'
  end.

Fixpoint map_set (k v : nat) (m : list (nat * nat)) : list (nat * nat) :=
  match m with
  | [] => [(k, v)]
  | (k', v') :: m' => if decide (k' = k) then (k, v) :: m' else (k', v') :: map_set k v m'
  end.

Definition map_delete (k : nat) (m : list (nat * nat)) : list (nat * nat) :=
  filter (λ e, e.1 ≠ k) m.

Definition map_has (k : nat) (m : list (nat * nat)) : bool :=
  bool_decide (k ∈ m.*1).

(** ** Data model *)

Inductive Signal := SIGTERM | SIGKILL | SIGINT | SIGHUP | SIGQUIT.

Inductive Level := LDebug | LInfo | LWarn | LError.

Definition levels (l : Level) : nat :=
  match l with LDebug => 0 | LInfo => 1 | LWarn => 2 | LError => 3 end.

Inductive Status := Waiting | Running | Done | Failed | Timeout | Cancelled | Stopped.

Global Instance Status_eq_dec : EqDecision Status.
Proof. solve_decision. Defined.

(** [System.ITask]; [options] and [meta] are opaque to the manager. *)
Record ITask := {
  command : string;
  args : option (list string);
  options : option nat;
  meta : option nat;
  timeout : option N
}.

(** Which optional callbacks of the class are installed. *)
Record Hooks := {
  beforeStart : bool; afterStart : bool;
  beforeStop : bool; afterStop : bool;
  beforePause : bool; afterPause : bool;
  beforeRunTask : bool; afterRunTask : bool;
  beforeStopTask : bool; afterStopTask : bool; onStopTask : bool;
  onTaskStdout : bool; onTaskStderr : bool;
  onTasksRunning : bool; onAllTasksDone : bool; onDestroy : bool;
  onTaskError : bool; onLog : bool; onTaskTimeout : bool;
  onTaskRetry : bool; onTaskDone : bool; onGroupDone : bool
}.

(** The constructor parameters and public settings; no method writes them. *)
Record Config := {
  totalThreads : nat;
  sleep : N;
  maxRetry : nat;
  defaultTimeout : N;
  retryDelay : N;
  globalRetryLimit : nat;
  logLevel : Level;
  killSignal : Signal;
  hooks : Hooks
}.

(** The message and data of a [log] call. *)
Inductive LogMsg :=
| MsgAlreadyRunning
| MsgStopTask (idx : nat)
| MsgCancelTask (idx : nat)
| MsgStartTask (idx : nat) (task : ITask)
| MsgTaskTimeout (idx : nat) (timeoutMs : N)
| MsgTaskDone (idx : nat)
| MsgRetryTask (idx retry : nat)
| MsgGlobalRetryLimit (globalRetryCount : nat)
| MsgTaskFailed (idx : nat)
| MsgRunGroup (gIdx tIdx : nat) (task : ITask).

(** What the outside world observes: hook calls with their arguments, and
    the calls to [spawn] and [child.kill]. *)
Inductive Event :=
| EvBeforeStart (tasks : list (Cell ITask))
| EvAfterStart
| EvBeforeStop
| EvAfterStop
| EvBeforePause
| EvAfterPause
| EvBeforeRunTask (thread index : nat) (task : ITask)
| EvAfterRunTask (pid thread index : nat) (task : ITask)
    (code : option Z) (signal : option Signal) (stdout stderr : string)
| EvBeforeStopTask (index : nat) (task : Cell ITask)
| EvAfterStopTask (index : nat) (task : Cell ITask)
| EvOnStopTask (index : nat) (task : Cell ITask)
| EvTaskStdout (thread index : nat) (task : ITask) (data : string)
| EvTaskStderr (thread index : nat) (task : ITask) (data : string)
| EvTasksRunning (processing processed : list nat) (threads : list (Cell nat))
| EvAllTasksDone (total : nat)
| EvDestroy
| EvTaskError (thread index : nat) (task : ITask)
    (code : option Z) (signal : option Signal) (stderr : string)
| EvLog (level : Level) (msg : LogMsg)
| EvTaskTimeout (index : nat) (task : ITask)
| EvTaskRetry (index retryCount : nat)
| EvTaskDone (index : nat) (task : ITask)
| EvGroupDone (gIdx : nat) (group : list ITask)
| EvSpawn (pid : nat) (task : ITask)
| EvKill (pid : nat) (signal : Signal).

(** A live child process together with the closures its listeners hold:
    the slot [t] (or the lane) it was started for, the task index, the task,
    and the text accumulated so far. *)
Inductive Owner :=
| FlatSlot (t : nat)
| GroupLane (run gIdx : nat).

Record Proc := {
  pid : nat;
  owner : Owner;
  pidx : nat;
  ptask : ITask;
  pout : string;
  perr : string
}.

(** A pending deadline timer and what its callback closes over. *)
Record Timer := {
  tid : nat;
  tidx : nat;
  tpid : nat;
  ttask : ITask;
  tms : N
}.

(** A lane of [runGroups] suspended on the process of its current task;
    [l_pos] is the index of the next task of the group. *)
Record Lane := {
  l_run : nat;
  l_gidx : nat;
  l_group : list ITask;
  l_pos : nat
}.

(** The manager's fields ([cfg] to [taskStatus]) and the state of the event
    loop around it: live children, pending deadline timers, the number of
    [runSingle] loops asleep in [delay], the number of pending retry timers,
    the suspended lanes, fresh identifiers and the trace. *)
Record World := {
  cfg : Config;
  tasks : list (Cell ITask);
  taskGroups : list (list ITask);
  threads : list (Cell nat);
  processing : list nat;
  processed : list nat;
  isProcessing : bool;
  isPaused : bool;
  children : list (nat * nat);
  retryCount : gmap nat nat;
  timeouts : gmap nat nat;
  globalRetryCount : nat;
  taskStatus : gmap nat Status;
  procs : list Proc;
  timers : list Timer;
  loops : nat;
  retryTimers : nat;
  lanes : list Lane;
  nextPid : nat;
  nextTimer : nat;
  nextRun : nat;
  trace : list Event
}.

Definition set_tasks (v : list (Cell ITask)) (w : World) : World :=
  {| cfg := cfg w; tasks := v; taskGroups := taskGroups w; threads := threads w;
     processing := processing w; processed := processed w; isProcessing := isProcessing w;
     isPaused := isPaused w; children := children w; retryCount := retryCount w;
     timeouts := timeouts w; globalRetryCount := globalRetryCount w;
     taskStatus := taskStatus w; procs := procs w; timers := timers w; loops := loops w;
     retryTimers := retryTimers w; lanes := lanes w; nextPid := nextPid w;
     nextTimer := nextTimer w; nextRun := nextRun w; trace := trace w |}.
Definition set_taskGroups (v : list (list ITask)) (w : World) : World :=
  {| cfg := cfg w; tasks := tasks w; taskGroups := v; threads := threads w;
     processing := processing w; processed := processed w; isProcessing := isProcessing w;
     isPaused := isPaused w; children := children w; retryCount := retryCount w;
     timeouts := timeouts w; globalRetryCount := globalRetryCount w;
     taskStatus := taskStatus w; procs := procs w; timers := timers w; loops := loops w;
     retryTimers := retryTimers w; lanes := lanes w; nextPid := nextPid w;
     nextTimer := nextTimer w; nextRun := nextRun w; trace := trace w |}.
Definition set_threads (v : list (Cell nat)) (w : World) : World :=
  {| cfg := cfg w; tasks := tasks w; taskGroups := taskGroups w; threads := v;
     processing := processing w; processed := processed w; isProcessing := isProcessing w;
     isPaused := isPaused w; children := children w; retryCount := retryCount w;
     timeouts := timeouts w; globalRetryCount := globalRetryCount w;
     taskStatus := taskStatus w; procs := procs w; timers := timers w; loops := loops w;
     retryTimers := retryTimers w; lanes := lanes w; nextPid := nextPid w;
     nextTimer := nextTimer w; nextRun := nextRun w; trace := trace w |}.
Definition set_processing (v : list nat) (w : World) : World :=
  {| cfg := cfg w; tasks := tasks w; taskGroups := taskGroups w; threads := threads w;
     processing := v; processed := processed w; isProcessing := isProcessing w;
     isPaused := isPaused w; children := children w; retryCount := retryCount w;
     timeouts := timeouts w; globalRetryCount := globalRetryCount w;
     taskStatus := taskStatus w; procs := procs w; timers := timers w; loops := loops w;
     retryTimers := retryTimers w; lanes := lanes w; nextPid := nextPid w;
     nextTimer := nextTimer w; nextRun := nextRun w; trace := trace w |}.
Definition set_processed (v : list nat) (w : World) : World :=
  {| cfg := cfg w; tasks := tasks w; taskGroups := taskGroups w; threads := threads w;
     processing := processing w; processed := v; isProcessing := isProcessing w;
     isPaused := isPaused w; children := children w; retryCount := retryCount w;
     timeouts := timeouts w; globalRetryCount := globalRetryCount w;
     taskStatus := taskStatus w; procs := procs w; timers := timers w; loops := loops w;
     retryTimers := retryTimers w; lanes := lanes w; nextPid := nextPid w;
     nextTimer := nextTimer w; nextRun := nextRun w; trace := trace w |}.
Definition set_isProcessing (v : bool) (w : World) : World :=
  {| cfg := cfg w; tasks := tasks w; taskGroups := taskGroups w; threads := threads w;
     processing := processing w; processed := processed w; isProcessing := v;
     isPaused := isPaused w; children := children w; retryCount := retryCount w;
     timeouts := timeouts w; globalRetryCount := globalRetryCount w;
     taskStatus := taskStatus w; procs := procs w; timers := timers w; loops := loops w;
     retryTimers := retryTimers w; lanes := lanes w; nextPid := nextPid w;
     nextTimer := nextTimer w; nextRun := nextRun w; trace := trace w |}.
Definition set_isPaused (v : bool) (w : World) : World :=
  {| cfg := cfg w; tasks := tasks w; taskGroups := taskGroups w; threads := threads w;
     processing := processing w; processed := processed w; isProcessing := isProcessing w;
     isPaused := v; children := children w; retryCount := retryCount w;
     timeouts := timeouts w; globalRetryCount := globalRetryCount w;
     taskStatus := taskStatus w; procs := procs w; timers := timers w; loops := loops w;
     retryTimers := retryTimers w; lanes := lanes w; nextPid := nextPid w;
     nextTimer := nextTimer w; nextRun := nextRun w; trace := trace w |}.
Definition set_children (v : list (nat * nat)) (w : World) : World :=
  {| cfg := cfg w; tasks := tasks w; taskGroups := taskGroups w; threads := threads w;
     processing := processing w; processed := processed w; isProcessing := isProcessing w;
     isPaused := isPaused w; children := v; retryCount := retryCount w;
     timeouts := timeouts w; globalRetryCount := globalRetryCount w;
     taskStatus := taskStatus w; procs := procs w; timers := timers w; loops := loops w;
     retryTimers := retryTimers w; lanes := lanes w; nextPid := nextPid w;
     nextTimer := nextTimer w; nextRun := nextRun w; trace := trace w |}.
Definition set_retryCount (v : gmap nat nat) (w : World) : World :=
  {| cfg := cfg w; tasks := tasks w; taskGroups := taskGroups w; threads := threads w;
     processing := processing w; processed := processed w; isProcessing := isProcessing w;
     isPaused := isPaused w; children := children w; retryCount := v;
     timeouts := timeouts w; globalRetryCount := globalRetryCount w;
     taskStatus := taskStatus w; procs := procs w; timers := timers w; loops := loops w;
     retryTimers := retryTimers w; lanes := lanes w; nextPid := nextPid w;
     nextTimer := nextTimer w; nextRun := nextRun w; trace := trace w |}.
Definition set_timeouts (v : gmap nat nat) (w : World) : World :=
  {| cfg := cfg w; tasks := tasks w; taskGroups := taskGroups w; threads := threads w;
     processing := processing w; processed := processed w; isProcessing := isProcessing w;
     isPaused := isPaused w; children := children w; retryCount := retryCount w;
     timeouts := v; globalRetryCount := globalRetryCount w; taskStatus := taskStatus w;
     procs := procs w; timers := timers w; loops := loops w; retryTimers := retryTimers w;
     lanes := lanes w; nextPid := nextPid w; nextTimer := nextTimer w;
     nextRun := nextRun w; trace := trace w |}.
Definition set_globalRetryCount (v : nat) (w : World) : World :=
  {| cfg := cfg w; tasks := tasks w; taskGroups := taskGroups w; threads := threads w;
     processing := processing w; processed := processed w; isProcessing := isProcessing w;
     isPaused := isPaused w; children := children w; retryCount := retryCount w;
     timeouts := timeouts w; globalRetryCount := v; taskStatus := taskStatus w;
     procs := procs w; timers := timers w; loops := loops w; retryTimers := retryTimers w;
     lanes := lanes w; nextPid := nextPid w; nextTimer := nextTimer w;
     nextRun := nextRun w; trace := trace w |}.
Definition set_taskStatus (v : gmap nat Status) (w : World) : World :=
  {| cfg := cfg w; tasks := tasks w; taskGroups := taskGroups w; threads := threads w;
     processing := processing w; processed := processed w; isProcessing := isProcessing w;
     isPaused := isPaused w; children := children w; retryCount := retryCount w;
     timeouts := timeouts w; globalRetryCount := globalRetryCount w; taskStatus := v;
     procs := procs w; timers := timers w; loops := loops w; retryTimers := retryTimers w;
     lanes := lanes w; nextPid := nextPid w; nextTimer := nextTimer w;
     nextRun := nextRun w; trace := trace w |}.
Definition set_procs (v : list Proc) (w : World) : World :=
  {| cfg := cfg w; tasks := tasks w; taskGroups := taskGroups w; threads := threads w;
     processing := processing w; processed := processed w; isProcessing := isProcessing w;
     isPaused := isPaused w; children := children w; retryCount := retryCount w;
     timeouts := timeouts w; globalRetryCount := globalRetryCount w;
     taskStatus := taskStatus w; procs := v; timers := timers w; loops := loops w;
     retryTimers := retryTimers w; lanes := lanes w; nextPid := nextPid w;
     nextTimer := nextTimer w; nextRun := nextRun w; trace := trace w |}.
Definition set_timers (v : list Timer) (w : World) : World :=
  {| cfg := cfg w; tasks := tasks w; taskGroups := taskGroups w; threads := threads w;
     processing := processing w; processed := processed w; isProcessing := isProcessing w;
     isPaused := isPaused w; children := children w; retryCount := retryCount w;
     timeouts := timeouts w; globalRetryCount := globalRetryCount w;
     taskStatus := taskStatus w; procs := procs w; timers := v; loops := loops w;
     retryTimers := retryTimers w; lanes := lanes w; nextPid := nextPid w;
     nextTimer := nextTimer w; nextRun := nextRun w; trace := trace w |}.
Definition set_loops (v : nat) (w : World) : World :=
  {| cfg := cfg w; tasks := tasks w; taskGroups := taskGroups w; threads := threads w;
     processing := processing w; processed := processed w; isProcessing := isProcessing w;
     isPaused := isPaused w; children := children w; retryCount := retryCount w;
     timeouts := timeouts w; globalRetryCount := globalRetryCount w;
     taskStatus := taskStatus w; procs := procs w; timers := timers w; loops := v;
     retryTimers := retryTimers w; lanes := lanes w; nextPid := nextPid w;
     nextTimer := nextTimer w; nextRun := nextRun w; trace := trace w |}.
Definition set_retryTimers (v : nat) (w : World) : World :=
  {| cfg := cfg w; tasks := tasks w; taskGroups := taskGroups w; threads := threads w;
     processing := processing w; processed := processed w; isProcessing := isProcessing w;
     isPaused := isPaused w; children := children w; retryCount := retryCount w;
     timeouts := timeouts w; globalRetryCount := globalRetryCount w;
     taskStatus := taskStatus w; procs := procs w; timers := timers w; loops := loops w;
     retryTimers := v; lanes := lanes w; nextPid := nextPid w; nextTimer := nextTimer w;
     nextRun := nextRun w; trace := trace w |}.
Definition set_lanes (v : list Lane) (w : World) : World :=
  {| cfg := cfg w; tasks := tasks w; taskGroups := taskGroups w; threads := threads w;
     processing := processing w; processed := processed w; isProcessing := isProcessing w;
     isPaused := isPaused w; children := children w; retryCount := retryCount w;
     timeouts := timeouts w; globalRetryCount := globalRetryCount w;
     taskStatus := taskStatus w; procs := procs w; timers := timers w; loops := loops w;
     retryTimers := retryTimers w; lanes := v; nextPid := nextPid w;
     nextTimer := nextTimer w; nextRun := nextRun w; trace := trace w |}.
Definition set_nextPid (v : nat) (w : World) : World :=
  {| cfg := cfg w; tasks := tasks w; taskGroups := taskGroups w; threads := threads w;
     processing := processing w; processed := processed w; isProcessing := isProcessing w;
     isPaused := isPaused w; children := children w; retryCount := retryCount w;
     timeouts := timeouts w; globalRetryCount := globalRetryCount w;
     taskStatus := taskStatus w; procs := procs w; timers := timers w; loops := loops w;
     retryTimers := retryTimers w; lanes := lanes w; nextPid := v;
     nextTimer := nextTimer w; nextRun := nextRun w; trace := trace w |}.
Definition set_nextTimer (v : nat) (w : World) : World :=
  {| cfg := cfg w; tasks := tasks w; taskGroups := taskGroups w; threads := threads w;
     processing := processing w; processed := processed w; isProcessing := isProcessing w;
     isPaused := isPaused w; children := children w; retryCount := retryCount w;
     timeouts := timeouts w; globalRetryCount := globalRetryCount w;
     taskStatus := taskStatus w; procs := procs w; timers := timers w; loops := loops w;
     retryTimers := retryTimers w; lanes := lanes w; nextPid := nextPid w; nextTimer := v;
     nextRun := nextRun w; trace := trace w |}.
Definition set_nextRun (v : nat) (w : World) : World :=
  {| cfg := cfg w; tasks := tasks w; taskGroups := taskGroups w; threads := threads w;
     processing := processing w; processed := processed w; isProcessing := isProcessing w;
     isPaused := isPaused w; children := children w; retryCount := retryCount w;
     timeouts := timeouts w; globalRetryCount := globalRetryCount w;
     taskStatus := taskStatus w; procs := procs w; timers := timers w; loops := loops w;
     retryTimers := retryTimers w; lanes := lanes w; nextPid := nextPid w;
     nextTimer := nextTimer w; nextRun := v; trace := trace w |}.
Definition set_trace (v : list Event) (w : World) : World :=
  {| cfg := cfg w; tasks := tasks w; taskGroups := taskGroups w; threads := threads w;
     processing := processing w; processed := processed w; isProcessing := isProcessing w;
     isPaused := isPaused w; children := children w; retryCount := retryCount w;
     timeouts := timeouts w; globalRetryCount := globalRetryCount w;
     taskStatus := taskStatus w; procs := procs w; timers := timers w; loops := loops w;
     retryTimers := retryTimers w; lanes := lanes w; nextPid := nextPid w;
     nextTimer := nextTimer w; nextRun := nextRun w; trace := v |}.

(** A method body is a sequence of commands on the world, written in the
    order of the source: [w |> c1 |> c2] runs [c1], then [c2]. *)
Notation "w |> f" := (f w) (at level 45, left associativity, only parsing).

(** [this.f = g(this.f)] *)
Definition upd_tasks (f : list (Cell ITask) → list (Cell ITask)) (w : World) : World :=
  set_tasks (f (tasks w)) w.
Definition upd_threads (f : list (Cell nat) → list (Cell nat)) (w : World) : World :=
  set_threads (f (threads w)) w.
Definition upd_processing (f : list nat → list nat) (w : World) : World :=
  set_processing (f (processing w)) w.
Definition upd_processed (f : list nat → list nat) (w : World) : World :=
  set_processed (f (processed w)) w.
Definition upd_children (f : list (nat * nat) → list (nat * nat)) (w : World) : World :=
  set_children (f (children w)) w.
Definition upd_retryCount (f : gmap nat nat → gmap nat nat) (w : World) : World :=
  set_retryCount (f (retryCount w)) w.
Definition upd_timeouts (f : gmap nat nat → gmap nat nat) (w : World) : World :=
  set_timeouts (f (timeouts w)) w.
Definition upd_globalRetryCount (f : nat → nat) (w : World) : World :=
  set_globalRetryCount (f (globalRetryCount w)) w.
Definition upd_taskStatus (f : gmap nat Status → gmap nat Status) (w : World) : World :=
  set_taskStatus (f (taskStatus w)) w.
Definition upd_procs (f : list Proc → list Proc) (w : World) : World :=
  set_procs (f (procs w)) w.
Definition upd_timers (f : list Timer → list Timer) (w : World) : World :=
  set_timers (f (timers w)) w.
Definition upd_loops (f : nat → nat) (w : World) : World :=
  set_loops (f (loops w)) w.
Definition upd_retryTimers (f : nat → nat) (w : World) : World :=
  set_retryTimers (f (retryTimers w)) w.
Definition upd_lanes (f : list Lane → list Lane) (w : World) : World :=
  set_lanes (f (lanes w)) w.

(** ** Hooks, logging and the runtime primitives *)

Definition emit (e : Event) (w : World) : World := set_trace (trace w ++ [e]) w.

(** [if (this.h) await this.h(...)] *)
Definition hook (h : Hooks → bool) (e : Event) (w : World) : World :=
  set_trace (trace w ++ if h (hooks (cfg w)) then [e] else []) w.

Definition log (level : Level) (msg : LogMsg) (w : World) : World :=
  set_trace (trace w ++
             if onLog (hooks (cfg w)) && (levels (logLevel (cfg w)) <=? levels level)
             then [EvLog level msg] else []) w.

(** [clearTimeout(this.timeouts[idx])]; [clearTimeout(undefined)] does
    nothing. *)
Definition disarm (idx : nat) (w : World) : World :=
  set_timers (match timeouts w !! idx with
              | Some id => filter (λ tm, tid tm ≠ id) (timers w)
              | None => timers w
              end) w.

(** [Object.values(this.timeouts).forEach(clearTimeout); this.timeouts = {}] *)
Definition clearAllTimeouts (w : World) : World :=
  w |> set_timers (filter (λ tm, tid tm ∉ (map_to_list (timeouts w)).*2) (timers w))
    |> set_timeouts ∅.

(** [for (const [idx, child] of this.children.entries()) child.kill(signal)] *)
Definition killAll (signal : Signal) (w : World) : World :=
  set_trace (trace w ++ ((λ e, EvKill e.2 signal) <$> children w)) w.

(** [this.threads = Array(this.totalThreads).fill(null)] *)
Definition fill_threads (w : World) : World :=
  set_threads (replicate (totalThreads (cfg w)) Null) w.

Fixpoint find_proc (p : nat) (l : list Proc) : option Proc :=
  match l with
  | [] => None
  | x :: l' => if decide (pid x = p) then Some x else find_proc p l'
  end.

Definition remove_proc (p : nat) (l : list Proc) : list Proc :=
  filter (λ x, pid x ≠ p) l.

Definition is_zero (code : option Z) : bool :=
  match code with
  | Some 0%Z => true
  | _ => false
  end.

Inductive Completion :=
| Returned
| Thrown (message : string).

(** ** The class *)

Definition new_manager (c : Config) : World :=
  {| cfg := c; tasks := []; taskGroups := [];
     threads := replicate (totalThreads c) Null;
     processing := []; processed := []; isProcessing := false; isPaused := false;
     children := []; retryCount := ∅; timeouts := ∅; globalRetryCount := 0;
     taskStatus := ∅; procs := []; timers := []; loops := 0; retryTimers := 0;
     lanes := []; nextPid := 0; nextTimer := 0; nextRun := 0; trace := [] |}.

Definition no_hooks : Hooks :=
  Build_Hooks false false false false false false false false false false false
              false false false false false false false false false false false.

(** The defaults of the constructor and of the field initialisers. *)
Definition default_config : Config :=
  {| totalThreads := 1; sleep := 100%N; maxRetry := 0; defaultTimeout := 600000%N;
     retryDelay := 1000%N; globalRetryLimit := 100; logLevel := LInfo;
     killSignal := SIGTERM; hooks := no_hooks |}.

Definition resetState (w : World) : World :=
  w |> set_processed []
    |> set_processing []
    |> fill_threads
    |> set_children []
    |> set_retryCount ∅
    |> clearAllTimeouts
    |> set_taskStatus ∅.

Definition setTasks (ts : list ITask) (w : World) : World :=
  w |> set_tasks (Val <$> ts)
    |> set_taskGroups []
    |> resetState
    |> upd_taskStatus (λ m, foldl (λ m i, <[i := Waiting]> m) m (seq 0 (length ts))).

Definition setGroupedTasks (groups : list (list ITask)) (w : World) : World :=
  w |> set_taskGroups groups
    |> set_tasks []
    |> resetState.

(** The callback of [findIndex] in [runSingle]. *)
Definition eligible (w : World) (task : Cell ITask) (i : nat) : bool :=
  match task with Val _ => true | _ => false end
  && negb (includes (processing w) i)
  && negb (includes (processed w) i)
  && negb (bool_decide (taskStatus w !! i = Some Cancelled)).

(** The body of the [for] loop of [runSingle] once an idle slot [t] and an
    eligible index are found: from [this.threads[t] = nextIdx] up to the
    registration of the child's listeners.  [child] and [timer] are the
    handles that [spawn] and [setTimeout] return. *)
Definition assign (t nextIdx : nat) (task : ITask) (w : World) : World :=
  let child := nextPid w in
  let timer := nextTimer w in
  let timeoutMs := default (defaultTimeout (cfg w)) (timeout task) in
  w |> upd_threads (λ l, js_set l t (Val nextIdx))
    |> upd_processing (λ l, l ++ [nextIdx])
    |> upd_taskStatus <[nextIdx := Running]>
    |> hook beforeRunTask (EvBeforeRunTask t nextIdx task)
    |> log LInfo (MsgStartTask nextIdx task)
    |> emit (EvSpawn child task)
    |> set_nextPid (S child)
    |> upd_children (map_set nextIdx child)
    |> set_nextTimer (S timer)
    |> upd_timeouts <[nextIdx := timer]>
    |> upd_timers (λ l, l ++ [{| tid := timer; tidx := nextIdx; tpid := child;
                                 ttask := task; tms := timeoutMs |}])
    |> upd_procs (λ l, l ++ [{| pid := child; owner := FlatSlot t; pidx := nextIdx;
                                ptask := task; pout := ""%string; perr := ""%string |}]).

(** One turn of the [for] loop of [runSingle], for slot [t]. *)
Definition dispatch (t : nat) (w : World) : World :=
  match js_get (threads w) t with
  | Null =>
    match findIndex (eligible w) (tasks w) with
    | Some nextIdx =>
      match js_get (tasks w) nextIdx with
      | Val task => assign t nextIdx task w
      | _ => w (* not reached: [findIndex] returns the index of a truthy cell *)
      end
    | None => w
    end
  | _ => w
  end.

(** [for (let t = 0; t < this.totalThreads; t++) ...] *)
Definition dispatch_all (w : World) : World :=
  foldl (λ w t, dispatch t w) w (seq 0 (totalThreads (cfg w))).

(** One pass of the [while] loop of [runSingle], from the loop test to the
    next [await delay(this.sleep)], or to the end of the method. *)
Definition runSingle_iter (w : World) : World :=
  if isProcessing w && (length (processed w) <? length (tasks w)) then
    if isPaused w then w
    else
      w |> hook onTasksRunning (EvTasksRunning (processing w) (processed w) (threads w))
        |> dispatch_all
  else
    w |> upd_loops pred
      |> set_isProcessing false
      |> hook onAllTasksDone (EvAllTasksDone (length (tasks w))).

(** A call of [runSingle]: a new loop, run up to its first suspension. *)
Definition runSingle (w : World) : World :=
  w |> upd_loops S |> runSingle_iter.

(** [runSingleTask]: spawn a task of a lane and attach its listeners. *)
Definition runSingleTask (run gIdx tIdx : nat) (task : ITask) (w : World) : World :=
  let child := nextPid w in
  w |> emit (EvSpawn child task)
    |> set_nextPid (S child)
    |> log LInfo (MsgRunGroup gIdx tIdx task)
    |> upd_procs (λ l, l ++ [{| pid := child; owner := GroupLane run gIdx; pidx := tIdx;
                                ptask := task; pout := ""%string; perr := ""%string |}]).

(** The [for ... of group.entries()] loop of one lane, resumed at position
    [l_pos]: either it starts the next task and suspends again, or it leaves
    the loop, fires the group hook and the lane's promise resolves. *)
Definition lane_resume (l : Lane) (w : World) : World :=
  match l_group l !! l_pos l with
  | Some task =>
    if isProcessing w then
      w |> runSingleTask (l_run l) (l_gidx l) (l_pos l) task
        |> upd_lanes (λ ls, ls ++ [{| l_run := l_run l; l_gidx := l_gidx l;
                                      l_group := l_group l; l_pos := S (l_pos l) |}])
    else w |> hook onGroupDone (EvGroupDone (l_gidx l) (l_group l))
  | None => w |> hook onGroupDone (EvGroupDone (l_gidx l) (l_group l))
  end.

(** What follows [await Promise.all(...)] in [runGroups], once every lane of
    the run has resolved. *)
Definition groups_settle (run : nat) (w : World) : World :=
  if bool_decide (run ∈ l_run <$> lanes w) then w
  else
    w |> set_isProcessing false
      |> hook onAllTasksDone (EvAllTasksDone (length (taskGroups w))).

(** [this.taskGroups.map(async (group, gIdx) => ...)]: every lane runs up
    to its first suspension, in the order of the groups. *)
Fixpoint start_lanes (run gIdx : nat) (groups : list (list ITask)) (w : World) : World :=
  match groups with
  | [] => w
  | group :: rest =>
    start_lanes run (S gIdx) rest
      (lane_resume {| l_run := run; l_gidx := gIdx; l_group := group; l_pos := 0 |} w)
  end.

Definition runGroups (w : World) : World :=
  let run := nextRun w in
  w |> set_nextRun (S run)
    |> start_lanes run 0 (taskGroups w)
    |> groups_settle run.

(** The end of [start]: [runGroups] when lanes are installed, [runSingle]
    otherwise. *)
Definition run_installed (w : World) : World :=
  if 0 <? length (taskGroups w) then runGroups w else runSingle w.

Definition start (w : World) : Completion * World :=
  if isProcessing w then
    (Thrown "Task manager is already running."%string, log LWarn MsgAlreadyRunning w)
  else
    (Returned,
     w |> hook beforeStart (EvBeforeStart (tasks w))
       |> set_isProcessing true
       |> set_isPaused false
       |> fill_threads
       |> hook afterStart EvAfterStart
       |> run_installed).

Definition stop (signal : option Signal) (w : World) : World :=
  w |> hook beforeStop EvBeforeStop
    |> set_isProcessing false
    |> set_isPaused false
    |> killAll (default (killSignal (cfg w)) signal)
    |> set_children []
    |> clearAllTimeouts
    |> set_processing []
    |> set_processed []
    |> fill_threads
    |> hook afterStop EvAfterStop.

(** [this.threads.map(t => (t === index ? null : t))] *)
Definition free_slot (index : nat) (c : Cell nat) : Cell nat :=
  match c with
  | Val i => if decide (i = index) then Null else Val i
  | c => c
  end.

(** The [if (child) { ... }] block of [stopTask]. *)
Definition kill_child (index : nat) (signal : Signal) (w : World) : World :=
  match map_get index (children w) with
  | Some child =>
    w |> emit (EvKill child signal)
      |> upd_children (map_delete index)
      |> upd_processing (without index)
      |> upd_threads (fmap (free_slot index))
      |> upd_processed (push_new index)
  | None => w
  end.

Definition stopTask (index : nat) (signal : option Signal) (w : World) : World :=
  let task := js_get (tasks w) index in
  w |> hook beforeStopTask (EvBeforeStopTask index task)
    |> kill_child index (default (killSignal (cfg w)) signal)
    |> hook afterStopTask (EvAfterStopTask index task)
    |> hook onStopTask (EvOnStopTask index task)
    |> upd_taskStatus <[index := Stopped]>
    |> log LInfo (MsgStopTask index).

Definition pause (w : World) : World :=
  w |> hook beforePause EvBeforePause
    |> set_isPaused true
    |> hook afterPause EvAfterPause.

Definition continue (w : World) : World :=
  if negb (isPaused w) || isProcessing w then w
  else
    w |> set_isPaused false
      |> set_isProcessing true
      |> runSingle.

Definition cancelTask (index : nat) (w : World) : World :=
  if includes (processing w) index then w
  else
    w |> upd_tasks (λ l, js_set l index Null)
      |> upd_taskStatus <[index := Cancelled]>
      |> log LInfo (MsgCancelTask index).

Definition destroy (signal : option Signal) (w : World) : World :=
  w |> set_isProcessing false
    |> set_isPaused false
    |> killAll (default (killSignal (cfg w)) signal)
    |> set_children []
    |> clearAllTimeouts
    |> set_tasks []
    |> set_threads []
    |> set_processing []
    |> set_processed []
    |> hook onDestroy EvDestroy.

(** ** Listeners and timer callbacks *)

Definition add_stdout (data : string) (p : Proc) : Proc :=
  {| pid := pid p; owner := owner p; pidx := pidx p; ptask := ptask p;
     pout := String.append (pout p) data; perr := perr p |}.

Definition add_stderr (data : string) (p : Proc) : Proc :=
  {| pid := pid p; owner := owner p; pidx := pidx p; ptask := ptask p;
     pout := pout p; perr := String.append (perr p) data |}.

Definition update_proc (q : nat) (f : Proc -> Proc) (l : list Proc) : list Proc :=
  (λ x, if decide (pid x = q) then f x else x) <$> l.

(** The first argument the data hooks receive: the slot in flat mode, the
    group index in a lane. *)
Definition owner_arg (o : Owner) : nat :=
  match o with
  | FlatSlot t => t
  | GroupLane _ gIdx => gIdx
  end.

(** [child.stdout.on('data', ...)] *)
Definition on_stdout (q : nat) (data : string) (w : World) : World :=
  match find_proc q (procs w) with
  | Some p =>
    w |> upd_procs (update_proc q (add_stdout data))
      |> hook onTaskStdout (EvTaskStdout (owner_arg (owner p)) (pidx p) (ptask p) data)
  | None => w
  end.

(** [child.stderr.on('data', ...)] *)
Definition on_stderr (q : nat) (data : string) (w : World) : World :=
  match find_proc q (procs w) with
  | Some p =>
    w |> upd_procs (update_proc q (add_stderr data))
      |> hook onTaskStderr (EvTaskStderr (owner_arg (owner p)) (pidx p) (ptask p) data)
  | None => w
  end.

(** The callback of the retry [setTimeout]. *)
Definition on_retry_timer (w : World) : World :=
  match retryTimers w with
  | 0 => w
  | S n =>
    if isProcessing w then w |> set_retryTimers n |> runSingle
    else w |> set_retryTimers n
  end.

(** The retry policy, after the counters have been incremented. *)
Definition retry_policy (nextIdx : nat) (w : World) : World :=
  let retry := default 0 (retryCount w !! nextIdx) in
  if (retry <=? maxRetry (cfg w)) && (globalRetryCount w <=? globalRetryLimit (cfg w)) then
    w |> log LWarn (MsgRetryTask nextIdx retry)
      |> hook onTaskRetry (EvTaskRetry nextIdx retry)
      |> upd_processed (without nextIdx)
      |> upd_retryTimers S
  else if globalRetryLimit (cfg w) <? globalRetryCount w then
    w |> set_isProcessing false
      |> log LError (MsgGlobalRetryLimit (globalRetryCount w))
  else
    w |> log LError (MsgTaskFailed nextIdx).

(** The [close] listener of a child started by [runSingle] for slot [t]:
    the bookkeeping and the hooks common to every exit. *)
Definition release (p : Proc) (t : nat) (code : option Z) (signal : option Signal)
    (w : World) : World :=
  w |> disarm (pidx p)
    |> upd_timeouts (delete (pidx p))
    |> upd_children (map_delete (pidx p))
    |> upd_processing (without (pidx p))
    |> upd_processed (push_new (pidx p))
    |> upd_threads (λ l, js_set l t Null)
    |> hook afterRunTask
         (EvAfterRunTask (pid p) t (pidx p) (ptask p) code signal (pout p) (perr p))
    |> hook onStopTask (EvOnStopTask (pidx p) (Val (ptask p)))
    |> hook (λ h, onTaskError h && negb (is_zero code))
         (EvTaskError t (pidx p) (ptask p) code signal (perr p)).

(** The [close] listener of a child started by [runSingle] for slot [t]. *)
Definition close_flat (p : Proc) (t : nat) (code : option Z) (signal : option Signal)
    (w : World) : World :=
  if is_zero code then
    w |> release p t code signal
      |> upd_taskStatus <[pidx p := Done]>
      |> log LInfo (MsgTaskDone (pidx p))
      |> hook onTaskDone (EvTaskDone (pidx p) (ptask p))
  else
    w |> release p t code signal
      |> upd_taskStatus <[pidx p := Failed]>
      |> upd_retryCount (λ m, <[pidx p := default 0 (m !! pidx p) + 1]> m)
      |> upd_globalRetryCount S
      |> retry_policy (pidx p).

Definition same_lane (run gIdx : nat) (l : Lane) : Prop :=
  l_run l = run ∧ l_gidx l = gIdx.

Global Instance same_lane_dec run gIdx l : Decision (same_lane run gIdx l).
Proof. unfold same_lane. apply _. Defined.

(** [resolve()] at the end of a lane child's [close] listener wakes the
    lane, and [runGroups] itself once the last lane of the run is through. *)
Definition resolve_lane (run gIdx : nat) (w : World) : World :=
  match list_find (same_lane run gIdx) (lanes w) with
  | Some (_, l) =>
    w |> upd_lanes (filter (λ l, ¬ same_lane run gIdx l))
      |> lane_resume l
      |> groups_settle run
  | None => w
  end.

(** The [close] listener of a child started by [runSingleTask]. *)
Definition close_group (p : Proc) (run gIdx : nat) (code : option Z)
    (signal : option Signal) (w : World) : World :=
  if is_zero code then
    w |> upd_taskStatus <[pidx p := Done]>
      |> hook onTaskDone (EvTaskDone (pidx p) (ptask p))
      |> resolve_lane run gIdx
  else
    w |> upd_taskStatus <[pidx p := Failed]>
      |> hook onTaskError (EvTaskError gIdx (pidx p) (ptask p) code signal (perr p))
      |> resolve_lane run gIdx.

(** The [close] event of the child with pid [q]. *)
Definition on_close (q : nat) (code : option Z) (signal : option Signal)
    (w : World) : World :=
  match find_proc q (procs w) with
  | Some p =>
    match owner p with
    | FlatSlot t => w |> upd_procs (remove_proc q) |> close_flat p t code signal
    | GroupLane run gIdx => w |> upd_procs (remove_proc q) |> close_group p run gIdx code signal
    end
  | None => w
  end.

Fixpoint find_timer (id : nat) (l : list Timer) : option Timer :=
  match l with
  | [] => None
  | x :: l' => if decide (tid x = id) then Some x else find_timer id l'
  end.

(** The [if (this.children.has(nextIdx)) { ... }] block of the deadline
    callback. *)
Definition kill_overdue (tm : Timer) (w : World) : World :=
  if map_has (tidx tm) (children w) then
    w |> emit (EvKill (tpid tm) (killSignal (cfg w)))
      |> log LWarn (MsgTaskTimeout (tidx tm) (tms tm))
  else w.

(** The callback of the deadline [setTimeout] armed in [runSingle]. *)
Definition on_deadline (id : nat) (w : World) : World :=
  match find_timer id (timers w) with
  | Some tm =>
    w |> upd_timers (filter (λ x, tid x ≠ id))
      |> upd_taskStatus <[tidx tm := Timeout]>
      |> hook onTaskTimeout (EvTaskTimeout (tidx tm) (ttask tm))
      |> kill_overdue tm
  | None => w
  end.

(** A [runSingle] loop returns from [await delay(this.sleep)]. *)
Definition on_wake (w : World) : World :=
  match loops w with
  | 0 => w
  | S _ => runSingle_iter w
  end.

(** ** The transition system

    A step is a call of a public method or a turn of the event loop. *)

Inductive Op :=
| CallSetTasks (ts : list ITask)
| CallSetGroupedTasks (groups : list (list ITask))
| CallStart
| CallStop (signal : option Signal)
| CallStopTask (index : nat) (signal : option Signal)
| CallPause
| CallContinue
| CallCancelTask (index : nat)
| CallDestroy (signal : option Signal)
| LoopWakes
| RetryTimerFires
| DeadlineFires (timer : nat)
| StdoutData (pid : nat) (data : string)
| StderrData (pid : nat) (data : string)
| ChildCloses (pid : nat) (code : option Z) (signal : option Signal).

Definition apply (w : World) (o : Op) : World :=
  match o with
  | CallSetTasks ts => setTasks ts w
  | CallSetGroupedTasks groups => setGroupedTasks groups w
  | CallStart => (start w).2
  | CallStop signal => stop signal w
  | CallStopTask index signal => stopTask index signal w
  | CallPause => pause w
  | CallContinue => continue w
  | CallCancelTask index => cancelTask index w
  | CallDestroy signal => destroy signal w
  | LoopWakes => on_wake w
  | RetryTimerFires => on_retry_timer w
  | DeadlineFires timer => on_deadline timer w
  | StdoutData q data => on_stdout q data w
  | StderrData q data => on_stderr q data w
  | ChildCloses q code signal => on_close q code signal w
  end.

Definition run (w : World) (ops : list Op) : World := foldl apply w ops.



(** ** Sample inputs *)

Definition task_of (cmd : string) : ITask :=
  {| command := cmd; args := None; options := None; meta := None; timeout := None |}.

Definition all_hooks : Hooks :=
  Build_Hooks true true true true true true true true true true true
              true true true true true true true true true true true.

(** One worker slot, [maxRetry = 2], every hook installed. *)
Definition retry_config : Config :=
  {| totalThreads := 1; sleep := 100%N; maxRetry := 2; defaultTimeout := 600000%N;
     retryDelay := 1000%N; globalRetryLimit := 100; logLevel := LInfo;
     killSignal := SIGTERM; hooks := all_hooks |}.

Definition is_spawn (e : Event) : bool :=
  match e with
  | EvSpawn _ _ => true
  | _ => false
  end.

Definition is_kill (e : Event) : bool :=
  match e with
  | EvKill _ _ => true
  | _ => false
  end.

(** The number of processes started so far. *)
Definition spawn_count (w : World) : nat := length (List.filter is_spawn (trace w)).

(** * Properties *)

(** ** Arrays, lists and maps *)

Global Arguments js_get : simpl never.
Global Arguments js_set : simpl never.
Global Arguments findIndex : simpl never.
Global Arguments includes : simpl never.
Global Arguments without : simpl never.
Global Arguments push_new : simpl never.
Global Arguments map_get : simpl never.
Global Arguments map_set : simpl never.
Global Arguments map_delete : simpl never.
Global Arguments map_has : simpl never.
Global Arguments eligible : simpl never.
Global Arguments remove_proc : simpl never.
Global Arguments find_proc : simpl never.
Global Arguments find_timer : simpl never.
Global Arguments update_proc : simpl never.
Global Arguments Nat.leb : simpl never.
Global Arguments Nat.ltb : simpl never.

(** Case analysis on the branches of a method, simplifying as it goes. *)
Ltac world_cases := cbn; repeat (case_match; cbn).

Lemma js_get_set {A} (l : list (Cell A)) (i j : nat) (v : Cell A) :
  js_get (js_set l j v) i = if decide (i = j) then v else js_get l i.
Proof.
  unfold js_get, js_set. case_decide as Hlt.
  - case_decide as Hij.
    + subst. by rewrite list_lookup_insert_eq.
    + by rewrite list_lookup_insert_ne.
  - destruct (decide (i < length l)) as [Hi|Hi].
    + rewrite lookup_app_l by done. case_decide; [lia | done].
    + rewrite lookup_app_r by lia.
      rewrite (lookup_ge_None_2 l i) by lia.
      destruct (decide (i - length l < j - length l)) as [Hh|Hh].
      * rewrite lookup_app_l by (by rewrite length_replicate).
        rewrite lookup_replicate_2 by done. case_decide; [lia | done].
      * rewrite lookup_app_r by (rewrite length_replicate; lia).
        rewrite length_replicate. case_decide as Hij.
        -- subst. by replace (j - length l - (j - length l)) with 0 by lia.
        -- replace (i - length l - (j - length l)) with (S (i - j - 1)) by lia. done.
Qed.

Lemma js_set_length {A} (l : list (Cell A)) (j : nat) (v : Cell A) :
  length (js_set l j v) = length l `max` S j.
Proof.
  unfold js_set. case_decide.
  - rewrite length_insert. lia.
  - rewrite !length_app, length_replicate. simpl. lia.
Qed.

Lemma js_get_lookup {A} (l : list (Cell A)) (i : nat) (a : A) :
  js_get l i = Val a ↔ l !! i = Some (Val a).
Proof. unfold js_get. destruct (l !! i); naive_solver. Qed.

Lemma js_get_lt {A} (l : list (Cell A)) (i : nat) (a : A) :
  js_get l i = Val a → i < length l.
Proof. intros H%js_get_lookup. by eapply lookup_lt_Some. Qed.

Lemma findIndex_from_Some {A} (p : A → nat → bool) (l : list A) (k n : nat) :
  findIndex_from p l k = Some n →
  ∃ x, k ≤ n ∧ l !! (n - k) = Some x ∧ p x n = true ∧
       ∀ j y, j < n - k → l !! j = Some y → p y (k + j) = false.
Proof.
  revert k. induction l as [|x l IH]; intros k; simpl; [done|].
  destruct (p x k) eqn:Hp.
  - intros [= <-]. exists x. replace (k - k) with 0 by lia.
    split_and!; [lia | done | done | intros; lia].
  - intros (y & Hle & Hl & Hy & Hmin)%IH. exists y.
    replace (n - k) with (S (n - S k)) by lia. split_and!; [lia | done | done |].
    intros [|j] z Hj Hz; simpl in Hz.
    + injection Hz as <-. by rewrite Nat.add_0_r.
    + replace (k + S j) with (S k + j) by lia. apply Hmin; [lia | done].
Qed.

Lemma findIndex_from_None {A} (p : A → nat → bool) (l : list A) (k : nat) :
  findIndex_from p l k = None →
  ∀ j y, l !! j = Some y → p y (k + j) = false.
Proof.
  revert k. induction l as [|x l IH]; intros k; simpl; [done|].
  destruct (p x k) eqn:Hp; [done|]. intros Hn [|j] y Hy; simpl in Hy.
  - injection Hy as <-. by rewrite Nat.add_0_r.
  - replace (k + S j) with (S k + j) by lia. by eapply IH.
Qed.

(** [findIndex] returns the lowest index whose cell passes the test. *)
Lemma findIndex_Some {A} (p : A → nat → bool) (l : list A) (n : nat) :
  findIndex p l = Some n →
  ∃ x, l !! n = Some x ∧ p x n = true ∧
       ∀ j y, j < n → l !! j = Some y → p y j = false.
Proof.
  intros (x & _ & Hl & Hp & Hmin)%findIndex_from_Some.
  rewrite Nat.sub_0_r in Hl, Hmin. exists x. split_and!; [done..|].
  intros j y Hj Hy. by apply (Hmin j y).
Qed.

Lemma findIndex_None {A} (p : A → nat → bool) (l : list A) :
  findIndex p l = None → ∀ j y, l !! j = Some y → p y j = false.
Proof. intros H j y Hy. by apply (findIndex_from_None p l 0 H j y). Qed.

Lemma includes_true (l : list nat) (i : nat) : includes l i = true ↔ i ∈ l.
Proof. unfold includes. apply bool_decide_eq_true. Qed.

Lemma includes_false (l : list nat) (i : nat) : includes l i = false ↔ i ∉ l.
Proof. unfold includes. apply bool_decide_eq_false. Qed.

Lemma elem_of_without (i j : nat) (l : list nat) : j ∈ without i l ↔ j ≠ i ∧ j ∈ l.
Proof. unfold without. by rewrite list_elem_of_filter. Qed.

Lemma elem_of_push_new (i j : nat) (l : list nat) : j ∈ push_new i l ↔ j = i ∨ j ∈ l.
Proof.
  unfold push_new. destruct (includes l i) eqn:Hi.
  - apply includes_true in Hi. naive_solver.
  - rewrite elem_of_app, list_elem_of_singleton. naive_solver.
Qed.

Lemma NoDup_without (i : nat) (l : list nat) : NoDup l → NoDup (without i l).
Proof. apply NoDup_filter. Qed.

Lemma NoDup_push_new (i : nat) (l : list nat) : NoDup l → NoDup (push_new i l).
Proof.
  intros Hl. unfold push_new. destruct (includes l i) eqn:Hi; [done|].
  apply includes_false in Hi. apply NoDup_app. split_and!; [done| |apply NoDup_singleton].
  intros x Hx ->%list_elem_of_singleton. done.
Qed.

Lemma eligible_true (w : World) (c : Cell ITask) (i : nat) :
  eligible w c i = true ↔
  (∃ task, c = Val task) ∧ i ∉ processing w ∧ i ∉ processed w ∧
  taskStatus w !! i ≠ Some Cancelled.
Proof.
  unfold eligible. rewrite !andb_true_iff, !negb_true_iff, !includes_false,
    bool_decide_eq_false.
  destruct c; naive_solver.
Qed.

Lemma start_lanes_invariant (P : World → Prop) run gIdx groups w :
  (∀ l w, P w → P (lane_resume l w)) → P w → P (start_lanes run gIdx groups w).
Proof.
  intros Hstep. revert gIdx w. induction groups as [|group rest IH]; simpl; [done|].
  intros gIdx w Hw. by apply IH, Hstep.
Qed.

Lemma foldl_invariant {A B} (P : A → Prop) (f : A → B → A) (l : list B) (a : A) :
  (∀ a b, P a → P (f a b)) → P a → P (foldl f a l).
Proof. intros Hf. revert a. induction l; simpl; auto. Qed.

(** An invariant of the steps allowed by [Q] holds along every run. *)
Lemma run_invariant (P : World → Prop) (Q : Op → Prop) (ops : list Op) (w : World) :
  (∀ w o, Q o → P w → P (apply w o)) → Forall Q ops → P w → P (run w ops).
Proof.
  intros Hstep Hops. revert w. induction Hops as [|o ops Ho _ IH]; simpl; [done|].
  intros w Hw. apply IH. by apply Hstep.
Qed.

Lemma run_app (w : World) (ops1 ops2 : list Op) :
  run w (ops1 ++ ops2) = run (run w ops1) ops2.
Proof. apply foldl_app. Qed.

(** ** Installing a task set *)

Lemma waiting_table_lookup (m : gmap nat Status) (k n i : nat) :
  foldl (λ m i, <[i := Waiting]> m) m (seq k n) !! i =
  if decide (k ≤ i < k + n) then Some Waiting else m !! i.
Proof.
  revert m k. induction n as [|n IH]; intros m k; simpl.
  - case_decide; [lia | done].
  - rewrite IH. repeat case_decide; try lia; try done.
    + assert (i = k) as -> by lia. by rewrite lookup_insert_eq.
    + by rewrite lookup_insert_ne by lia.
Qed.

Lemma clearAllTimeouts_timers (w : World) (tm : Timer) (i : nat) :
  tm ∈ timers (clearAllTimeouts w) → timeouts w !! i ≠ Some (tid tm).
Proof.
  unfold clearAllTimeouts; cbn. intros [Hid _]%list_elem_of_filter Hi.
  apply Hid. apply list_elem_of_fmap. exists (i, tid tm). split; [done|].
  by apply elem_of_map_to_list.
Qed.

(** Global retry counter after one failed task, and the status table after
    installing lanes. *)
Definition one_failure : World :=
  run (new_manager default_config)
      [CallSetTasks [task_of "a"]; CallStart; ChildCloses 0 (Some 1%Z) None].

(** C5, as stated, fails: [setTasks] leaves the global retry counter where it
    was, and [setGroupedTasks] marks no task [Waiting]. *)
Lemma install_counterexample :
  globalRetryCount one_failure = 1 ∧
  globalRetryCount (setTasks [task_of "b"] one_failure) ≠ 0 ∧
  globalRetryCount (setGroupedTasks [[task_of "b"]] one_failure) ≠ 0 ∧
  taskStatus (setGroupedTasks [[task_of "b"]] (new_manager default_config)) !! 0
    ≠ Some Waiting.
Proof. vm_compute. repeat split; discriminate. Qed.

(** C5 (amended): installing a flat list or lanes resets the worker slots,
    the in-flight and completed sets, the process-handle table, the per-task
    retry counters, the deadline timers recorded in the timer table and the
    status table; the global retry counter keeps its value; [setTasks] marks
    every installed task [Waiting], [setGroupedTasks] leaves the status table
    empty. *)
Theorem install_resets_state (w : World) :
  (∀ ts, let w' := setTasks ts w in
     tasks w' = Val <$> ts ∧ taskGroups w' = [] ∧
     threads w' = replicate (totalThreads (cfg w)) Null ∧
     processing w' = [] ∧ processed w' = [] ∧ children w' = [] ∧
     retryCount w' = ∅ ∧ timeouts w' = ∅ ∧
     (∀ tm i, tm ∈ timers w' → timeouts w !! i ≠ Some (tid tm)) ∧
     (∀ i, taskStatus w' !! i = if decide (i < length ts) then Some Waiting else None) ∧
     globalRetryCount w' = globalRetryCount w) ∧
  (∀ groups, let w' := setGroupedTasks groups w in
     tasks w' = [] ∧ taskGroups w' = groups ∧
     threads w' = replicate (totalThreads (cfg w)) Null ∧
     processing w' = [] ∧ processed w' = [] ∧ children w' = [] ∧
     retryCount w' = ∅ ∧ timeouts w' = ∅ ∧
     (∀ tm i, tm ∈ timers w' → timeouts w !! i ≠ Some (tid tm)) ∧
     taskStatus w' = ∅ ∧
     globalRetryCount w' = globalRetryCount w).
Proof.
  split.
  - intros ts w'. repeat split; try reflexivity.
    + intros tm i Hin. by apply (clearAllTimeouts_timers _ tm i).
    + intros i. subst w'. unfold setTasks. cbn.
      rewrite waiting_table_lookup. repeat case_decide; try lia; done.
  - intros groups w'. repeat split; try reflexivity.
    intros tm i Hin. by apply (clearAllTimeouts_timers _ tm i).
Qed.

(** ** [destroy] *)

(** C6: [destroy] empties the flat task list but not the lanes.  With lanes
    installed, a [start] after [destroy] starts every lane again instead of
    reporting zero tasks; with a flat list it reports zero tasks at once. *)
Theorem destroy_keeps_lanes :
  (∀ signal w, taskGroups (destroy signal w) = taskGroups w) ∧
  let w := run (new_manager retry_config)
               [CallSetGroupedTasks [[task_of "a"]]; CallDestroy None; CallStart] in
  taskGroups w = [[task_of "a"]] ∧
  EvSpawn 0 (task_of "a") ∈ trace w ∧
  (∀ n, EvAllTasksDone n ∉ trace w) ∧
  isProcessing w = true ∧
  let w' := run (new_manager retry_config)
                [CallSetTasks [task_of "a"]; CallDestroy None; CallStart] in
  spawn_count w' = 0 ∧ last (trace w') = Some (EvAllTasksDone 0).
Proof.
  split; [done|]. vm_compute. repeat split.
  - repeat constructor.
  - intros n Hn.
    repeat (apply elem_of_cons in Hn as [Hn|Hn]; [discriminate|]).
    by apply elem_of_nil in Hn.
Qed.

(** ** [stopTask] *)

(** C7: after [stopTask] the killed child still closes, and its [close]
    listener runs the failure branch: the task is counted by the retry
    policy, taken out of the completed set and dispatched again. *)
Theorem stopTask_close_requeues :
  let w1 := run (new_manager retry_config)
                [CallSetTasks [task_of "a"]; CallStart; CallStopTask 0 None] in
  let w2 := apply w1 (ChildCloses 0 None (Some SIGTERM)) in
  let w3 := apply w2 LoopWakes in
  (EvKill 0 SIGTERM ∈ trace w1 ∧ processing w1 = [] ∧ processed w1 = [0] ∧
   threads w1 = [Null] ∧ taskStatus w1 !! 0 = Some Stopped) ∧
  (processed w2 = [] ∧ taskStatus w2 !! 0 = Some Failed ∧
   retryCount w2 !! 0 = Some 1 ∧ globalRetryCount w2 = 1) ∧
  (processing w3 = [0] ∧ taskStatus w3 !! 0 = Some Running ∧ spawn_count w3 = 2).
Proof. vm_compute. repeat split. repeat constructor. Qed.

(** ** What the lanes leave alone

    The lane runner never touches the bookkeeping of flat mode. *)

Definition flat_view (w : World) :=
  (cfg w, tasks w, taskGroups w, threads w, processing w, processed w, isPaused w,
   children w, retryCount w, timeouts w, globalRetryCount w, timers w, loops w,
   retryTimers w).

Lemma lane_resume_flat (l : Lane) (w : World) : flat_view (lane_resume l w) = flat_view w.
Proof. unfold lane_resume. by repeat case_match. Qed.

Lemma groups_settle_flat (run : nat) (w : World) :
  flat_view (groups_settle run w) = flat_view w.
Proof. unfold groups_settle. by repeat case_match. Qed.

Lemma runGroups_flat (w : World) : flat_view (runGroups w) = flat_view w.
Proof.
  unfold runGroups. rewrite groups_settle_flat.
  apply (start_lanes_invariant (λ w', flat_view w' = flat_view w)); [|done].
  intros l a <-. apply lane_resume_flat.
Qed.

Lemma resolve_lane_flat (run gIdx : nat) (w : World) :
  flat_view (resolve_lane run gIdx w) = flat_view w.
Proof.
  unfold resolve_lane. repeat case_match; [|done].
  by rewrite groups_settle_flat, lane_resume_flat.
Qed.

Lemma close_group_flat (p : Proc) (run gIdx : nat) code signal (w : World) :
  flat_view (close_group p run gIdx code signal w) = flat_view w.
Proof. unfold close_group. by case_match; rewrite resolve_lane_flat. Qed.

Ltac flat_eqs H :=
  unfold flat_view in H; simplify_eq H;
  let Hcfg := fresh "Ecfg" in let Htasks := fresh "Etasks" in
  let Hgroups := fresh "Egroups" in let Hthreads := fresh "Ethreads" in
  let Hprocessing := fresh "Eprocessing" in let Hprocessed := fresh "Eprocessed" in
  let Hpaused := fresh "Epaused" in let Hchildren := fresh "Echildren" in
  let Hretry := fresh "Eretry" in let Htimeouts := fresh "Etimeouts" in
  let Hglobal := fresh "Eglobal" in let Htimers := fresh "Etimers" in
  let Hloops := fresh "Eloops" in let Hrt := fresh "Ert" in
  intros Hcfg Htasks Hgroups Hthreads Hprocessing Hprocessed Hpaused Hchildren
         Hretry Htimeouts Hglobal Htimers Hloops Hrt.

(** ** [cancelTask] *)

(** The cell of index [i] holds no task and [i] is not in flight. *)
Definition retired (i : nat) (w : World) : Prop :=
  (∀ task, js_get (tasks w) i ≠ Val task) ∧ i ∉ processing w.

Lemma retired_not_selected (i : nat) (w : World) :
  retired i w → findIndex (eligible w) (tasks w) ≠ Some i.
Proof.
  intros [Hnull _] (c & Hc & He & _)%findIndex_Some.
  apply eligible_true in He as [[task ->] _].
  by apply (Hnull task), js_get_lookup.
Qed.

Lemma dispatch_retired (i t : nat) (w : World) : retired i w → retired i (dispatch t w).
Proof.
  intros Hr. unfold dispatch. repeat case_match; try done.
  destruct Hr as [Hnull Hproc]. split; cbn; [done|].
  rewrite elem_of_app, list_elem_of_singleton. intros [?| ->]; [done|]. by eapply Hnull.
Qed.

Lemma runSingle_iter_retired (i : nat) (w : World) :
  retired i w → retired i (runSingle_iter w).
Proof.
  intros Hr. unfold runSingle_iter, dispatch_all. repeat case_match; try done.
  apply foldl_invariant; [|done]. intros. by apply dispatch_retired.
Qed.

Lemma retired_flat (i : nat) (w w' : World) :
  flat_view w' = flat_view w → retired i w → retired i w'.
Proof. intros H. flat_eqs H. unfold retired. by rewrite Etasks, Eprocessing. Qed.

Lemma close_flat_retired (i : nat) p t code signal (w : World) :
  retired i w → retired i (close_flat p t code signal w).
Proof.
  intros [Hnull Hproc]. unfold close_flat, retry_policy.
  repeat case_match; (split; cbn; [done|]); rewrite elem_of_without; naive_solver.
Qed.

Lemma apply_retired (i : nat) (w : World) (o : Op) :
  (∀ ts, o ≠ CallSetTasks ts) → retired i w → retired i (apply w o).
Proof.
  intros Ho Hr. destruct o; simpl.
  - by destruct (Ho ts).
  - split; [done | apply not_elem_of_nil].
  - unfold start. case_match; [done|]. simpl. unfold run_installed. case_match.
    + eapply retired_flat; [apply runGroups_flat | done].
    + by apply runSingle_iter_retired.
  - split; [apply Hr | apply not_elem_of_nil].
  - destruct Hr as [Hnull Hproc]. unfold stopTask, kill_child.
    case_match; (split; cbn; [done|]); [|done].
    rewrite elem_of_without. naive_solver.
  - done.
  - unfold continue. case_match; [done|]. by apply runSingle_iter_retired.
  - destruct Hr as [Hnull Hproc]. unfold cancelTask. case_match; [done|].
    split; cbn; [|done]. intros task. rewrite js_get_set. case_decide; [done | apply Hnull].
  - split; [done | apply not_elem_of_nil].
  - unfold on_wake. case_match; [done|]. by apply runSingle_iter_retired.
  - unfold on_retry_timer. repeat case_match; try done. by apply runSingle_iter_retired.
  - unfold on_deadline, kill_overdue. by repeat case_match.
  - unfold on_stdout. by repeat case_match.
  - unfold on_stderr. by repeat case_match.
  - unfold on_close. repeat case_match; try done.
    + by apply close_flat_retired.
    + eapply retired_flat; [apply close_group_flat | done].
Qed.

(** C8: [cancelTask] on an in-flight task changes nothing; on any other index
    it sets the status to [Cancelled] and nulls the task's cell, and from then
    on, whatever is called or happens short of installing a new task list,
    [findIndex] never returns that index and it never enters the in-flight
    set. *)
Theorem cancelTask_retires (w : World) (i : nat) :
  (i ∈ processing w → cancelTask i w = w) ∧
  (i ∉ processing w →
   taskStatus (cancelTask i w) !! i = Some Cancelled ∧
   js_get (tasks (cancelTask i w)) i = Null ∧
   ∀ ops, Forall (λ o, ∀ ts, o ≠ CallSetTasks ts) ops →
     let w' := run (cancelTask i w) ops in
     findIndex (eligible w') (tasks w') ≠ Some i ∧ i ∉ processing w').
Proof.
  split.
  - intros Hin%includes_true. unfold cancelTask. by rewrite Hin.
  - intros Hout. pose proof Hout as Hf%includes_false.
    assert (taskStatus (cancelTask i w) !! i = Some Cancelled ∧
            js_get (tasks (cancelTask i w)) i = Null ∧ i ∉ processing (cancelTask i w))
      as (Hst & Hnull & Hproc).
    { unfold cancelTask. rewrite Hf. cbn. split_and!.
      - apply lookup_insert_eq.
      - rewrite js_get_set. by case_decide.
      - done. }
    split_and!; [done..|].
    intros ops Hops.
    assert (retired i (run (cancelTask i w) ops)) as Hr.
    { apply (run_invariant (retired i) _ ops _ (apply_retired i) Hops).
      split; [|done]. intros task. by rewrite Hnull. }
    split; [by apply retired_not_selected | apply Hr].
Qed.

Lemma cancelTask_retires_witness :
  let w := run (new_manager retry_config)
               [CallSetTasks [task_of "a"; task_of "b"]; CallStart] in
  (0 ∈ processing w ∧ cancelTask 0 w = w) ∧
  (1 ∉ processing w ∧
   let w' := run (cancelTask 1 w) [ChildCloses 0 (Some 0%Z) None; LoopWakes] in
   findIndex (eligible w') (tasks w') ≠ Some 1 ∧ 1 ∉ processing w').
Proof.
  intros w.
  assert (0 ∈ processing w) as H0 by (apply (bool_decide_unpack _); vm_compute; exact I).
  assert (1 ∉ processing w) as H1 by (apply (bool_decide_unpack _); vm_compute; exact I).
  split.
  - split; [exact H0 | exact (proj1 (cancelTask_retires w 0) H0)].
  - split; [exact H1|].
    apply (proj2 (proj2 (proj2 (cancelTask_retires w 1) H1))).
    repeat constructor; intros ts; discriminate.
Defined.

(** ** Counting the processes started

    Every [spawn] takes a fresh pid, so the pid counter moves in step with the
    [EvSpawn] events of the trace. *)

Definition spawn_sync (w w' : World) : Prop :=
  spawn_count w' + nextPid w = spawn_count w + nextPid w'.

Lemma spawn_sync_refl (w : World) : spawn_sync w w.
Proof. unfold spawn_sync. lia. Qed.

Lemma spawn_sync_trans (w1 w2 w3 : World) :
  spawn_sync w1 w2 → spawn_sync w2 w3 → spawn_sync w1 w3.
Proof. unfold spawn_sync. lia. Qed.

Lemma spawn_count_kills (signal : Signal) (l : list (nat * nat)) :
  List.filter is_spawn ((λ e, EvKill e.2 signal) <$> l) = [].
Proof. induction l as [|x l IH]; [done|]. by rewrite fmap_cons. Qed.

Lemma spawn_count_opt (b : bool) (e : Event) :
  length (List.filter is_spawn (if b then [e] else [])) = if b && is_spawn e then 1 else 0.
Proof. by destruct b, (is_spawn e) eqn:E; simpl; rewrite ?E. Qed.

Ltac count_spawns :=
  unfold spawn_sync, spawn_count; cbn;
  rewrite ?List.filter_app, ?length_app, ?spawn_count_kills, ?spawn_count_opt; cbn;
  rewrite ?andb_false_r; try lia.

Lemma assign_spawn_sync t i task w : spawn_sync w (assign t i task w).
Proof. unfold assign. count_spawns. Qed.

Lemma dispatch_spawn_sync t w : spawn_sync w (dispatch t w).
Proof.
  unfold dispatch. repeat case_match; try apply spawn_sync_refl. apply assign_spawn_sync.
Qed.

Lemma runSingle_iter_spawn_sync w : spawn_sync w (runSingle_iter w).
Proof.
  unfold runSingle_iter, dispatch_all. repeat case_match; try apply spawn_sync_refl.
  - apply foldl_invariant.
    + intros a t Ha. eapply spawn_sync_trans; [exact Ha | apply dispatch_spawn_sync].
    + count_spawns.
  - count_spawns.
Qed.

Lemma runSingle_spawn_sync w : spawn_sync w (runSingle w).
Proof.
  eapply spawn_sync_trans; [|apply runSingle_iter_spawn_sync]. count_spawns.
Qed.

Lemma lane_resume_spawn_sync l w : spawn_sync w (lane_resume l w).
Proof. unfold lane_resume, runSingleTask. repeat case_match; count_spawns. Qed.

Lemma groups_settle_spawn_sync run w : spawn_sync w (groups_settle run w).
Proof. unfold groups_settle. repeat case_match; count_spawns. Qed.

Lemma runGroups_spawn_sync w : spawn_sync w (runGroups w).
Proof.
  unfold runGroups.
  eapply spawn_sync_trans; [|apply groups_settle_spawn_sync].
  apply start_lanes_invariant.
  - intros l a Ha. eapply spawn_sync_trans; [exact Ha | apply lane_resume_spawn_sync].
  - count_spawns.
Qed.

Lemma close_flat_spawn_sync p t code signal w :
  spawn_sync w (close_flat p t code signal w).
Proof. unfold close_flat, retry_policy. repeat case_match; count_spawns. Qed.

Lemma close_group_spawn_sync p run gIdx code signal w :
  spawn_sync w (close_group p run gIdx code signal w).
Proof.
  unfold close_group, resolve_lane. repeat case_match;
    try (eapply spawn_sync_trans; [|apply groups_settle_spawn_sync];
         eapply spawn_sync_trans; [|apply lane_resume_spawn_sync]);
    count_spawns.
Qed.

Lemma apply_spawn_sync w o : spawn_sync w (apply w o).
Proof.
  destruct o; simpl.
  - count_spawns.
  - count_spawns.
  - unfold start, run_installed. repeat case_match; simpl.
    + count_spawns.
    + eapply spawn_sync_trans; [|apply runGroups_spawn_sync]. count_spawns.
    + eapply spawn_sync_trans; [|apply runSingle_spawn_sync]. count_spawns.
  - count_spawns.
  - unfold stopTask, kill_child. case_match; count_spawns.
  - count_spawns.
  - unfold continue. case_match; [apply spawn_sync_refl|].
    eapply spawn_sync_trans; [|apply runSingle_spawn_sync]. count_spawns.
  - unfold cancelTask. case_match; count_spawns.
  - count_spawns.
  - unfold on_wake. case_match; [apply spawn_sync_refl | apply runSingle_iter_spawn_sync].
  - unfold on_retry_timer. repeat case_match; try apply spawn_sync_refl.
    + eapply spawn_sync_trans; [|apply runSingle_spawn_sync]. count_spawns.
    + count_spawns.
  - unfold on_deadline, kill_overdue. repeat case_match; count_spawns.
  - unfold on_stdout. repeat case_match; count_spawns.
  - unfold on_stderr. repeat case_match; count_spawns.
  - unfold on_close. repeat case_match; try apply spawn_sync_refl.
    + eapply spawn_sync_trans; [|apply close_flat_spawn_sync]. count_spawns.
    + eapply spawn_sync_trans; [|apply close_group_spawn_sync]. count_spawns.
Qed.

Lemma run_spawn_sync ops w : spawn_sync w (run w ops).
Proof.
  revert w. induction ops as [|o ops IH]; intros w; simpl; [apply spawn_sync_refl|].
  eapply spawn_sync_trans; [apply apply_spawn_sync | apply IH].
Qed.

(** ** The global retry ceiling *)

Definition kills (w : World) : list Event := List.filter is_kill (trace w).

(** Once the processing flag is down, only [start] and [continue] raise it
    again, and until then nothing is spawned. *)
Definition resumes (o : Op) : Prop := o = CallStart ∨ o = CallContinue.

Lemma lane_resume_halted l w :
  isProcessing w = false →
  isProcessing (lane_resume l w) = false ∧ nextPid (lane_resume l w) = nextPid w.
Proof. intros H. unfold lane_resume. rewrite H. by repeat case_match. Qed.

Lemma groups_settle_halted run w :
  isProcessing w = false →
  isProcessing (groups_settle run w) = false ∧ nextPid (groups_settle run w) = nextPid w.
Proof. intros H. unfold groups_settle. by repeat case_match. Qed.

Lemma runSingle_iter_halted w :
  isProcessing w = false →
  isProcessing (runSingle_iter w) = false ∧ nextPid (runSingle_iter w) = nextPid w.
Proof. intros H. unfold runSingle_iter. by rewrite H. Qed.

Lemma close_flat_halted p t code signal w :
  isProcessing w = false →
  isProcessing (close_flat p t code signal w) = false ∧
  nextPid (close_flat p t code signal w) = nextPid w.
Proof. intros H. unfold close_flat, retry_policy. by repeat case_match. Qed.

Lemma close_group_halted p run gIdx code signal w :
  isProcessing w = false →
  isProcessing (close_group p run gIdx code signal w) = false ∧
  nextPid (close_group p run gIdx code signal w) = nextPid w.
Proof.
  intros H. unfold close_group, resolve_lane.
  repeat case_match; try done.
  all: match goal with
       | |- context [groups_settle ?r (lane_resume ?l ?x)] =>
         let Hx := fresh in let Ha := fresh in let Hb := fresh in
         let Hc := fresh in let Hd := fresh in
         assert (isProcessing x = false) as Hx by done;
         destruct (lane_resume_halted l x Hx) as [Ha Hb];
         destruct (groups_settle_halted r _ Ha) as [Hc Hd];
         by rewrite Hc, Hd, Hb
       end.
Qed.

Lemma apply_halted w o :
  ¬ resumes o → isProcessing w = false →
  isProcessing (apply w o) = false ∧ nextPid (apply w o) = nextPid w.
Proof.
  intros Ho H. destruct o; simpl; try done.
  - destruct Ho. by left.
  - unfold stopTask, kill_child. by repeat case_match.
  - destruct Ho. by right.
  - unfold cancelTask. by repeat case_match.
  - unfold on_wake. case_match; [done | by apply runSingle_iter_halted].
  - unfold on_retry_timer. case_match; [done|]. by rewrite H.
  - unfold on_deadline, kill_overdue. by repeat case_match.
  - unfold on_stdout. by repeat case_match.
  - unfold on_stderr. by repeat case_match.
  - unfold on_close. repeat case_match; try done.
    + by apply (close_flat_halted _ _ _ _ (upd_procs _ w)).
    + by apply (close_group_halted _ _ _ _ _ (upd_procs _ w)).
Qed.

Lemma run_halted ops w :
  Forall (λ o, ¬ resumes o) ops → isProcessing w = false →
  isProcessing (run w ops) = false ∧ nextPid (run w ops) = nextPid w.
Proof.
  intros Hops. revert w. induction Hops as [|o ops Ho _ IH]; intros w H; simpl; [done|].
  destruct (apply_halted w o Ho H) as [H1 H2].
  destruct (IH _ H1) as [H3 H4]. by rewrite H3, H4, H2.
Qed.

Lemma stop_kills_children (signal : Signal) (w : World) (idx child : nat) :
  (idx, child) ∈ children w → EvKill child signal ∈ trace (stop (Some signal) w).
Proof.
  intros Hin. cbn.
  assert (EvKill child signal ∈ (λ e : nat * nat, EvKill e.2 signal) <$> children w) as Hk.
  { apply list_elem_of_fmap. by exists (idx, child). }
  rewrite !elem_of_app. auto.
Qed.

(** C3: when the failure of a flat-mode task takes the global retry counter
    past the ceiling, the [close] listener clears the processing flag, issues
    no [kill], removes only the closing child's own handle from the handle
    table and leaves every other live child alone; afterwards nothing is
    spawned and the flag stays down until [start] or [continue] is called;
    a later [stop] is what kills the children still in the table. *)
Theorem global_ceiling_halts (w : World) (q t : nat) (p : Proc)
    (code : option Z) (signal : option Signal) :
  find_proc q (procs w) = Some p →
  owner p = FlatSlot t →
  is_zero code = false →
  globalRetryLimit (cfg w) ≤ globalRetryCount w →
  let w' := on_close q code signal w in
  globalRetryCount w' = S (globalRetryCount w) ∧
  isProcessing w' = false ∧
  kills w' = kills w ∧
  children w' = map_delete (pidx p) (children w) ∧
  procs w' = remove_proc q (procs w) ∧
  (∀ ops, Forall (λ o, ¬ resumes o) ops →
     isProcessing (run w' ops) = false ∧ spawn_count (run w' ops) = spawn_count w') ∧
  (∀ s idx child, (idx, child) ∈ children w' → EvKill child s ∈ trace (stop (Some s) w')).
Proof.
  intros Hp Ho Hc Hlim w'.
  assert (w' = close_flat p t code signal (upd_procs (remove_proc q) w)) as Hw'.
  { subst w'. unfold on_close. by rewrite Hp, Ho. }
  assert (isProcessing w' = false ∧ globalRetryCount w' = S (globalRetryCount w) ∧
          kills w' = kills w ∧ children w' = map_delete (pidx p) (children w) ∧
          procs w' = remove_proc q (procs w)) as (Hflag & Hcount & Hkills & Hch & Hprocs).
  { rewrite Hw'. unfold close_flat, retry_policy, kills. rewrite Hc. cbn.
    assert (S (globalRetryCount w) <=? globalRetryLimit (cfg w) = false) as ->
      by (apply Nat.leb_gt; lia).
    assert (globalRetryLimit (cfg w) <? S (globalRetryCount w) = true) as ->
      by (apply Nat.ltb_lt; lia).
    rewrite andb_false_r. cbn. split_and!; try done.
    rewrite !List.filter_app. by repeat (case_match; cbn; rewrite ?app_nil_r). }
  split_and!; try done.
  - intros ops Hops. destruct (run_halted ops w' Hops Hflag) as [H1 H2]. split; [done|].
    pose proof (run_spawn_sync ops w') as Hs. unfold spawn_sync in Hs. lia.
  - intros s idx child. apply stop_kills_children.
Qed.

(** Two worker slots and a global retry ceiling of zero. *)
Definition tight_config : Config :=
  {| totalThreads := 2; sleep := 100%N; maxRetry := 2; defaultTimeout := 600000%N;
     retryDelay := 1000%N; globalRetryLimit := 0; logLevel := LInfo;
     killSignal := SIGTERM; hooks := all_hooks |}.

Lemma global_ceiling_halts_witness :
  let w := run (new_manager tight_config)
               [CallSetTasks [task_of "a"; task_of "b"]; CallStart] in
  let p := {| pid := 0; owner := FlatSlot 0; pidx := 0; ptask := task_of "a";
              pout := ""; perr := "" |} in
  let w' := on_close 0 (Some 1%Z) None w in
  find_proc 0 (procs w) = Some p ∧
  globalRetryLimit (cfg w) ≤ globalRetryCount w ∧
  isProcessing w' = false ∧
  kills w' = kills w ∧
  children w' = [(1, 1)] ∧
  spawn_count (run w' [LoopWakes; RetryTimerFires; LoopWakes]) = spawn_count w' ∧
  EvKill 1 SIGKILL ∈ trace (stop (Some SIGKILL) w').
Proof.
  intros w p w'.
  assert (find_proc 0 (procs w) = Some p) as Hp by (vm_compute; reflexivity).
  assert (globalRetryLimit (cfg w) ≤ globalRetryCount w) as Hlim by (vm_compute; lia).
  destruct (global_ceiling_halts w 0 0 p (Some 1%Z) None Hp eq_refl eq_refl Hlim)
    as (_ & Hflag & Hkills & Hch & _ & Hrun & Hstop).
  split_and!; [exact Hp | exact Hlim | exact Hflag | exact Hkills | exact Hch | |].
  - apply Hrun. repeat constructor; intros [H|H]; discriminate H.
  - apply (Hstop SIGKILL 1 1). rewrite Hch. vm_compute. left.
Defined.

(** ** How the set of live children evolves *)

Lemma append_empty_r (s : string) : String.append s "" = s.
Proof.
  induction s as [|a s IH]; [done|].
  change (String a (String.append s "") = String a s). by rewrite IH.
Qed.

Lemma append_assoc (s1 s2 s3 : string) :
  String.append (String.append s1 s2) s3 = String.append s1 (String.append s2 s3).
Proof.
  induction s1 as [|a s1 IH]; [done|].
  change (String a (String.append (String.append s1 s2) s3) =
          String a (String.append s1 (String.append s2 s3))).
  by rewrite IH.
Qed.

(** Every live child has a pid below the counter. *)
Definition pids_fresh (w : World) : Prop := ∀ p, p ∈ procs w → pid p < nextPid w.

(** [w'] has the children of [w] and newly spawned ones, with fresh pids and
    no output yet. *)
Definition extends (w w' : World) : Prop :=
  nextPid w ≤ nextPid w' ∧
  ∃ new, procs w' = procs w ++ new ∧
         ∀ p, p ∈ new → nextPid w ≤ pid p < nextPid w' ∧ pout p = ""%string ∧ perr p = ""%string.

Lemma extends_refl (w : World) : extends w w.
Proof.
  split; [done|]. exists []. split; [by rewrite app_nil_r|]. by intros p ?%elem_of_nil.
Qed.

Lemma extends_same (w w' : World) :
  procs w' = procs w → nextPid w' = nextPid w → extends w w'.
Proof.
  intros Hp Hn. split; [lia|]. exists []. split; [by rewrite app_nil_r|].
  by intros p ?%elem_of_nil.
Qed.

Lemma extends_trans (w1 w2 w3 : World) : extends w1 w2 → extends w2 w3 → extends w1 w3.
Proof.
  intros [H1 (n1 & E1 & F1)] [H2 (n2 & E2 & F2)]. split; [lia|].
  exists (n1 ++ n2). split; [by rewrite E2, E1, app_assoc|].
  intros p [Hp|Hp]%elem_of_app.
  - destruct (F1 p Hp) as (? & ? & ?). split_and!; [lia | lia | done | done].
  - destruct (F2 p Hp) as (? & ? & ?). split_and!; [lia | lia | done | done].
Qed.

Lemma extends_fresh (w w' : World) : extends w w' → pids_fresh w → pids_fresh w'.
Proof.
  intros [H1 (new & E & F)] Hf p. rewrite E. intros [Hp|Hp]%elem_of_app.
  - specialize (Hf p Hp). lia.
  - destruct (F p Hp). lia.
Qed.

Lemma assign_extends t i task w : extends w (assign t i task w).
Proof.
  unfold assign. split; cbn; [lia|]. eexists. split; [done|].
  intros p ->%list_elem_of_singleton. cbn. split_and!; [lia | lia | done | done].
Qed.

Lemma dispatch_extends t w : extends w (dispatch t w).
Proof.
  unfold dispatch. repeat case_match; try apply extends_refl. apply assign_extends.
Qed.

Lemma runSingle_iter_extends w : extends w (runSingle_iter w).
Proof.
  unfold runSingle_iter, dispatch_all. repeat case_match; try by apply extends_same.
  apply foldl_invariant.
  - intros a t Ha. eapply extends_trans; [exact Ha | apply dispatch_extends].
  - by apply extends_same.
Qed.

Lemma lane_resume_extends l w : extends w (lane_resume l w).
Proof.
  unfold lane_resume, runSingleTask. repeat case_match; try by apply extends_same.
  split; cbn; [lia|]. eexists. split; [done|].
  intros p ->%list_elem_of_singleton. cbn. split_and!; [lia | lia | done | done].
Qed.

Lemma groups_settle_extends run w : extends w (groups_settle run w).
Proof. unfold groups_settle. by repeat case_match; apply extends_same. Qed.

Lemma runGroups_extends w : extends w (runGroups w).
Proof.
  unfold runGroups. eapply extends_trans; [|apply groups_settle_extends].
  apply start_lanes_invariant.
  - intros l a Ha. eapply extends_trans; [exact Ha | apply lane_resume_extends].
  - by apply extends_same.
Qed.

Lemma close_flat_extends p t code signal w : extends w (close_flat p t code signal w).
Proof. unfold close_flat, retry_policy. by repeat case_match; apply extends_same. Qed.

Lemma close_group_extends p run gIdx code signal w :
  extends w (close_group p run gIdx code signal w).
Proof.
  unfold close_group, resolve_lane. repeat case_match; try by apply extends_same.
  all: eapply extends_trans; [|apply groups_settle_extends];
       eapply extends_trans; [|apply lane_resume_extends]; by apply extends_same.
Qed.

(** A step other than a data or close event only adds children. *)
Definition feeds (o : Op) : Prop :=
  match o with
  | StdoutData _ _ | StderrData _ _ | ChildCloses _ _ _ => True
  | _ => False
  end.

Global Instance feeds_dec (o : Op) : Decision (feeds o).
Proof. destruct o; apply _. Defined.

Lemma apply_extends w o : ¬ feeds o → extends w (apply w o).
Proof.
  intros Ho. destruct o; simpl in *; try done; try by apply extends_same.
  - unfold start, run_installed. repeat case_match; simpl; try by apply extends_same.
    + eapply extends_trans; [|apply runGroups_extends]. by apply extends_same.
    + eapply extends_trans; [|apply runSingle_iter_extends]. by apply extends_same.
  - unfold stopTask, kill_child. by repeat case_match; apply extends_same.
  - unfold continue. case_match; [apply extends_refl|].
    eapply extends_trans; [|apply runSingle_iter_extends]. by apply extends_same.
  - unfold cancelTask. by repeat case_match; apply extends_same.
  - unfold on_wake. case_match; [apply extends_refl | apply runSingle_iter_extends].
  - unfold on_retry_timer. repeat case_match; try by apply extends_same.
    eapply extends_trans; [|apply runSingle_iter_extends]. by apply extends_same.
  - unfold on_deadline, kill_overdue. by repeat case_match; apply extends_same.
Qed.

Lemma on_close_extends q code signal w :
  extends (upd_procs (remove_proc q) w) (on_close q code signal w).
Proof.
  unfold on_close. destruct (find_proc q (procs w)) as [p|] eqn:Hp.
  - destruct (owner p); [apply close_flat_extends | apply close_group_extends].
  - apply extends_same; [|done]. cbn. unfold remove_proc.
    clear -Hp. induction (procs w) as [|x l IH]; [done|].
    unfold find_proc in Hp. fold find_proc in Hp. case_decide; [done|].
    rewrite filter_cons_True by done. f_equal. by apply IH.
Qed.

Lemma find_proc_None q l : find_proc q l = None ↔ ∀ p, p ∈ l → pid p ≠ q.
Proof.
  induction l as [|x l IH]; unfold find_proc; fold find_proc.
  - split; [by intros _ p ?%elem_of_nil | done].
  - case_decide as Hx.
    + split; [done|]. intros H. destruct (H x); [left | done].
    + rewrite IH. split.
      * intros H p [->|Hp]%elem_of_cons; auto.
      * intros H p Hp. apply H. by right.
Qed.

Lemma find_proc_Some q l p : find_proc q l = Some p → p ∈ l ∧ pid p = q.
Proof.
  induction l as [|x l IH]; unfold find_proc; fold find_proc; [done|].
  case_decide as Hx.
  - intros [= <-]. split; [left | done].
  - intros [H1 H2]%IH. split; [by right | done].
Qed.

Lemma find_proc_app q l1 l2 :
  find_proc q (l1 ++ l2) =
  match find_proc q l1 with Some p => Some p | None => find_proc q l2 end.
Proof.
  induction l1 as [|x l IH]; [done|]. rewrite <- app_comm_cons.
  unfold find_proc; fold find_proc. by case_decide.
Qed.

Lemma find_proc_remove q q' l :
  find_proc q (remove_proc q' l) = if decide (q = q') then None else find_proc q l.
Proof.
  unfold remove_proc. induction l as [|x l IH].
  - by case_decide.
  - destruct (decide (pid x = q')) as [Hx|Hx].
    + rewrite filter_cons_False by naive_solver. rewrite IH.
      unfold find_proc; fold find_proc. repeat case_decide; congruence.
    + rewrite filter_cons_True by done.
      unfold find_proc; fold find_proc. rewrite IH. repeat case_decide; congruence.
Qed.

Lemma find_proc_update q q' f l :
  (∀ p, pid (f p) = pid p) →
  find_proc q (update_proc q' f l) =
  if decide (q = q') then f <$> find_proc q l else find_proc q l.
Proof.
  intros Hf. unfold update_proc. induction l as [|x l IH].
  - by case_decide.
  - rewrite fmap_cons. unfold find_proc; fold find_proc. rewrite IH.
    repeat case_decide; try rewrite Hf in *; simplify_eq; try done.
Qed.

(** ** Captured output *)

(** The chunk that step [o] delivers to the stdout (stderr) listener of the
    child [q], if that child is alive in [w]. *)
Definition out_chunk (q : nat) (w : World) (o : Op) : string :=
  match o, find_proc q (procs w) with
  | StdoutData q' data, Some _ => if decide (q' = q) then data else ""%string
  | _, _ => ""%string
  end.

Definition err_chunk (q : nat) (w : World) (o : Op) : string :=
  match o, find_proc q (procs w) with
  | StderrData q' data, Some _ => if decide (q' = q) then data else ""%string
  | _, _ => ""%string
  end.

(** Everything the child [q] wrote on stdout (stderr) while [ops] ran from
    [w]. *)
Fixpoint stdout_of (q : nat) (w : World) (ops : list Op) : string :=
  match ops with
  | [] => ""%string
  | o :: ops' => String.append (out_chunk q w o) (stdout_of q (apply w o) ops')
  end.

Fixpoint stderr_of (q : nat) (w : World) (ops : list Op) : string :=
  match ops with
  | [] => ""%string
  | o :: ops' => String.append (err_chunk q w o) (stderr_of q (apply w o) ops')
  end.

(** The text arguments of a hook call. *)
Definition texts (e : Event) : list string :=
  match e with
  | EvAfterRunTask _ _ _ _ _ _ stdout stderr => [stdout; stderr]
  | EvTaskError _ _ _ _ _ stderr => [stderr]
  | EvTaskStdout _ _ _ data | EvTaskStderr _ _ _ data => [data]
  | _ => []
  end.

Definition is_task_error (e : Event) : bool :=
  match e with
  | EvTaskError _ _ _ _ _ _ => true
  | _ => false
  end.

Lemma apply_pids_fresh w o : pids_fresh w → pids_fresh (apply w o).
Proof.
  intros Hf. destruct (decide (feeds o)) as [Ho|Ho].
  - destruct o; simpl in *; try done.
    + unfold on_stdout. destruct (find_proc _ _) as [p'|]; [|done]. intros p. cbn.
      unfold update_proc.
      intros (p0 & -> & Hp0)%list_elem_of_fmap. specialize (Hf p0 Hp0). by case_decide.
    + unfold on_stderr. destruct (find_proc _ _) as [p'|]; [|done]. intros p. cbn.
      unfold update_proc.
      intros (p0 & -> & Hp0)%list_elem_of_fmap. specialize (Hf p0 Hp0). by case_decide.
    + eapply extends_fresh; [apply on_close_extends|].
      intros p. cbn. unfold remove_proc. intros [_ Hp]%list_elem_of_filter. by apply Hf.
  - eapply extends_fresh; [by apply apply_extends | done].
Qed.

Lemma apply_nextPid_mono w o : nextPid w ≤ nextPid (apply w o).
Proof.
  destruct (decide (feeds o)) as [Ho|Ho].
  - destruct o; simpl in *; try done.
    + unfold on_stdout. by case_match.
    + unfold on_stderr. by case_match.
    + by destruct (on_close_extends pid0 code signal w) as [H _].
  - by destruct (apply_extends w o Ho) as [H _].
Qed.

Lemma run_pids_fresh ops w : pids_fresh w → pids_fresh (run w ops).
Proof. apply run_invariant with (Q := λ _, True); [|by apply Forall_true]. intros. by apply apply_pids_fresh. Qed.

(** One step, seen from the child [q]: it was alive and received at most one
    chunk, or it has just been spawned. *)
Lemma output_step (q : nat) (w : World) (o : Op) (p1 : Proc) :
  pids_fresh w →
  find_proc q (procs (apply w o)) = Some p1 →
  (∃ p0, find_proc q (procs w) = Some p0 ∧
         pout p1 = String.append (pout p0) (out_chunk q w o) ∧
         perr p1 = String.append (perr p0) (err_chunk q w o) ∧
         owner p1 = owner p0 ∧ pidx p1 = pidx p0 ∧ ptask p1 = ptask p0) ∨
  (find_proc q (procs w) = None ∧ nextPid w ≤ q ∧ pout p1 = ""%string ∧ perr p1 = ""%string).
Proof.
  intros Hf H1.
  assert (∀ w0, extends w0 (apply w o) → out_chunk q w o = ""%string →
     err_chunk q w o = ""%string → nextPid w0 = nextPid w →
     (∀ p, find_proc q (procs w0) = Some p → find_proc q (procs w) = Some p) →
     (find_proc q (procs w0) = None → find_proc q (procs w) = None ∨ False) →
     (∃ p0, find_proc q (procs w) = Some p0 ∧
         pout p1 = String.append (pout p0) (out_chunk q w o) ∧
         perr p1 = String.append (perr p0) (err_chunk q w o) ∧
         owner p1 = owner p0 ∧ pidx p1 = pidx p0 ∧ ptask p1 = ptask p0) ∨
     (find_proc q (procs w) = None ∧ nextPid w ≤ q ∧ pout p1 = ""%string ∧ perr p1 = ""%string))
    as Hext.
  { intros w0 [Hn (new & E & F)] Ho He Hpid Hsome Hnone.
    rewrite E, find_proc_app in H1. destruct (find_proc q (procs w0)) as [p0|] eqn:E0.
    - injection H1 as <-. left. exists p0. rewrite Ho, He, !append_empty_r. by split_and!; auto.
    - apply find_proc_Some in H1 as [Hin Hq]. destruct (F p1 Hin) as (? & ? & ?).
      destruct (Hnone eq_refl) as [Hw|[]]. right. split_and!; [done | lia | done | done]. }
  destruct (decide (feeds o)) as [Ho|Ho].
  - destruct o; try done; clear Ho; simpl in H1.
    + clear Hext. unfold on_stdout in H1. unfold out_chunk, err_chunk.
      destruct (decide (pid0 = q)) as [->|Hne].
      * destruct (find_proc q (procs w)) as [p|] eqn:Ep; [|congruence].
        cbn in H1. rewrite find_proc_update, decide_True, Ep in H1 by done.
        injection H1 as <-. left. exists p. cbn. rewrite append_empty_r. by split_and!.
      * assert (find_proc q (procs w) = Some p1) as E1.
        { destruct (find_proc pid0 (procs w)); [|done].
          cbn in H1. by rewrite find_proc_update, decide_False in H1 by done. }
        left. exists p1. rewrite E1, !append_empty_r. by split_and!.
    + clear Hext. unfold on_stderr in H1. unfold out_chunk, err_chunk.
      destruct (decide (pid0 = q)) as [->|Hne].
      * destruct (find_proc q (procs w)) as [p|] eqn:Ep; [|congruence].
        cbn in H1. rewrite find_proc_update, decide_True, Ep in H1 by done.
        injection H1 as <-. left. exists p. cbn. rewrite append_empty_r. by split_and!.
      * assert (find_proc q (procs w) = Some p1) as E1.
        { destruct (find_proc pid0 (procs w)); [|done].
          cbn in H1. by rewrite find_proc_update, decide_False in H1 by done. }
        left. exists p1. rewrite E1, !append_empty_r. by split_and!.
    + apply (Hext _ (on_close_extends pid0 code signal w)).
      * done.
      * done.
      * done.
      * intros p. cbn. rewrite find_proc_remove. by case_decide.
      * cbn. rewrite find_proc_remove. case_decide as Hq; [|by left].
        intros _. subst pid0.
        destruct (find_proc q (procs w)) as [p|] eqn:Ep; [|by left]. exfalso.
        destruct (on_close_extends q code signal w) as [Hn (new & E & F)].
        cbn in E. rewrite E, find_proc_app, find_proc_remove, decide_True in H1 by done.
        apply find_proc_Some in H1 as [Hin Hq]. destruct (F p1 Hin) as (Hlo & _).
        cbn in Hlo. apply find_proc_Some in Ep as [Hp Hpq]. specialize (Hf p Hp). lia.
  - apply (Hext w (apply_extends w o Ho)); auto.
    + unfold out_chunk. by destruct o.
    + unfold err_chunk. by destruct o.
Qed.

Lemma dead_forever (q : nat) (ops : list Op) (w : World) :
  pids_fresh w → q < nextPid w → find_proc q (procs w) = None →
  find_proc q (procs (run w ops)) = None.
Proof.
  revert w. induction ops as [|o ops IH]; intros w Hf Hq Hn; simpl; [done|].
  apply IH.
  - by apply apply_pids_fresh.
  - pose proof (apply_nextPid_mono w o). lia.
  - destruct (find_proc q (procs (apply w o))) as [p1|] eqn:E; [|done].
    destruct (output_step q w o p1 Hf E) as [(p0 & H0 & _)|(_ & Hge & _)]; [congruence | lia].
Qed.

Definition text_so_far (f : Proc → string) (q : nat) (w : World) : string :=
  match find_proc q (procs w) with
  | Some p => f p
  | None => ""%string
  end.

(** The text a live child's listeners hold is what the child has emitted. *)
Lemma output_accumulates (q : nat) (ops : list Op) (w : World) (p : Proc) :
  pids_fresh w →
  find_proc q (procs (run w ops)) = Some p →
  pout p = String.append (text_so_far pout q w) (stdout_of q w ops) ∧
  perr p = String.append (text_so_far perr q w) (stderr_of q w ops).
Proof.
  revert w. induction ops as [|o ops IH]; intros w Hf Hp; simpl in *.
  - unfold text_so_far. rewrite Hp. by rewrite !append_empty_r.
  - destruct (IH _ (apply_pids_fresh w o Hf) Hp) as [IHo IHe].
    rewrite IHo, IHe, <- !append_assoc.
    assert (text_so_far pout q (apply w o) = String.append (text_so_far pout q w) (out_chunk q w o) ∧
            text_so_far perr q (apply w o) = String.append (text_so_far perr q w) (err_chunk q w o))
      as [-> ->]; [|done].
    unfold text_so_far at 1 3.
    destruct (find_proc q (procs (apply w o))) as [p1|] eqn:E.
    + unfold text_so_far.
      destruct (output_step q w o p1 Hf E) as [(p0 & H0 & Ho & He & _)|(H0 & _ & Ho & He)];
        rewrite H0.
      * done.
      * unfold out_chunk, err_chunk. rewrite H0. by destruct o.
    + destruct (decide (q < nextPid (apply w o))) as [Hlt|Hge].
      * by rewrite (dead_forever q ops _ (apply_pids_fresh w o Hf) Hlt E) in Hp.
      * assert (find_proc q (procs w) = None) as H0.
        { apply find_proc_None. intros p0 Hp0 Hq. specialize (Hf p0 Hp0).
          pose proof (apply_nextPid_mono w o). lia. }
        unfold text_so_far, out_chunk, err_chunk. rewrite H0. by destruct o.
Qed.

Lemma dispatch_cfg t w : cfg (dispatch t w) = cfg w.
Proof. unfold dispatch. by repeat case_match. Qed.

Lemma runSingle_iter_cfg w : cfg (runSingle_iter w) = cfg w.
Proof.
  unfold runSingle_iter, dispatch_all. repeat case_match; try done.
  apply (foldl_invariant (λ w', cfg w' = cfg w)); [|done].
  intros a t <-. apply dispatch_cfg.
Qed.

Lemma runSingle_cfg w : cfg (runSingle w) = cfg w.
Proof. unfold runSingle. by rewrite runSingle_iter_cfg. Qed.

Lemma flat_cfg (w w' : World) : flat_view w' = flat_view w → cfg w' = cfg w.
Proof. intros H. by flat_eqs H. Qed.

Lemma apply_cfg w o : cfg (apply w o) = cfg w.
Proof.
  destruct o; simpl; try done.
  - unfold start, run_installed. repeat case_match; simpl; try done.
    + by rewrite (flat_cfg _ _ (runGroups_flat _)).
    + by rewrite runSingle_cfg.
  - unfold stopTask, kill_child. by repeat case_match.
  - unfold continue. case_match; [done|]. by rewrite runSingle_cfg.
  - unfold cancelTask. by repeat case_match.
  - unfold on_wake. case_match; [done|]. apply runSingle_iter_cfg.
  - unfold on_retry_timer. repeat case_match; try done. by rewrite runSingle_cfg.
  - unfold on_deadline, kill_overdue. by repeat case_match.
  - unfold on_stdout. by repeat case_match.
  - unfold on_stderr. by repeat case_match.
  - unfold on_close. repeat case_match; try done.
    + unfold close_flat, retry_policy. by repeat case_match.
    + by rewrite (flat_cfg _ _ (close_group_flat _ _ _ _ _ _)).
Qed.

Lemma run_cfg ops w : cfg (run w ops) = cfg w.
Proof.
  revert w. induction ops as [|o ops IH]; intros w; simpl; [done|].
  by rewrite IH, apply_cfg.
Qed.

(** C9, as stated, fails: the task-error hook is called with the captured
    stderr only; the stdout text is not among its arguments. *)
Lemma error_hook_counterexample :
  let ops := [CallSetTasks [task_of "a"]; CallStart; StdoutData 0 "out";
              StderrData 0 "err"; ChildCloses 0 (Some 1%Z) None] in
  let w := run (new_manager retry_config) ops in
  stdout_of 0 (new_manager retry_config) ops = "out"%string ∧
  EvTaskError 0 0 (task_of "a") (Some 1%Z) None "err" ∈ trace w ∧
  ∀ e, e ∈ trace w → is_task_error e = true → "out"%string ∉ texts e.
Proof.
  vm_compute. split_and!; [done | repeat constructor |].
  intros e He Herr.
  repeat (apply elem_of_cons in He as [->|He]; [try discriminate Herr|]).
  - intros [[=]|H%elem_of_nil]%elem_of_cons. done.
  - by apply elem_of_nil in He.
Qed.

(** C9 (amended): when a flat-mode child closes, the after-run hook receives
    the whole stdout text and the whole stderr text the child has emitted,
    and on a nonzero (or null) exit code the task-error hook receives the
    whole stderr text, and no stdout text; the chunks were also handed to the
    chunk hooks as they arrived. *)
Theorem close_reports_output (c : Config) (ops : list Op) (q t : nat) (p : Proc)
    (code : option Z) (signal : option Signal) :
  let w0 := new_manager c in
  let w := run w0 ops in
  find_proc q (procs w) = Some p →
  owner p = FlatSlot t →
  (∃ evs, trace (on_close q code signal w) = trace w ++ evs ∧
     (afterRunTask (hooks c) = true →
      EvAfterRunTask q t (pidx p) (ptask p) code signal
        (stdout_of q w0 ops) (stderr_of q w0 ops) ∈ evs) ∧
     (onTaskError (hooks c) = true → is_zero code = false →
      EvTaskError t (pidx p) (ptask p) code signal (stderr_of q w0 ops) ∈ evs) ∧
     (∀ e, e ∈ evs → is_task_error e = true → texts e = [stderr_of q w0 ops])) ∧
  (∀ data, onTaskStdout (hooks c) = true →
     trace (on_stdout q data w) = trace w ++ [EvTaskStdout t (pidx p) (ptask p) data]) ∧
  (∀ data, onTaskStderr (hooks c) = true →
     trace (on_stderr q data w) = trace w ++ [EvTaskStderr t (pidx p) (ptask p) data]).
Proof.
  intros w0 w Hp Ho.
  assert (cfg w = c) as Hc by (subst w; by rewrite run_cfg).
  assert (pids_fresh w0) as Hf by (by intros x ?%elem_of_nil).
  destruct (output_accumulates q ops w0 p Hf Hp) as [Hout Herr].
  change (text_so_far pout q w0) with ""%string in Hout.
  change (text_so_far perr q w0) with ""%string in Herr.
  change (String.append "" ?s) with s in Hout, Herr.
  apply find_proc_Some in Hp as Hpid. destruct Hpid as [_ Hpid].
  split_and!.
  - unfold on_close. rewrite Hp, Ho. unfold close_flat, retry_policy, release.
    rewrite <- Hout, <- Herr, <- Hpid.
    destruct (is_zero code) eqn:Hz; [|case_match; [|case_match]];
      cbn; rewrite Hc, <- !app_assoc; (eexists; split; [reflexivity|]); split_and!.
    all: try (intros ->; apply elem_of_app; left; apply list_elem_of_singleton; reflexivity).
    all: try (intros -> Hz'; try done; rewrite !elem_of_app; right; right; left;
              apply list_elem_of_singleton; reflexivity).
    all: intros e He Hte; repeat (apply elem_of_app in He as [He|He]);
         repeat case_match; try (by apply elem_of_nil in He);
         apply list_elem_of_singleton in He as ->; try discriminate Hte; done.
  - intros data Hh. unfold on_stdout. rewrite Hp. cbn. by rewrite Hc, Hh, Ho.
  - intros data Hh. unfold on_stderr. rewrite Hp. cbn. by rewrite Hc, Hh, Ho.
Qed.

Lemma close_reports_output_witness :
  let ops := [CallSetTasks [task_of "a"]; CallStart; StdoutData 0 "out"; StderrData 0 "err"] in
  let w := run (new_manager retry_config) ops in
  let p := {| pid := 0; owner := FlatSlot 0; pidx := 0; ptask := task_of "a";
              pout := "out"; perr := "err" |} in
  find_proc 0 (procs w) = Some p ∧
  EvAfterRunTask 0 0 0 (task_of "a") (Some 1%Z) None "out" "err"
    ∈ trace (on_close 0 (Some 1%Z) None w) ∧
  EvTaskError 0 0 (task_of "a") (Some 1%Z) None "err"
    ∈ trace (on_close 0 (Some 1%Z) None w).
Proof.
  intros ops w p.
  assert (find_proc 0 (procs w) = Some p) as Hp by (vm_compute; reflexivity).
  destruct (close_reports_output retry_config ops 0 0 p (Some 1%Z) None Hp eq_refl)
    as [(evs & Htr & Hafter & Herror & _) _].
  assert (stdout_of 0 (new_manager retry_config) ops = "out"%string) as Eo
    by (vm_compute; reflexivity).
  assert (stderr_of 0 (new_manager retry_config) ops = "err"%string) as Ee
    by (vm_compute; reflexivity).
  rewrite Eo, Ee in Hafter. rewrite Ee in Herror.
  split; [exact Hp|]. unfold w. rewrite Htr. split; apply elem_of_app; right.
  - exact (Hafter eq_refl).
  - exact (Herror eq_refl eq_refl).
Defined.

(** ** A task that always fails *)

Lemma js_get_replicate_null (n t : nat) : t < n → js_get (replicate n (@Null nat)) t = Null.
Proof. intros Ht. unfold js_get. by rewrite lookup_replicate_2. Qed.

Lemma js_set_claim_first (n i : nat) :
  1 ≤ n → js_set (replicate n Null) 0 (Val i) = Val i :: replicate (n - 1) (@Null nat).
Proof.
  intros Hn. unfold js_set. rewrite length_replicate, decide_True by lia.
  destruct n as [|n]; [lia|]. simpl. by rewrite Nat.sub_0_r.
Qed.

Lemma js_set_free_first (n i : nat) :
  1 ≤ n → js_set (Val i :: replicate (n - 1) Null) 0 Null = replicate n (@Null nat).
Proof.
  intros Hn. unfold js_set. rewrite decide_True by (simpl; lia).
  destruct n as [|n]; [lia|]. simpl. by rewrite Nat.sub_0_r.
Qed.

Lemma js_get_busy_first (n i t : nat) :
  js_get (Val i :: replicate (n - 1) (@Null nat)) t ≠ Null → t = 0 ∨ n ≤ t.
Proof.
  intros H. destruct t as [|t]; [by left|]. right.
  destruct (decide (S t < n)) as [Hlt|]; [|lia]. destruct H.
  unfold js_get. simpl. by rewrite lookup_replicate_2 by lia.
Qed.

Lemma foldl_fixed {A B} (f : A → B → A) (l : list B) (a : A) :
  (∀ b, f a b = a) → foldl f a l = a.
Proof. intros H. induction l as [|b l IH]; simpl; [done|]. by rewrite H. Qed.

Lemma filter_all_out (k : nat) (l : list Timer) :
  (∀ tm, tm ∈ l → tid tm = k) → filter (λ tm, tid tm ≠ k) l = [].
Proof.
  intros H. induction l as [|x l IH]; [done|].
  rewrite filter_cons_False; [apply IH; intros; apply H; by right|].
  intros Hx. apply Hx, H. by left.
Qed.

Section AlwaysFailing.
Variable c : Config.
Variable task : ITask.
Hypothesis Hretry : maxRetry c = 2.
Hypothesis Hslots : 1 ≤ totalThreads c.
Hypothesis Hceiling : 3 ≤ globalRetryLimit c.
#[local] Set Default Proof Using "Hretry Hslots Hceiling".

(** The single task has failed [k] times so far. *)
Definition counted (k : nat) (w : World) : Prop :=
  cfg w = c ∧ tasks w = [Val task] ∧ taskGroups w = [] ∧ isPaused w = false ∧
  default 0 (retryCount w !! 0) = k ∧ globalRetryCount w = k.

(** Attempt [k + 1] is running, in slot 0, as the child of pid [k]. *)
Definition flying (k : nat) (w : World) : Prop :=
  counted k w ∧ k ≤ 2 ∧
  threads w = Val 0 :: replicate (totalThreads c - 1) Null ∧
  processing w = [0] ∧ processed w = [] ∧
  (∃ out err, procs w = [{| pid := k; owner := FlatSlot 0; pidx := 0; ptask := task;
                            pout := out; perr := err |}]) ∧
  children w = [(0, k)] ∧ timeouts w !! 0 = Some k ∧
  (∀ tm, tm ∈ timers w → tid tm = k) ∧
  nextPid w = S k ∧ nextTimer w = S k ∧
  isProcessing w = true ∧ 1 ≤ loops w.

(** After [k] failures the task waits for a slot. *)
Definition idle (k : nat) (w : World) : Prop :=
  counted k w ∧ k ≤ 2 ∧
  threads w = replicate (totalThreads c) Null ∧
  processing w = [] ∧ processed w = [] ∧ procs w = [] ∧
  children w = [] ∧ timers w = [] ∧
  nextPid w = k ∧ nextTimer w = k ∧
  isProcessing w = true ∧ 1 ≤ loops w ∧ taskStatus w !! 0 ≠ Some Cancelled.

(** The third failure was the last one. *)
Definition given_up (w : World) : Prop :=
  counted 3 w ∧
  threads w = replicate (totalThreads c) Null ∧
  processing w = [] ∧ processed w = [0] ∧ procs w = [] ∧
  children w = [] ∧ timers w = [] ∧
  nextPid w = 3 ∧ taskStatus w !! 0 = Some Failed.

Definition phase (w : World) : Prop :=
  (∃ k, flying k w) ∨ (∃ k, idle k w) ∨ given_up w.

Lemma flying_dispatch k t w : flying k w → dispatch t w = w.
Proof.
  intros ((Hcfg & Htasks & _) & _ & Hthreads & Hproc & _).
  unfold dispatch. rewrite Hthreads, Htasks.
  destruct (js_get (Val 0 :: replicate (totalThreads c - 1) Null) t) eqn:Et; try done.
  unfold findIndex. simpl.
  destruct (eligible w (Val task) 0) eqn:Ee; [|done].
  apply eligible_true in Ee as (_ & Hn & _). rewrite Hproc in Hn.
  destruct Hn. by left.
Qed.

Lemma flying_dispatch_all k w : flying k w → dispatch_all w = w.
Proof.
  intros H. unfold dispatch_all. apply foldl_fixed. intros t. by eapply flying_dispatch.
Qed.

Lemma idle_dispatch_all k w : idle k w → flying k (dispatch_all w).
Proof.
  intros ((Hcfg & Htasks & Hgroups & Hpaused & Hcount & Hglobal) & Hk & Hthreads &
          Hproc & Hdone & Hprocs & Hch & Htimers & Hpid & Htimer & Hrun & Hloops & Hst).
  assert (flying k (dispatch 0 w)) as Hfly.
  { unfold dispatch. rewrite Hthreads, js_get_replicate_null, Htasks by lia.
    assert (findIndex (eligible w) [Val task] = Some 0) as ->.
    { unfold findIndex. simpl.
      assert (eligible w (Val task) 0 = true) as ->; [|done].
      apply eligible_true. rewrite Hproc, Hdone.
      split_and!; [by eexists | apply not_elem_of_nil | apply not_elem_of_nil | done]. }
    change (js_get [Val task] 0) with (Val task).
    unfold flying, counted, assign. cbn.
    rewrite Hcfg, Htasks, Hgroups, Hpaused, Hcount, Hglobal, Hthreads, Hproc, Hdone,
      Hprocs, Hch, Htimers, Hpid, Htimer, Hrun, js_set_claim_first by done.
    split_and!; try done.
    - by eexists _, _.
    - apply lookup_insert_eq.
    - by intros tm ->%list_elem_of_singleton. }
  unfold dispatch_all. rewrite Hcfg.
  assert (∃ n, totalThreads c = S n) as [n En] by (exists (totalThreads c - 1); lia).
  rewrite En. change (seq 0 (S n)) with (0 :: seq 1 n). simpl.
  rewrite foldl_fixed; [done|]. intros t. by eapply flying_dispatch.
Qed.

Lemma flying_iter k w : flying k w → flying k (runSingle_iter w).
Proof.
  intros H. pose proof H as ((_ & Htasks & _ & Hpaused & _) & _ & _ & _ & Hdone & _ & _ & _ &
                             _ & _ & _ & Hrun & _).
  unfold runSingle_iter. rewrite Hrun, Hdone, Htasks, Hpaused. simpl.
  by rewrite (flying_dispatch_all k).
Qed.

Lemma idle_iter k w : idle k w → flying k (runSingle_iter w).
Proof.
  intros H. pose proof H as ((_ & Htasks & _ & Hpaused & _) & _ & _ & _ & Hdone & _ & _ & _ &
                             _ & _ & Hrun & _).
  unfold runSingle_iter. rewrite Hrun, Hdone, Htasks, Hpaused. simpl.
  by apply idle_dispatch_all.
Qed.

Lemma given_up_iter w : given_up w → given_up (runSingle_iter w).
Proof.
  intros H. pose proof H as ((_ & Htasks & _) & _ & _ & Hdone & _).
  unfold runSingle_iter. by rewrite Hdone, Htasks, andb_false_r.
Qed.

(** The environment of the claim: the loop wakes, timers fire, the child
    writes output, and every exit is a failure. *)
Definition failing_env (o : Op) : Prop :=
  match o with
  | LoopWakes | RetryTimerFires | DeadlineFires _ | StdoutData _ _ | StderrData _ _ => True
  | ChildCloses _ code _ => is_zero code = false
  | _ => False
  end.

Lemma flying_close k q code signal w :
  flying k w → is_zero code = false →
  (q ≠ k ∧ on_close q code signal w = w) ∨
  (q = k ∧ if decide (k < 2) then idle (S k) (on_close q code signal w)
           else given_up (on_close q code signal w)).
Proof.
  intros ((Hcfg & Htasks & Hgroups & Hpaused & Hcount & Hglobal) & Hk & Hthreads &
          Hproc & Hdone & (out & err & Hprocs) & Hch & Hto & Htimers & Hpid & Htimer &
          Hrun & Hloops) Hz.
  unfold on_close. rewrite Hprocs. unfold find_proc. simpl.
  destruct (decide (k = q)) as [<-|Hq]; [|left; by split]. right. split; [done|].
  assert (remove_proc k (procs w) = []) as Hrm.
  { rewrite Hprocs. unfold remove_proc. by rewrite filter_cons_False by (simpl; auto). }
  assert (default 0 (<[0:=default 0 (retryCount w !! 0) + 1]> (retryCount w) !! 0) = S k)
    as Hnext by (rewrite lookup_insert_eq; simpl; lia).
  unfold close_flat, retry_policy, release. rewrite Hz. cbn.
  rewrite Hcfg, Hretry, Hglobal, Hnext.
  case_decide as Hlt.
  - assert ((S k <=? 2) && (S k <=? globalRetryLimit c) = true) as ->.
    { apply andb_true_iff. split; apply Nat.leb_le; lia. }
    unfold idle, counted. cbn.
    rewrite Hcfg, Htasks, Hgroups, Hpaused, Hglobal, Hthreads, Hproc, Hdone, Hch, Hto,
      Hpid, Htimer, Hrun, Hrm, Hnext, js_set_free_first, (filter_all_out k) by done.
    split_and!; try done; try lia.
    by rewrite lookup_insert_eq.
  - assert (k = 2) as -> by lia.
    assert ((3 <=? 2) && (3 <=? globalRetryLimit c) = false) as -> by done.
    assert (globalRetryLimit c <? 3 = false) as -> by (apply Nat.ltb_ge; lia).
    unfold given_up, counted. cbn.
    rewrite Hcfg, Htasks, Hgroups, Hpaused, Hglobal, Hthreads, Hproc, Hdone, Hch, Hto,
      Hpid, Hrm, Hnext, js_set_free_first, (filter_all_out 2) by done.
    split_and!; try done.
    by rewrite lookup_insert_eq.
Qed.

Lemma flying_step k w o : failing_env o → flying k w → phase (apply w o).
Proof.
  intros Ho H. destruct o; try done; simpl.
  - left. exists k. unfold on_wake. case_match; [done | by apply flying_iter].
  - left. exists k. unfold on_retry_timer.
    pose proof H as (_ & _ & _ & _ & _ & _ & _ & _ & _ & _ & _ & Hrun & _).
    rewrite Hrun. case_match; [done|]. unfold runSingle. apply flying_iter.
    destruct H as (? & ? & ? & ? & ? & ? & ? & ? & ? & ? & ? & ? & ?).
    unfold flying. cbn. split_and!; try done. lia.
  - left. exists k. unfold on_deadline, kill_overdue.
    pose proof H as (? & ? & ? & ? & ? & ? & ? & ? & Htimers & ? & ? & ? & ?).
    repeat case_match; try done; unfold flying; cbn; split_and!; try done.
    all: intros tm [_ Htm]%list_elem_of_filter; by apply Htimers.
  - left. exists k. unfold on_stdout.
    pose proof H as (? & ? & ? & ? & ? & (out & err & Hprocs) & ? & ? & ? & ? & ? & ? & ?).
    case_match; [|done]. unfold flying. cbn. split_and!; try done.
    rewrite Hprocs. unfold update_proc. simpl. case_decide; by eexists _, _.
  - left. exists k. unfold on_stderr.
    pose proof H as (? & ? & ? & ? & ? & (out & err & Hprocs) & ? & ? & ? & ? & ? & ? & ?).
    case_match; [|done]. unfold flying. cbn. split_and!; try done.
    rewrite Hprocs. unfold update_proc. simpl. case_decide; by eexists _, _.
  - destruct (flying_close k pid0 code signal w H Ho) as [[_ ->]|[_ Hnext]].
    + left. by exists k.
    + case_decide; [right; left; by eexists | by right; right].
Qed.

Lemma idle_wake k w : idle k w → flying k (on_wake w).
Proof.
  intros H. pose proof H as (_ & _ & _ & _ & _ & _ & _ & _ & _ & _ & _ & Hloops & _).
  unfold on_wake. case_match; [lia | by apply idle_iter].
Qed.

Lemma idle_step k w o : failing_env o → idle k w → phase (apply w o).
Proof.
  intros Ho H. destruct o; try done; simpl.
  - pose proof H as (_ & _ & _ & _ & _ & _ & _ & _ & _ & _ & _ & Hloops & _).
    left. exists k. unfold on_wake. case_match; [lia | by apply idle_iter].
  - unfold on_retry_timer.
    pose proof H as (_ & _ & _ & _ & _ & _ & _ & _ & _ & _ & Hrun & _).
    rewrite Hrun. case_match; [right; left; by exists k|].
    left. exists k. unfold runSingle. apply idle_iter.
    destruct H as (? & ? & ? & ? & ? & ? & ? & ? & ? & ? & ? & ? & ?).
    unfold idle. cbn. split_and!; try done. lia.
  - right. left. exists k. unfold on_deadline.
    destruct H as (? & ? & ? & ? & ? & ? & ? & Htimers & ?). by rewrite Htimers.
  - right. left. exists k. unfold on_stdout.
    destruct H as (? & ? & ? & ? & ? & Hprocs & ?). by rewrite Hprocs.
  - right. left. exists k. unfold on_stderr.
    destruct H as (? & ? & ? & ? & ? & Hprocs & ?). by rewrite Hprocs.
  - right. left. exists k. unfold on_close.
    destruct H as (? & ? & ? & ? & ? & Hprocs & ?). by rewrite Hprocs.
Qed.

Lemma given_up_step w o : failing_env o → given_up w → given_up (apply w o).
Proof.
  intros Ho H. destruct o; try done; simpl.
  - unfold on_wake. case_match; [done | by apply given_up_iter].
  - unfold on_retry_timer. repeat case_match; try done.
    unfold runSingle. by apply given_up_iter.
  - unfold on_deadline.
    destruct H as (? & ? & ? & ? & ? & ? & Htimers & ?). by rewrite Htimers.
  - unfold on_stdout. destruct H as (? & ? & ? & ? & Hprocs & ?). by rewrite Hprocs.
  - unfold on_stderr. destruct H as (? & ? & ? & ? & Hprocs & ?). by rewrite Hprocs.
  - unfold on_close. destruct H as (? & ? & ? & ? & Hprocs & ?). by rewrite Hprocs.
Qed.

Lemma phase_step w o : failing_env o → phase w → phase (apply w o).
Proof.
  intros Ho [[k H]|[[k H]|H]].
  - by eapply flying_step.
  - by eapply idle_step.
  - right. right. by apply given_up_step.
Qed.

(** The run: a fresh manager, the one task installed, [start] called. *)
Definition failing_run : World :=
  run (new_manager c) [CallSetTasks [task]; CallStart].

Lemma failing_run_flying : flying 0 failing_run.
Proof.
  unfold failing_run, run. cbn [foldl apply]. unfold start. simpl.
  unfold run_installed. simpl. unfold runSingle. apply idle_iter.
  unfold idle, counted. cbn. split_and!; try done. lia.
Qed.

Lemma phase_counts w :
  phase w → nextPid w ≤ 3 ∧ globalRetryCount w ≤ 3 ∧
  (procs w = [] → processed w = [0] → given_up w).
Proof.
  intros [[k H]|[[k H]|H]].
  - destruct H as ((_ & _ & _ & _ & _ & Hg) & Hk & _ & _ & _ & (out & err & Hprocs) &
                   _ & _ & _ & Hpid & _).
    split_and!; [lia | lia |]. by rewrite Hprocs.
  - destruct H as ((_ & _ & _ & _ & _ & Hg) & Hk & _ & _ & Hdone & _ & _ & _ & Hpid & _).
    split_and!; [lia | lia |]. by rewrite Hdone.
  - pose proof H as ((_ & _ & _ & _ & _ & Hg) & _ & _ & _ & _ & _ & _ & Hpid & _).
    split_and!; [lia | lia | done].
Qed.
End AlwaysFailing.

Lemma from_fresh_spawn_count (c : Config) (ops : list Op) :
  spawn_count (run (new_manager c) ops) = nextPid (run (new_manager c) ops).
Proof.
  pose proof (run_spawn_sync ops (new_manager c)) as H. unfold spawn_sync in H.
  change (nextPid (new_manager c)) with 0 in H.
  change (spawn_count (new_manager c)) with 0 in H. lia.
Qed.

(** C1, as stated, fails: with [maxRetry = 2] the task is attempted three
    times and every failed attempt increments the global counter, which ends
    at 3, not 2. *)
Lemma global_counter_counterexample :
  let w := run (failing_run retry_config (task_of "a"))
               [ChildCloses 0 (Some 1%Z) None; LoopWakes;
                ChildCloses 1 (Some 1%Z) None; LoopWakes;
                ChildCloses 2 (Some 1%Z) None; LoopWakes; RetryTimerFires; LoopWakes] in
  spawn_count w = 3 ∧ taskStatus w !! 0 = Some Failed ∧ processed w = [0] ∧
  globalRetryCount w = 3 ∧ globalRetryCount w ≠ 2.
Proof. vm_compute. by split_and!. Qed.

(** C1 (amended): a flat-mode task whose process always exits with a nonzero
    code, with [maxRetry = 2] and a global retry ceiling of at least 3, is
    attempted exactly 3 times and ends permanently [Failed]; the global retry
    counter is incremented at every failed attempt, so it increases by
    exactly 3 over the run.  Along every interleaving of loop wake-ups,
    timers, output and failing exits there are never more than 3 attempts;
    the run where each attempt fails and the loop then wakes reaches the
    final state; and once reached, that state stays. *)
Theorem failing_task_three_attempts (c : Config) (task : ITask)
    (c0 c1 c2 : option Z) (s0 s1 s2 : option Signal) :
  maxRetry c = 2 → 1 ≤ totalThreads c → 3 ≤ globalRetryLimit c →
  is_zero c0 = false → is_zero c1 = false → is_zero c2 = false →
  let final (w : World) :=
    spawn_count w = 3 ∧ globalRetryCount w = 3 ∧ taskStatus w !! 0 = Some Failed ∧
    processing w = [] ∧ processed w = [0] ∧ procs w = [] in
  globalRetryCount (new_manager c) = 0 ∧
  (∀ ops, Forall failing_env ops →
     let w := run (failing_run c task) ops in
     spawn_count w ≤ 3 ∧ globalRetryCount w ≤ 3 ∧
     (procs w = [] → processed w = [0] → final w)) ∧
  final (run (failing_run c task)
             [ChildCloses 0 c0 s0; LoopWakes; ChildCloses 1 c1 s1; LoopWakes;
              ChildCloses 2 c2 s2]) ∧
  (∀ ops ops', Forall failing_env ops → Forall failing_env ops' →
     final (run (failing_run c task) ops) →
     final (run (failing_run c task) (ops ++ ops'))).
Proof.
  intros Hretry Hslots Hceiling Hz0 Hz1 Hz2 final.
  assert (∀ ops, spawn_count (run (failing_run c task) ops) =
                 nextPid (run (failing_run c task) ops)) as Hspawn.
  { intros ops. unfold failing_run. rewrite <- run_app. apply from_fresh_spawn_count. }
  assert (∀ ops, Forall failing_env ops → phase c task (run (failing_run c task) ops))
    as Hphase.
  { intros ops Hops.
    apply (run_invariant (phase c task) failing_env); [|done|].
    - intros w o Ho Hw. by apply phase_step.
    - left. exists 0. by apply failing_run_flying. }
  assert (∀ ops, given_up c task (run (failing_run c task) ops) →
                 final (run (failing_run c task) ops)) as Hfinal.
  { intros ops ((_ & _ & _ & _ & _ & Hg) & _ & Hproc & Hdone & Hprocs & _ & _ & Hpid & Hst).
    unfold final. by rewrite Hspawn. }
  split_and!; [done | | |].
  - intros ops Hops w. destruct (phase_counts c task Hretry Hslots Hceiling w (Hphase ops Hops)) as (Hn & Hg & Hgu).
    subst w. rewrite Hspawn. split_and!; [done..|].
    intros Hprocs Hdone. by apply Hfinal, Hgu.
  - apply Hfinal. simpl.
    pose proof (failing_run_flying c task Hretry Hslots Hceiling) as F0.
    destruct (flying_close c task Hretry Hslots Hceiling 0 0 c0 s0 _ F0 Hz0)
      as [[? _]|[_ I1]]; [done|]. simpl in I1.
    pose proof (idle_wake c task Hretry Hslots Hceiling 1 _ I1) as F1.
    destruct (flying_close c task Hretry Hslots Hceiling 1 1 c1 s1 _ F1 Hz1)
      as [[? _]|[_ I2]]; [done|]. simpl in I2.
    pose proof (idle_wake c task Hretry Hslots Hceiling 2 _ I2) as F2.
    by destruct (flying_close c task Hretry Hslots Hceiling 2 2 c2 s2 _ F2 Hz2)
      as [[? _]|[_ G]].
  - intros ops ops' Hops Hops' (_ & _ & _ & _ & Hdone & Hprocs).
    destruct (phase_counts c task Hretry Hslots Hceiling _ (Hphase ops Hops)) as (_ & _ & Hgu).
    apply Hfinal. rewrite run_app.
    apply (run_invariant (given_up c task) failing_env); [|done|by apply Hgu].
    intros w o Ho Hw. by apply given_up_step.
Qed.

Lemma failing_task_three_attempts_witness :
  let w := run (failing_run retry_config (task_of "a"))
               [ChildCloses 0 (Some 1%Z) None; LoopWakes;
                ChildCloses 1 (Some 1%Z) None; LoopWakes;
                ChildCloses 2 (Some 1%Z) None] in
  maxRetry retry_config = 2 ∧ 3 ≤ globalRetryLimit retry_config ∧
  spawn_count w = 3 ∧ globalRetryCount w = 3 ∧ taskStatus w !! 0 = Some Failed.
Proof.
  intros w.
  assert (1 ≤ totalThreads retry_config) as Hslots by (simpl; lia).
  assert (3 ≤ globalRetryLimit retry_config) as Hceiling by (simpl; lia).
  destruct (failing_task_three_attempts retry_config (task_of "a")
              (Some 1%Z) (Some 1%Z) (Some 1%Z) None None None
              eq_refl Hslots Hceiling eq_refl eq_refl eq_refl)
    as (_ & _ & (H1 & H2 & H3 & _) & _).
  by split_and!.
Defined.

(** ** Dispatch in flat mode *)

Lemma map_get_set (k v : nat) (m : list (nat * nat)) : map_get k (map_set k v m) = Some v.
Proof.
  unfold map_get, map_set. induction m as [|[k' v'] m IH]; simpl.
  - by rewrite decide_True.
  - destruct (decide (k' = k)) as [->|Hk]; simpl.
    + by rewrite decide_True.
    + by rewrite decide_False.
Qed.

(** A task the scheduler may start: its cell holds a spec, and it is neither
    in flight, nor completed, nor cancelled. *)
Definition startable (w : World) (i : nat) : Prop :=
  (∃ task, js_get (tasks w) i = Val task) ∧ i ∉ processing w ∧ i ∉ processed w ∧
  taskStatus w !! i ≠ Some Cancelled.

Lemma startable_eligible (w : World) (i : nat) (c : Cell ITask) :
  tasks w !! i = Some c → (eligible w c i = true ↔ startable w i).
Proof.
  intros Hc. rewrite eligible_true. unfold startable, js_get. rewrite Hc. naive_solver.
Qed.

Lemma findIndex_startable (w : World) :
  match findIndex (eligible w) (tasks w) with
  | Some i => startable w i ∧ ∀ j, j < i → ¬ startable w j
  | None => ∀ j, ¬ startable w j
  end.
Proof.
  destruct (findIndex (eligible w) (tasks w)) as [i|] eqn:E.
  - apply findIndex_Some in E as (c & Hc & He & Hmin). split.
    + by apply (startable_eligible w i c).
    + intros j Hj Hs.
      destruct (tasks w !! j) as [cj|] eqn:Ej.
      * apply (startable_eligible w j cj Ej) in Hs. by rewrite (Hmin j cj Hj Ej) in Hs.
      * destruct Hs as [[task Ht] _]. unfold js_get in Ht. by rewrite Ej in Ht.
  - intros j Hs. destruct (tasks w !! j) as [cj|] eqn:Ej.
    + apply (startable_eligible w j cj Ej) in Hs.
      by rewrite (findIndex_None _ _ E j cj Ej) in Hs.
    + destruct Hs as [[task Ht] _]. unfold js_get in Ht. by rewrite Ej in Ht.
Qed.

(** With one worker slot: the slot is idle and nothing is in flight, or the
    slot holds the one task in flight, whose child is the only live one. *)
Definition one_slot (w : World) : Prop :=
  (threads w = [Null] ∧ processing w = [] ∧ procs w = []) ∨
  (∃ i p, threads w = [Val i] ∧ processing w = [i] ∧ procs w = [p] ∧
          owner p = FlatSlot 0 ∧ pidx p = i).

(** What may happen during a run in flat mode: the turns of the event loop,
    and the calls that neither kill a child nor install or start anything. *)
Definition scheduling (o : Op) : Prop :=
  match o with
  | LoopWakes | RetryTimerFires | DeadlineFires _ | StdoutData _ _ | StderrData _ _
  | ChildCloses _ _ _ | CallPause | CallContinue | CallCancelTask _ => True
  | _ => False
  end.

Lemma js_get_singleton_S {A} (x : Cell A) (t : nat) : js_get [x] (S t) = Hole.
Proof. unfold js_get. by destruct t. Qed.

Lemma dispatch_one_slot t w : one_slot w → one_slot (dispatch t w).
Proof.
  intros [(Hth & Hproc & Hprocs)|(i & p & Hth & Hproc & Hprocs & Ho & Hi)].
  - unfold dispatch. rewrite Hth.
    destruct t as [|t]; [|rewrite js_get_singleton_S; left; by split_and!].
    change (js_get [Null] 0) with (@Null nat).
    repeat case_match; try (by left). right.
    eexists _, _. cbn. rewrite Hth, Hproc, Hprocs. by split_and!.
  - unfold dispatch. rewrite Hth.
    assert (js_get [Val i] t ≠ Null) as Hne
      by (destruct t; [done | by rewrite js_get_singleton_S]).
    destruct (js_get [Val i] t); try done; right; by eexists _, _.
Qed.

Lemma runSingle_iter_one_slot w : one_slot w → one_slot (runSingle_iter w).
Proof.
  intros H. unfold runSingle_iter, dispatch_all. repeat case_match; try done.
  apply foldl_invariant; [|done]. intros. by apply dispatch_one_slot.
Qed.

Lemma on_close_one_slot q code signal w : one_slot w → one_slot (on_close q code signal w).
Proof.
  intros [(Hth & Hproc & Hprocs)|(i & p & Hth & Hproc & Hprocs & Ho & Hi)].
  - unfold on_close. rewrite Hprocs. by left.
  - unfold on_close. rewrite Hprocs. unfold find_proc.
    case_decide as Hq; [|right; by eexists _, _]. rewrite Ho. left.
    assert (remove_proc q (procs w) = []) as Hrm.
    { rewrite Hprocs. unfold remove_proc. by rewrite filter_cons_False by auto. }
    assert (without i [i] = []) as Hw.
    { unfold without. by rewrite filter_cons_False by auto. }
    unfold close_flat, retry_policy, release.
    repeat case_match; cbn; by rewrite Hth, Hproc, Hrm, Hi, Hw.
Qed.

Lemma apply_one_slot w o : scheduling o → one_slot w → one_slot (apply w o).
Proof.
  intros Ho H. destruct o; try done; simpl.
  - unfold continue. case_match; [done|]. by apply runSingle_iter_one_slot.
  - unfold cancelTask. by case_match.
  - unfold on_wake. case_match; [done|]. by apply runSingle_iter_one_slot.
  - unfold on_retry_timer. repeat case_match; try done. by apply runSingle_iter_one_slot.
  - unfold on_deadline, kill_overdue. by repeat case_match.
  - unfold on_stdout. case_match; [|done].
    destruct H as [(Hth & Hproc & Hprocs)|(i & p' & Hth & Hproc & Hprocs & Ho' & Hi)].
    + left. cbn. by rewrite Hprocs.
    + right. exists i. cbn. rewrite Hprocs. unfold update_proc. simpl.
      case_decide; eexists; by split_and!.
  - unfold on_stderr. case_match; [|done].
    destruct H as [(Hth & Hproc & Hprocs)|(i & p' & Hth & Hproc & Hprocs & Ho' & Hi)].
    + left. cbn. by rewrite Hprocs.
    + right. exists i. cbn. rewrite Hprocs. unfold update_proc. simpl.
      case_decide; eexists; by split_and!.
  - by apply on_close_one_slot.
Qed.

(** C2: in flat mode a tick visits every worker slot in order; for an idle
    slot it selects the lowest-index startable task (spec not nulled, not in
    flight, not completed, not cancelled), assigns it to the slot, marks it
    [Running], fires the pre-run hook and spawns its process; a busy slot, or
    no startable task, leaves the state as it is.  With one worker slot, at
    most one task is in the in-flight set in every state of a run. *)
Theorem dispatch_first_fit :
  (∀ w, isProcessing w = true → length (processed w) < length (tasks w) →
        isPaused w = false →
        runSingle_iter w =
        foldl (λ w t, dispatch t w)
              (hook onTasksRunning (EvTasksRunning (processing w) (processed w) (threads w)) w)
              (seq 0 (totalThreads (cfg w)))) ∧
  (∀ w t, js_get (threads w) t ≠ Null → dispatch t w = w) ∧
  (∀ w t, js_get (threads w) t = Null →
     match findIndex (eligible w) (tasks w) with
     | Some i =>
       startable w i ∧ (∀ j, j < i → ¬ startable w j) ∧
       ∃ task, js_get (tasks w) i = Val task ∧
         let w' := dispatch t w in
         js_get (threads w') t = Val i ∧
         processing w' = processing w ++ [i] ∧
         taskStatus w' !! i = Some Running ∧
         (∃ logged,
            trace w' = trace w ++
              (if beforeRunTask (hooks (cfg w)) then [EvBeforeRunTask t i task] else []) ++
              logged ++ [EvSpawn (nextPid w) task] ∧
            ∀ e, e ∈ logged → e = EvLog LInfo (MsgStartTask i task)) ∧
         procs w' = procs w ++ [{| pid := nextPid w; owner := FlatSlot t; pidx := i;
                                   ptask := task; pout := ""; perr := "" |}] ∧
         map_get i (children w') = Some (nextPid w)
     | None => (∀ j, ¬ startable w j) ∧ dispatch t w = w
     end) ∧
  (∀ c ts ops, totalThreads c = 1 → Forall scheduling ops →
     length (processing (run (run (new_manager c) [CallSetTasks ts; CallStart]) ops)) ≤ 1).
Proof.
  split_and!.
  - intros w Hrun Hlt Hpaused. unfold runSingle_iter, dispatch_all.
    rewrite Hrun, Hpaused. apply Nat.ltb_lt in Hlt. by rewrite Hlt.
  - intros w t Hbusy. unfold dispatch. by destruct (js_get (threads w) t).
  - intros w t Hidle. pose proof (findIndex_startable w) as Hfind.
    unfold dispatch. rewrite Hidle.
    destruct (findIndex (eligible w) (tasks w)) as [i|]; [|done].
    destruct Hfind as [Hst Hmin]. split_and!; [done..|].
    pose proof Hst as [[task Htask] _]. exists task. split; [done|].
    rewrite Htask. cbn. split_and!.
    + rewrite js_get_set. by rewrite decide_True.
    + done.
    + apply lookup_insert_eq.
    + exists (if onLog (hooks (cfg w)) && (levels (logLevel (cfg w)) <=? 1)
              then [EvLog LInfo (MsgStartTask i task)] else []).
      split; [by rewrite <- !app_assoc|].
      intros e He. case_match; [by apply list_elem_of_singleton in He|].
      by apply elem_of_nil in He.
    + done.
    + apply map_get_set.
  - intros c ts ops Hc Hops.
    assert (one_slot (run (run (new_manager c) [CallSetTasks ts; CallStart]) ops)) as H.
    { apply (run_invariant one_slot scheduling); [|done|].
      - intros w o Ho Hw. by apply apply_one_slot.
      - unfold run. cbn [foldl apply]. unfold start. simpl. unfold run_installed. simpl.
        unfold runSingle. apply runSingle_iter_one_slot. left. cbn. by rewrite Hc. }
    destruct H as [(_ & -> & _)|(i & p & _ & -> & _)]; simpl; lia.
Qed.

Lemma dispatch_first_fit_witness :
  let tasks2 := [task_of "a"; task_of "b"] in
  let w := run (new_manager retry_config)
               [CallSetTasks tasks2; CallStart; ChildCloses 0 (Some 0%Z) None] in
  js_get (threads w) 0 = Null ∧
  findIndex (eligible w) (tasks w) = Some 1 ∧
  processing (dispatch 0 w) = [1] ∧
  length (processing (run (run (new_manager retry_config) [CallSetTasks tasks2; CallStart])
                          [LoopWakes; ChildCloses 0 (Some 0%Z) None; LoopWakes])) ≤ 1.
Proof.
  intros tasks2 w.
  destruct dispatch_first_fit as (_ & _ & H3 & H4).
  assert (js_get (threads w) 0 = Null) as Hidle by (vm_compute; reflexivity).
  assert (findIndex (eligible w) (tasks w) = Some 1) as Hfind by (vm_compute; reflexivity).
  specialize (H3 w 0 Hidle). rewrite Hfind in H3.
  destruct H3 as (_ & _ & task & _ & _ & Hproc & _).
  split_and!; [exact Hidle | exact Hfind | | ].
  - rewrite Hproc. vm_compute. reflexivity.
  - apply H4; [reflexivity | repeat constructor].
Defined.

(** ** Cancelled tasks and the completed set *)

(** [w'] differs from [w] in nothing flat mode looks at, children of lanes
    apart. *)
Definition lane_grown (w w' : World) : Prop :=
  flat_view w' = flat_view w ∧
  ∀ p, p ∈ procs w' → p ∈ procs w ∨ ∃ run gIdx, owner p = GroupLane run gIdx.

Lemma lane_grown_refl w : lane_grown w w.
Proof. split; [done | by left]. Qed.

Lemma lane_grown_trans w1 w2 w3 : lane_grown w1 w2 → lane_grown w2 w3 → lane_grown w1 w3.
Proof.
  intros [E1 P1] [E2 P2]. split; [by rewrite E2|].
  intros p [Hp|Hp]%P2; [by apply P1 | by right].
Qed.

Lemma lane_resume_grown l w : lane_grown w (lane_resume l w).
Proof.
  split; [apply lane_resume_flat|]. unfold lane_resume, runSingleTask.
  repeat case_match; cbn; try by left.
  intros p [Hp| ->%list_elem_of_singleton]%elem_of_app; [by left|]. right. by eexists _, _.
Qed.

Lemma groups_settle_grown run w : lane_grown w (groups_settle run w).
Proof.
  split; [apply groups_settle_flat|]. unfold groups_settle. repeat case_match; by left.
Qed.

Lemma runGroups_grown w : lane_grown w (runGroups w).
Proof.
  unfold runGroups. eapply lane_grown_trans; [|apply groups_settle_grown].
  apply start_lanes_invariant.
  - intros l a Ha. eapply lane_grown_trans; [exact Ha | apply lane_resume_grown].
  - split; [done | by left].
Qed.

Lemma resolve_lane_grown run gIdx w : lane_grown w (resolve_lane run gIdx w).
Proof.
  unfold resolve_lane. repeat case_match; [|apply lane_grown_refl].
  eapply lane_grown_trans; [|apply groups_settle_grown].
  eapply lane_grown_trans; [|apply lane_resume_grown]. split; [done | by left].
Qed.

Lemma close_group_grown p run gIdx code signal w :
  lane_grown w (close_group p run gIdx code signal w).
Proof.
  unfold close_group. case_match.
  all: eapply lane_grown_trans; [|apply resolve_lane_grown]; split; [done | by left].
Qed.

Lemma elem_of_map_set_keys (x k v : nat) (m : list (nat * nat)) :
  x ∈ (map_set k v m).*1 → x = k ∨ x ∈ m.*1.
Proof.
  unfold map_set. induction m as [|[k' v'] m IH]; simpl.
  - intros ->%list_elem_of_singleton. by left.
  - case_decide; simpl; rewrite !elem_of_cons; naive_solver.
Qed.

Lemma elem_of_map_delete_keys (x k : nat) (m : list (nat * nat)) :
  x ∈ (map_delete k m).*1 → x ∈ m.*1.
Proof.
  unfold map_delete. intros (e & -> & [_ He]%list_elem_of_filter)%list_elem_of_fmap.
  apply list_elem_of_fmap. by exists e.
Qed.

Lemma map_get_key (k v : nat) (m : list (nat * nat)) : map_get k m = Some v → k ∈ m.*1.
Proof.
  unfold map_get. induction m as [|[k' v'] m IH]; simpl; [done|].
  case_decide; [subst; by left | right; by apply IH].
Qed.

(** Every index the bookkeeping knows of lies within the task list, and the
    completed set has no duplicates. *)
Definition bounded (w : World) : Prop :=
  NoDup (processed w) ∧
  (∀ j, j ∈ processed w → j < length (tasks w)) ∧
  (∀ j, j ∈ (children w).*1 → j < length (tasks w)) ∧
  (∀ p t, p ∈ procs w → owner p = FlatSlot t → pidx p < length (tasks w)).

(** Nothing of the scheduler refers to index [i]. *)
Definition quiet (i : nat) (w : World) : Prop :=
  i ∉ processing w ∧ i ∉ processed w ∧ i ∉ (children w).*1 ∧
  (∀ p t, p ∈ procs w → owner p = FlatSlot t → pidx p ≠ i).

(** The steps that keep the installed task list. *)
Definition keeps_tasks (o : Op) : Prop :=
  match o with
  | CallSetTasks _ | CallSetGroupedTasks _ | CallDestroy _ => False
  | _ => True
  end.

Lemma bounded_grown w w' : lane_grown w w' → bounded w → bounded w'.
Proof.
  intros [E Hp] (Hnd & Hdone & Hch & Hprocs). flat_eqs E. unfold bounded.
  rewrite Eprocessed, Echildren, Etasks. split_and!; try done.
  intros p t [Hin|(r & g & Hg)]%Hp Ho; [by eapply Hprocs | congruence].
Qed.

Lemma quiet_grown i w w' : lane_grown w w' → quiet i w → quiet i w'.
Proof.
  intros [E Hp] (Hproc & Hdone & Hch & Hprocs). flat_eqs E. unfold quiet.
  rewrite Eprocessing, Eprocessed, Echildren. split_and!; try done.
  intros p t [Hin|(r & g & Hg)]%Hp Ho; [by eapply Hprocs | congruence].
Qed.

Lemma assign_bounded t i task w :
  i < length (tasks w) → bounded w → bounded (assign t i task w).
Proof.
  intros Hi (Hnd & Hdone & Hch & Hprocs). unfold bounded. cbn. split_and!; try done.
  - intros j [->|Hj]%elem_of_map_set_keys; [done | by apply Hch].
  - intros p s [Hp| ->%list_elem_of_singleton]%elem_of_app Ho; [by eapply Hprocs | done].
Qed.

Lemma assign_quiet i t j task w : j ≠ i → quiet i w → quiet i (assign t j task w).
Proof.
  intros Hj (Hproc & Hdone & Hch & Hprocs). unfold quiet. cbn. split_and!; try done.
  - rewrite elem_of_app, list_elem_of_singleton. naive_solver.
  - intros [->|Hin]%elem_of_map_set_keys; done.
  - intros p s [Hp| ->%list_elem_of_singleton]%elem_of_app Ho; [by eapply Hprocs | done].
Qed.

Lemma dispatch_bounded t w : bounded w → bounded (dispatch t w).
Proof.
  intros H. unfold dispatch. repeat case_match; try done.
  apply assign_bounded; [|done]. by eapply js_get_lt.
Qed.

Lemma runSingle_iter_bounded w : bounded w → bounded (runSingle_iter w).
Proof.
  intros H. unfold runSingle_iter, dispatch_all. repeat case_match; try done.
  apply foldl_invariant; [|done]. intros. by apply dispatch_bounded.
Qed.

Lemma close_flat_bounded p t code signal w :
  pidx p < length (tasks w) → bounded w → bounded (close_flat p t code signal w).
Proof.
  intros Hp (Hnd & Hdone & Hch & Hprocs). unfold close_flat, retry_policy, release, bounded.
  repeat case_match; cbn; split_and!; try done.
  all: try (intros j Hj%elem_of_map_delete_keys; by apply Hch).
  all: try (by apply NoDup_push_new).
  all: try (by apply NoDup_without, NoDup_push_new).
  all: try (intros j [->|Hj]%elem_of_push_new; [done | by apply Hdone]).
  all: intros j [_ [->|Hj]%elem_of_push_new]%elem_of_without; [done | by apply Hdone].
Qed.

Lemma apply_bounded w o : keeps_tasks o → bounded w → bounded (apply w o).
Proof.
  intros Ho H. destruct o; try done; simpl.
  - unfold start, run_installed. repeat case_match; simpl; try done.
    + eapply bounded_grown; [apply runGroups_grown | done].
    + unfold runSingle. by apply runSingle_iter_bounded.
  - destruct H as (Hnd & Hdone & Hch & Hprocs). unfold bounded. cbn. split_and!; try done.
    + apply NoDup_nil_2.
    + by intros j ?%elem_of_nil.
    + by intros j ?%elem_of_nil.
  - destruct H as (Hnd & Hdone & Hch & Hprocs). unfold stopTask, kill_child, bounded. cbn.
    destruct (map_get index (children w)) as [child|] eqn:Ec; cbn; split_and!; try done.
    + by apply NoDup_push_new.
    + intros j [->|Hj]%elem_of_push_new; [|by apply Hdone].
      eapply Hch, map_get_key. done.
    + intros j Hj%elem_of_map_delete_keys. by apply Hch.
  - unfold continue. case_match; [done|]. unfold runSingle. by apply runSingle_iter_bounded.
  - destruct H as (Hnd & Hdone & Hch & Hprocs). unfold cancelTask, bounded.
    case_match; cbn; [done|]. rewrite js_set_length. split_and!; try done.
    + intros j Hj%Hdone. lia.
    + intros j Hj%Hch. lia.
    + intros p t Hp Hown. specialize (Hprocs p t Hp Hown). lia.
  - unfold on_wake. case_match; [done | by apply runSingle_iter_bounded].
  - unfold on_retry_timer. repeat case_match; try done.
    unfold runSingle. by apply runSingle_iter_bounded.
  - unfold on_deadline, kill_overdue. by repeat case_match.
  - destruct H as (Hnd & Hdone & Hch & Hprocs). unfold on_stdout, bounded.
    case_match; cbn; [|done]. split_and!; try done.
    unfold update_proc. intros p' t (p0 & -> & Hp0)%list_elem_of_fmap.
    case_decide; cbn; intros; by eapply Hprocs.
  - destruct H as (Hnd & Hdone & Hch & Hprocs). unfold on_stderr, bounded.
    case_match; cbn; [|done]. split_and!; try done.
    unfold update_proc. intros p' t (p0 & -> & Hp0)%list_elem_of_fmap.
    case_decide; cbn; intros; by eapply Hprocs.
  - unfold on_close.
    destruct (find_proc pid0 (procs w)) as [p|] eqn:Ep; [|done].
    apply find_proc_Some in Ep as [Hp _].
    assert (bounded (upd_procs (remove_proc pid0) w)) as Hb.
    { destruct H as (Hnd & Hdone & Hch & Hprocs). unfold bounded. cbn. split_and!; try done.
      intros p' t [_ Hp']%list_elem_of_filter. by apply Hprocs. }
    destruct (owner p) as [t|r g] eqn:Eo.
    + apply close_flat_bounded; [|done]. destruct H as (_ & _ & _ & Hprocs).
      by eapply Hprocs.
    + eapply bounded_grown; [apply close_group_grown | done].
Qed.

Lemma insert_waiting_back (k i : nat) (v : Status) (m : gmap nat Status) :
  v ≠ Waiting → <[k := v]> m !! i = Some Waiting → m !! i = Some Waiting ∧ k ≠ i.
Proof.
  intros Hv. destruct (decide (k = i)) as [->|Hk].
  - rewrite lookup_insert_eq. congruence.
  - by rewrite lookup_insert_ne.
Qed.

(** No step other than [setTasks] writes the status [Waiting]. *)
Definition still_waiting (i : nat) (w w' : World) : Prop :=
  taskStatus w' !! i = Some Waiting → taskStatus w !! i = Some Waiting.

Lemma dispatch_waiting i t w : still_waiting i w (dispatch t w).
Proof.
  unfold still_waiting, dispatch. repeat case_match; try done. cbn.
  by intros [? _]%insert_waiting_back.
Qed.

Lemma runSingle_iter_waiting i w : still_waiting i w (runSingle_iter w).
Proof.
  unfold runSingle_iter, dispatch_all. repeat case_match; try (by unfold still_waiting).
  apply (foldl_invariant (still_waiting i w)); [|by unfold still_waiting].
  intros a t Ha Hw. by apply Ha, (dispatch_waiting i t a).
Qed.

Lemma lane_resume_status l w : taskStatus (lane_resume l w) = taskStatus w.
Proof. unfold lane_resume. by repeat case_match. Qed.

Lemma groups_settle_status run w : taskStatus (groups_settle run w) = taskStatus w.
Proof. unfold groups_settle. by repeat case_match. Qed.

Lemma runGroups_status w : taskStatus (runGroups w) = taskStatus w.
Proof.
  unfold runGroups. rewrite groups_settle_status.
  apply (start_lanes_invariant (λ w', taskStatus w' = taskStatus w)); [|done].
  intros l a <-. apply lane_resume_status.
Qed.

Lemma resolve_lane_status run gIdx w : taskStatus (resolve_lane run gIdx w) = taskStatus w.
Proof.
  unfold resolve_lane. repeat case_match; [|done].
  by rewrite groups_settle_status, lane_resume_status.
Qed.

Lemma apply_waiting i w o : keeps_tasks o → still_waiting i w (apply w o).
Proof.
  intros Ho. destruct o; try done; simpl.
  - unfold start, run_installed. repeat case_match; simpl; try (by unfold still_waiting).
    + unfold still_waiting. by rewrite runGroups_status.
    + unfold runSingle. intros Hs. exact (runSingle_iter_waiting i _ Hs).
  - by unfold still_waiting.
  - unfold still_waiting, stopTask, kill_child. cbn.
    repeat case_match; by intros [? _]%insert_waiting_back.
  - by unfold still_waiting.
  - unfold continue. case_match; [by unfold still_waiting|].
    unfold runSingle. intros Hs. exact (runSingle_iter_waiting i _ Hs).
  - unfold still_waiting, cancelTask. case_match; [done|]. cbn.
    by intros [? _]%insert_waiting_back.
  - unfold on_wake. case_match; [by unfold still_waiting | apply runSingle_iter_waiting].
  - unfold on_retry_timer. repeat case_match; try (by unfold still_waiting).
    unfold runSingle. intros Hs. exact (runSingle_iter_waiting i _ Hs).
  - unfold still_waiting, on_deadline, kill_overdue.
    repeat case_match; try done; cbn; by intros [? _]%insert_waiting_back.
  - unfold still_waiting, on_stdout. by repeat case_match.
  - unfold still_waiting, on_stderr. by repeat case_match.
  - unfold still_waiting, on_close. repeat case_match; try done.
    + unfold close_flat, retry_policy, release.
      repeat case_match; cbn; by intros [? _]%insert_waiting_back.
    + unfold close_group. case_match; rewrite resolve_lane_status; cbn;
        by intros [? _]%insert_waiting_back.
Qed.

Lemma dispatch_tasks t w : tasks (dispatch t w) = tasks w.
Proof. unfold dispatch. by repeat case_match. Qed.

Lemma runSingle_iter_tasks w : tasks (runSingle_iter w) = tasks w.
Proof.
  unfold runSingle_iter, dispatch_all. repeat case_match; try done.
  apply (foldl_invariant (λ w', tasks w' = tasks w)); [|done].
  intros a t <-. apply dispatch_tasks.
Qed.

Lemma flat_tasks (w w' : World) : flat_view w' = flat_view w → tasks w' = tasks w.
Proof. intros H. by flat_eqs H. Qed.

Lemma apply_tasks_length w o : keeps_tasks o → length (tasks w) ≤ length (tasks (apply w o)).
Proof.
  intros Ho. destruct o; try done; simpl.
  - unfold start, run_installed. repeat case_match; simpl; try done.
    + by rewrite (flat_tasks _ _ (runGroups_flat _)).
    + unfold runSingle. by rewrite runSingle_iter_tasks.
  - unfold stopTask, kill_child. cbn. by repeat case_match.
  - unfold continue. case_match; [done|]. unfold runSingle. by rewrite runSingle_iter_tasks.
  - unfold cancelTask. case_match; [done|]. cbn. rewrite js_set_length. lia.
  - unfold on_wake. case_match; [done|]. by rewrite runSingle_iter_tasks.
  - unfold on_retry_timer. repeat case_match; try done.
    unfold runSingle. by rewrite runSingle_iter_tasks.
  - unfold on_deadline, kill_overdue. by repeat case_match.
  - unfold on_stdout. by repeat case_match.
  - unfold on_stderr. by repeat case_match.
  - unfold on_close. repeat case_match; try done.
    + unfold close_flat, retry_policy, release. by repeat case_match.
    + by rewrite (flat_tasks _ _ (close_group_flat _ _ _ _ _ _)).
Qed.

(** The steps that run the dispatch loop. *)
Definition runs_loop (o : Op) : Prop :=
  match o with
  | CallStart | CallContinue | LoopWakes | RetryTimerFires => True
  | _ => False
  end.

Global Instance runs_loop_dec (o : Op) : Decision (runs_loop o).
Proof. destruct o; apply _. Defined.

Lemma not_elem_of_without (i k : nat) (l : list nat) : i ∉ l → i ∉ without k l.
Proof. rewrite elem_of_without. naive_solver. Qed.

Lemma not_elem_of_push_new (i k : nat) (l : list nat) : k ≠ i → i ∉ l → i ∉ push_new k l.
Proof. rewrite elem_of_push_new. naive_solver. Qed.

Lemma not_elem_of_map_delete_keys (i k : nat) (m : list (nat * nat)) :
  i ∉ m.*1 → i ∉ (map_delete k m).*1.
Proof. intros H Hx%elem_of_map_delete_keys. done. Qed.

Lemma close_flat_quiet i p t code signal w :
  pidx p ≠ i → quiet i w → quiet i (close_flat p t code signal w).
Proof.
  intros Hp (Hproc & Hdone & Hch & Hprocs). unfold close_flat, retry_policy, release, quiet.
  repeat case_match; cbn; split_and!; try done;
    auto using not_elem_of_without, not_elem_of_push_new, not_elem_of_map_delete_keys.
Qed.

Lemma apply_quiet_plain i w o :
  keeps_tasks o → ¬ runs_loop o → quiet i w → quiet i (apply w o).
Proof.
  intros Ho Hl H. destruct o; try (by destruct Ho); try (by destruct Hl); simpl.
  - destruct H as (Hproc & Hdone & Hch & Hprocs). unfold quiet. cbn. split_and!; try done.
    all: apply not_elem_of_nil.
  - destruct H as (Hproc & Hdone & Hch & Hprocs). unfold stopTask, kill_child, quiet. cbn.
    destruct (map_get index (children w)) as [child|] eqn:Ec; cbn; split_and!; try done.
    + by apply not_elem_of_without.
    + apply not_elem_of_push_new; [|done]. intros ->. eapply Hch, map_get_key. done.
    + by apply not_elem_of_map_delete_keys.
  - unfold cancelTask. case_match; exact H.
  - unfold on_deadline, kill_overdue. repeat case_match; exact H.
  - destruct H as (Hproc & Hdone & Hch & Hprocs). unfold on_stdout, quiet.
    case_match; cbn; [|done]. split_and!; try done.
    unfold update_proc. intros p' t (p0 & -> & Hp0)%list_elem_of_fmap.
    case_decide; cbn; intros; by eapply Hprocs.
  - destruct H as (Hproc & Hdone & Hch & Hprocs). unfold on_stderr, quiet.
    case_match; cbn; [|done]. split_and!; try done.
    unfold update_proc. intros p' t (p0 & -> & Hp0)%list_elem_of_fmap.
    case_decide; cbn; intros; by eapply Hprocs.
  - unfold on_close.
    destruct (find_proc pid0 (procs w)) as [p|] eqn:Ep; [|done].
    apply find_proc_Some in Ep as [Hp _].
    assert (quiet i (upd_procs (remove_proc pid0) w)) as Hq.
    { destruct H as (Hproc & Hdone & Hch & Hprocs). unfold quiet. cbn. split_and!; try done.
      intros p' t [_ Hp']%list_elem_of_filter. by apply Hprocs. }
    destruct (owner p) as [t|r g] eqn:Eo.
    + apply close_flat_quiet; [|done]. destruct H as (_ & _ & _ & Hprocs).
      by eapply Hprocs.
    + eapply quiet_grown; [apply close_group_grown | done].
Qed.

(** After [cancelTask]: the cell is nulled and the scheduler holds no
    reference to the index. *)
Definition shelved (i : nat) (w : World) : Prop := retired i w ∧ quiet i w.

(** Before its first dispatch a task has the status [Waiting], lies within
    the list, and the scheduler holds no reference to it. *)
Definition calm (i : nat) (w : World) : Prop :=
  taskStatus w !! i = Some Waiting → i < length (tasks w) ∧ quiet i w.

Lemma dispatch_shelved i t w : shelved i w → shelved i (dispatch t w).
Proof.
  intros [Hr Hq]. split; [by apply dispatch_retired|].
  unfold dispatch. repeat case_match; try done.
  apply assign_quiet; [|done]. intros ->. by eapply (proj1 Hr).
Qed.

Lemma runSingle_iter_shelved i w : shelved i w → shelved i (runSingle_iter w).
Proof.
  intros H. unfold runSingle_iter, dispatch_all. repeat case_match; try exact H.
  apply foldl_invariant; [|exact H]. intros. by apply dispatch_shelved.
Qed.

Lemma apply_shelved i w o : keeps_tasks o → shelved i w → shelved i (apply w o).
Proof.
  intros Ho H. destruct (decide (runs_loop o)) as [Hl|Hl].
  - destruct o; try (by destruct Hl); simpl.
    + unfold start, run_installed. repeat case_match; simpl; try exact H.
      * destruct H as [Hr Hq]. split.
        -- eapply retired_flat; [apply runGroups_flat | exact Hr].
        -- eapply quiet_grown; [apply runGroups_grown | exact Hq].
      * unfold runSingle. apply runSingle_iter_shelved. exact H.
    + unfold continue. case_match; [exact H|].
      unfold runSingle. apply runSingle_iter_shelved. exact H.
    + unfold on_wake. case_match; [exact H | by apply runSingle_iter_shelved].
    + unfold on_retry_timer. repeat case_match; try exact H.
      unfold runSingle. apply runSingle_iter_shelved. exact H.
  - destruct H as [Hr Hq]. split.
    + apply apply_retired; [|done]. intros ts ->. done.
    + by apply apply_quiet_plain.
Qed.

Lemma dispatch_calm i t w : calm i w → calm i (dispatch t w).
Proof.
  intros Hc. unfold dispatch. repeat case_match; try exact Hc.
  intros [Hs Hn]%insert_waiting_back; [|done]. destruct (Hc Hs) as [Hi Hq].
  split; [done|]. by apply assign_quiet.
Qed.

Lemma runSingle_iter_calm i w : calm i w → calm i (runSingle_iter w).
Proof.
  intros H. unfold runSingle_iter, dispatch_all. repeat case_match; try exact H.
  apply foldl_invariant; [|exact H]. intros. by apply dispatch_calm.
Qed.

Lemma apply_calm i w o : keeps_tasks o → calm i w → calm i (apply w o).
Proof.
  intros Ho H. destruct (decide (runs_loop o)) as [Hl|Hl].
  - destruct o; try (by destruct Hl); simpl.
    + unfold start, run_installed. repeat case_match; simpl; try exact H.
      * unfold calm. rewrite runGroups_status, (flat_tasks _ _ (runGroups_flat _)).
        intros Hs. destruct (H Hs) as [Hi Hq]. split; [exact Hi|].
        eapply quiet_grown; [apply runGroups_grown | exact Hq].
      * unfold runSingle. apply runSingle_iter_calm. exact H.
    + unfold continue. case_match; [exact H|].
      unfold runSingle. apply runSingle_iter_calm. exact H.
    + unfold on_wake. case_match; [exact H | by apply runSingle_iter_calm].
    + unfold on_retry_timer. repeat case_match; try exact H.
      unfold runSingle. apply runSingle_iter_calm. exact H.
  - intros Hs. destruct (H (apply_waiting i w o Ho Hs)) as [Hi Hq]. split.
    + pose proof (apply_tasks_length w o Ho). lia.
    + by apply apply_quiet_plain.
Qed.

Lemma installed_calm i c ts :
  bounded (setTasks ts (new_manager c)) ∧ calm i (setTasks ts (new_manager c)).
Proof.
  split.
  - unfold bounded. cbn. split_and!.
    + apply NoDup_nil_2.
    + by intros j ?%elem_of_nil.
    + by intros j ?%elem_of_nil.
    + by intros p t ?%elem_of_nil.
  - unfold calm, quiet. cbn. rewrite waiting_table_lookup, length_fmap.
    case_decide; [|by rewrite lookup_empty]. intros _. split_and!; try lia.
    + apply not_elem_of_nil.
    + apply not_elem_of_nil.
    + apply not_elem_of_nil.
    + by intros p t ?%elem_of_nil.
Qed.

Lemma completed_below_total (i n : nat) (l : list nat) :
  NoDup l → (∀ j, j ∈ l → j < n) → i < n → i ∉ l → length l < n.
Proof.
  intros Hnd Hb Hi Hni.
  assert (i :: l ⊆+ seq 0 n) as Hsub.
  { apply NoDup_submseteq; [by apply NoDup_cons|].
    intros x [->|Hx]%elem_of_cons; apply elem_of_seq; [lia|]. specialize (Hb x Hx). lia. }
  apply submseteq_length in Hsub. rewrite length_seq in Hsub. simpl in Hsub. lia.
Qed.

(** C10, as stated, fails in its first sentence: a task whose child is still
    alive after [stop] can be cancelled, and the late [close] of that child
    then adds the cancelled index to the completed set. *)
Lemma cancelled_counterexample :
  let w := run (setTasks [task_of "a"] (new_manager default_config))
               [CallStart; CallStop None; CallCancelTask 0] in
  taskStatus w !! 0 = Some Cancelled ∧ processed w = [] ∧
  processed (apply w (ChildCloses 0 None (Some SIGTERM))) = [0].
Proof. vm_compute. by split_and!. Qed.

(** C10 (amended): a task cancelled while still waiting, that is before its
    first dispatch, is never added to the completed set, whatever is called
    or happens afterwards short of installing a new task set or [destroy];
    hence the completed count stays strictly below the total task count and
    the loop test [processed.length < tasks.length] never fails: the loop
    ends only through the processing flag. *)
Theorem waiting_cancel_blocks_completion (c : Config) (ts : list ITask)
    (ops1 ops2 : list Op) (i : nat) :
  Forall keeps_tasks ops1 → Forall keeps_tasks ops2 →
  let w := run (setTasks ts (new_manager c)) ops1 in
  taskStatus w !! i = Some Waiting →
  let w' := run (cancelTask i w) ops2 in
  taskStatus (cancelTask i w) !! i = Some Cancelled ∧
  0 < length ts ∧
  i ∉ processed w' ∧
  length (processed w') < length (tasks w') ∧
  (length (processed w') <? length (tasks w')) = true ∧
  (length (processed w') =? length (tasks w')) = false.
Proof.
  intros Hops1 Hops2 w Hs w'.
  destruct (installed_calm i c ts) as [Hb0 Hc0].
  assert (bounded w) as Hb
    by (apply (run_invariant bounded keeps_tasks); [apply apply_bounded | done..]).
  assert (calm i w) as Hc
    by (apply (run_invariant (calm i) keeps_tasks); [apply apply_calm | done..]).
  destruct (Hc Hs) as [Hi Hq].
  assert (i < length ts) as Hts.
  { unfold calm in Hc0. cbn in Hc0. rewrite waiting_table_lookup, length_fmap in Hc0.
    destruct (decide (0 ≤ i < 0 + length ts)); [lia|].
    clear -Hs Hops1 n. exfalso. revert Hs.
    assert (taskStatus (setTasks ts (new_manager c)) !! i ≠ Some Waiting) as H0.
    { cbn. rewrite waiting_table_lookup. by rewrite decide_False, lookup_empty. }
    subst w. revert H0. generalize (setTasks ts (new_manager c)).
    induction Hops1 as [|o ops Ho _ IH]; intros w0 H0; simpl; [done|].
    apply IH. intros Hw. by apply H0, (apply_waiting i w0 o Ho). }
  destruct (cancelTask_retires w i) as [_ Hcancel].
  destruct (Hcancel (proj1 Hq)) as (Hst & Hnull & _).
  assert (shelved i (cancelTask i w) ∧ bounded (cancelTask i w) ∧
          i < length (tasks (cancelTask i w))) as (Hsh1 & Hb1 & Hi1).
  { split_and!.
    - split.
      + split; [intros task; by rewrite Hnull|].
        unfold cancelTask. case_match; [apply Hq | apply Hq].
      + unfold cancelTask. case_match; exact Hq.
    - by apply (apply_bounded w (CallCancelTask i)).
    - pose proof (apply_tasks_length w (CallCancelTask i) I) as Hl. simpl in Hl. lia. }
  assert (shelved i w') as [_ Hq']
    by (apply (run_invariant (shelved i) keeps_tasks); [apply apply_shelved | done..]).
  assert (bounded w') as (Hnd & Hdone & _)
    by (apply (run_invariant bounded keeps_tasks); [apply apply_bounded | done..]).
  assert (i < length (tasks w')) as Hi'.
  { subst w'. clear -Hops2 Hi1. revert Hi1. generalize (cancelTask i w).
    induction Hops2 as [|o ops Ho _ IH]; intros w0 H0; simpl; [done|].
    apply IH. pose proof (apply_tasks_length w0 o Ho). lia. }
  assert (length (processed w') < length (tasks w')) as Hlt
    by (eapply completed_below_total; [done | done | exact Hi' | apply Hq']).
  split_and!; [done | lia | apply Hq' | done | by apply Nat.ltb_lt | apply Nat.eqb_neq; lia].
Qed.

Lemma waiting_cancel_blocks_completion_witness :
  let ts := [task_of "a"; task_of "b"] in
  let w := run (setTasks ts (new_manager retry_config)) [CallStart] in
  let w' := run (cancelTask 1 w)
                [ChildCloses 0 (Some 0%Z) None; LoopWakes; LoopWakes; CallStopTask 1 None] in
  taskStatus w !! 1 = Some Waiting ∧
  1 ∉ processed w' ∧ length (processed w') < length (tasks w').
Proof.
  intros ts w w'.
  assert (taskStatus w !! 1 = Some Waiting) as Hs by (vm_compute; reflexivity).
  assert (Forall keeps_tasks [CallStart]) as H1 by (repeat constructor).
  assert (Forall keeps_tasks
            [ChildCloses 0 (Some 0%Z) None; LoopWakes; LoopWakes; CallStopTask 1 None])
    as H2 by (repeat constructor).
  destruct (waiting_cancel_blocks_completion retry_config ts _ _ 1 H1 H2 Hs)
    as (_ & _ & Hout & Hlt & _).
  split_and!; [exact Hs | exact Hout | exact Hlt].
Defined.

(** ** Lanes *)

(** The lane of a lane child, and the position at which that lane is
    suspended while the child runs. *)
Definition proc_lane (p : Proc) : option (nat * nat * nat) :=
  match owner p with
  | GroupLane run gIdx => Some (run, gIdx, S (pidx p))
  | FlatSlot _ => None
  end.

Definition lane_pos (l : Lane) : nat * nat * nat := (l_run l, l_gidx l, l_pos l).

Definition lane_key (l : Lane) : nat * nat := (l_run l, l_gidx l).

(** Every suspended lane awaits exactly one live child, the child of the
    task just before its position; lanes are told apart by run and group
    index, children by pid. *)
Definition synced (w : World) : Prop :=
  omap proc_lane (procs w) = lane_pos <$> lanes w ∧
  NoDup (lane_key <$> lanes w) ∧
  (∀ l, l ∈ lanes w → l_run l < nextRun w) ∧
  NoDup (pid <$> procs w) ∧
  pids_fresh w.

Lemma filter_keep_all {A} (P : A → Prop) `{∀ x, Decision (P x)} (l : list A) :
  (∀ x, x ∈ l → P x) → filter P l = l.
Proof.
  induction l as [|x l IH]; intros Hall; [done|].
  rewrite filter_cons_True by (apply Hall; by left). f_equal. apply IH.
  intros y Hy. apply Hall. by right.
Qed.

Lemma remove_proc_split (q : nat) (p : Proc) (l : list Proc) :
  find_proc q l = Some p → NoDup (pid <$> l) →
  ∃ l1 l2, l = l1 ++ p :: l2 ∧ remove_proc q l = l1 ++ l2.
Proof.
  intros [Hin Hq]%find_proc_Some Hnd.
  apply list_elem_of_split in Hin as (l1 & l2 & ->). exists l1, l2. split; [done|].
  rewrite fmap_app, fmap_cons in Hnd.
  apply NoDup_app in Hnd as (_ & Hdisj & [Hp _]%NoDup_cons).
  unfold remove_proc. rewrite filter_app, filter_cons_False by (rewrite Hq; auto).
  rewrite !filter_keep_all; [done | ..]; intros x Hx Hxq.
  all: first
    [ by (apply Hp, list_elem_of_fmap; exists x; split; [congruence | done])
    | by (apply (Hdisj (pid x)); [apply list_elem_of_fmap; by exists x | rewrite Hxq, <- Hq; left]) ].
Qed.

Lemma lane_split (run gIdx : nat) (l : Lane) (L1 L2 : list Lane) :
  lane_key l = (run, gIdx) → NoDup (lane_key <$> (L1 ++ l :: L2)) →
  list_find (same_lane run gIdx) (L1 ++ l :: L2) = Some (length L1, l) ∧
  filter (λ l, ¬ same_lane run gIdx l) (L1 ++ l :: L2) = L1 ++ L2 ∧
  lane_key l ∉ lane_key <$> (L1 ++ L2) ∧ NoDup (lane_key <$> (L1 ++ L2)).
Proof.
  intros Hk Hnd. rewrite fmap_app, fmap_cons in Hnd.
  apply NoDup_app in Hnd as (Hn1 & Hdisj & [Hl2 Hn2]%NoDup_cons).
  assert (same_lane run gIdx l) as Hsame by (by injection Hk).
  assert (∀ x, x ∈ L1 → ¬ same_lane run gIdx x) as H1.
  { intros x Hx [Hr Hg]. apply (Hdisj (lane_key x)).
    - apply list_elem_of_fmap. by exists x.
    - replace (lane_key x) with (lane_key l); [left|].
      rewrite Hk. unfold lane_key. by rewrite Hr, Hg. }
  assert (∀ x, x ∈ L2 → ¬ same_lane run gIdx x) as H2.
  { intros x Hx [Hr Hg]. apply Hl2, list_elem_of_fmap. exists x.
    split; [|done]. rewrite Hk. unfold lane_key. by rewrite Hr, Hg. }
  split_and!.
  - apply list_find_Some. split_and!.
    + by rewrite list_lookup_middle.
    + done.
    + intros j y Hy Hj. rewrite lookup_app_l in Hy by done.
      apply H1. by eapply list_elem_of_lookup_2.
  - rewrite filter_app, filter_cons_False by auto.
    by rewrite !filter_keep_all.
  - rewrite fmap_app. intros [Hx|Hx]%elem_of_app; [|done].
    apply (Hdisj _ Hx). by left.
  - rewrite fmap_app. apply NoDup_app. split_and!; [done | | done].
    intros x Hx Hx2. apply (Hdisj x Hx). by right.
Qed.

Lemma synced_ext (w w' : World) :
  procs w' = procs w → lanes w' = lanes w → nextRun w' = nextRun w →
  nextPid w' = nextPid w → synced w → synced w'.
Proof.
  intros Hp Hl Hr Hn (S1 & S2 & S3 & S4 & S5). unfold synced, pids_fresh.
  by rewrite Hp, Hl, Hr, Hn.
Qed.

Lemma synced_spawn (w w' : World) (p : Proc) (ls : list Lane) :
  procs w' = procs w ++ [p] → pid p = nextPid w → nextPid w' = S (nextPid w) →
  nextRun w' = nextRun w → lanes w' = lanes w ++ ls →
  omap proc_lane [p] = lane_pos <$> ls →
  (∀ l, l ∈ ls → l_run l < nextRun w ∧ lane_key l ∉ lane_key <$> lanes w) →
  synced w → synced w'.
Proof.
  intros Hp Hpid Hn Hr Hl Hpl Hls (S1 & S2 & S3 & S4 & S5). unfold synced, pids_fresh.
  rewrite Hp, Hl, Hr, Hn. split_and!.
  - by rewrite omap_app, fmap_app, S1, Hpl.
  - rewrite fmap_app. apply NoDup_app. split_and!; [done | |].
    + intros x Hx (l & -> & Hl')%list_elem_of_fmap. by apply (Hls l Hl').
    + simpl in Hpl. destruct (proc_lane p); destruct ls as [|l [|l' ls]]; try done.
      all: first [apply NoDup_nil_2 | apply NoDup_singleton].
  - intros l [Hin|Hin]%elem_of_app; [by apply S3 | by apply Hls].
  - rewrite fmap_app. apply NoDup_app. split_and!; [done | | apply NoDup_singleton].
    intros x (p0 & -> & Hp0)%list_elem_of_fmap Hx. simpl in Hx.
    apply list_elem_of_singleton in Hx. specialize (S5 p0 Hp0). lia.
  - intros x [Hx| ->%list_elem_of_singleton]%elem_of_app; [|lia].
    specialize (S5 x Hx). lia.
Qed.

Lemma dispatch_synced t w : synced w → synced (dispatch t w).
Proof.
  intros H. unfold dispatch. repeat case_match; try done.
  eapply (synced_spawn w _ _ []); try done.
  - by rewrite app_nil_r.
  - by intros l ?%elem_of_nil.
Qed.

Lemma runSingle_iter_synced w : synced w → synced (runSingle_iter w).
Proof.
  intros H. unfold runSingle_iter, dispatch_all. repeat case_match; try exact H.
  apply foldl_invariant; [|exact H]. intros. by apply dispatch_synced.
Qed.

Lemma lane_resume_synced l w :
  l_run l < nextRun w → lane_key l ∉ lane_key <$> lanes w →
  synced w → synced (lane_resume l w).
Proof.
  intros Hr Hk H. unfold lane_resume. repeat case_match; try exact H.
  eapply (synced_spawn w);
    [reflexivity | reflexivity | reflexivity | reflexivity | reflexivity | reflexivity | | exact H].
  by intros l' ->%list_elem_of_singleton.
Qed.

Lemma groups_settle_synced run w : synced w → synced (groups_settle run w).
Proof. intros H. unfold groups_settle. case_match; exact H. Qed.

Lemma lane_resume_lanes l w l' :
  l' ∈ lanes (lane_resume l w) → l' ∈ lanes w ∨ lane_key l' = lane_key l.
Proof.
  unfold lane_resume. repeat case_match; cbn; try by left.
  intros [?| ->%list_elem_of_singleton]%elem_of_app; [by left | by right].
Qed.

Lemma lane_resume_nextRun l w : nextRun (lane_resume l w) = nextRun w.
Proof. unfold lane_resume. by repeat case_match. Qed.

Lemma start_lanes_synced run groups gIdx w :
  run < nextRun w →
  (∀ l, l ∈ lanes w → l_run l = run → l_gidx l < gIdx) →
  synced w → synced (start_lanes run gIdx groups w).
Proof.
  revert gIdx w. induction groups as [|group rest IH]; intros gIdx w Hr Hlow H; simpl; [done|].
  apply IH.
  - by rewrite lane_resume_nextRun.
  - intros l [Hl|Hl]%lane_resume_lanes Hrun.
    + specialize (Hlow l Hl Hrun). lia.
    + injection Hl as _ ->. simpl. lia.
  - apply lane_resume_synced; [done | | done].
    intros (l & Hl & Hin)%list_elem_of_fmap. injection Hl as Hl1 Hl2.
    specialize (Hlow l Hin (eq_sym Hl1)). simpl in Hl2. lia.
Qed.

Lemma runGroups_synced w : synced w → synced (runGroups w).
Proof.
  intros H. unfold runGroups. apply groups_settle_synced, start_lanes_synced.
  - simpl. lia.
  - intros l Hl Hrun. destruct H as (_ & _ & S3 & _). specialize (S3 l Hl). simpl in *. lia.
  - destruct H as (S1 & S2 & S3 & S4 & S5). unfold synced. split_and!; try done.
    intros l Hl. specialize (S3 l Hl). simpl. lia.
Qed.

Lemma close_flat_synced p t code signal w : synced w → synced (close_flat p t code signal w).
Proof.
  intros H. unfold close_flat, retry_policy. by repeat case_match; apply (synced_ext w).
Qed.

(** A live lane child pins down the suspended lane that awaits it. *)
Lemma synced_lane_of (w : World) (q : nat) (p : Proc) (run gIdx : nat) :
  synced w → find_proc q (procs w) = Some p → owner p = GroupLane run gIdx →
  ∃ l1 l2 L1 l L2,
    procs w = l1 ++ p :: l2 ∧ remove_proc q (procs w) = l1 ++ l2 ∧
    lanes w = L1 ++ l :: L2 ∧ lane_pos l = (run, gIdx, S (pidx p)) ∧
    omap proc_lane l1 = lane_pos <$> L1 ∧ omap proc_lane l2 = lane_pos <$> L2.
Proof.
  intros (S1 & S2 & S3 & S4 & S5) Hq Ho.
  destruct (remove_proc_split q p (procs w) Hq S4) as (l1 & l2 & Hp & Hrm).
  rewrite Hp, omap_app in S1. simpl in S1. unfold proc_lane at 2 in S1. rewrite Ho in S1.
  symmetry in S1. apply fmap_app_inv in S1 as (L1 & L2' & H1 & H2 & HL).
  symmetry in H2. apply fmap_cons_inv in H2 as (l & L2 & Hl & H2 & ->).
  exists l1, l2, L1, l, L2. by split_and!.
Qed.

Lemma synced_retire (w w' : World) (l1 l2 : list Proc) (p : Proc) (L1 L2 : list Lane) (l : Lane) :
  procs w = l1 ++ p :: l2 → lanes w = L1 ++ l :: L2 →
  omap proc_lane l1 = lane_pos <$> L1 → omap proc_lane l2 = lane_pos <$> L2 →
  procs w' = l1 ++ l2 → lanes w' = L1 ++ L2 →
  nextRun w' = nextRun w → nextPid w' = nextPid w →
  synced w → synced w'.
Proof.
  intros Hp Hl H1 H2 Hp' Hl' Hr Hn (S1 & S2 & S3 & S4 & S5). unfold synced, pids_fresh in *.
  rewrite Hp', Hl', Hr, Hn. rewrite Hp in S4, S5. rewrite Hl in S2, S3. split_and!.
  - by rewrite omap_app, fmap_app, H1, H2.
  - rewrite fmap_app, fmap_cons in S2. rewrite fmap_app.
    apply NoDup_app in S2 as (Hn1 & Hdisj & [_ Hn2]%NoDup_cons).
    apply NoDup_app. split_and!; [done | | done].
    intros x Hx Hx2. apply (Hdisj x Hx). by right.
  - intros l' [Hin|Hin]%elem_of_app; apply S3, elem_of_app; [by left | by right; right].
  - rewrite fmap_app, fmap_cons in S4. rewrite fmap_app.
    apply NoDup_app in S4 as (Hn1 & Hdisj & [_ Hn2]%NoDup_cons).
    apply NoDup_app. split_and!; [done | | done].
    intros x Hx Hx2. apply (Hdisj x Hx). by right.
  - intros x [Hin|Hin]%elem_of_app; apply S5, elem_of_app; [by left | by right; right].
Qed.

Lemma on_close_synced q code signal w : synced w → synced (on_close q code signal w).
Proof.
  intros H. unfold on_close. destruct (find_proc q (procs w)) as [p|] eqn:Hq; [|done].
  destruct (owner p) as [t|run gIdx] eqn:Ho.
  - apply close_flat_synced.
    pose proof H as (S1 & S2 & S3 & S4 & S5).
    destruct (remove_proc_split q p (procs w) Hq S4) as (l1 & l2 & Hp & Hrm).
    unfold synced, pids_fresh in *. cbn. rewrite Hrm. rewrite Hp in S1, S4, S5. split_and!; try done.
    + rewrite omap_app in S1. simpl in S1. unfold proc_lane at 2 in S1. rewrite Ho in S1.
      by rewrite omap_app.
    + rewrite fmap_app, fmap_cons in S4. rewrite fmap_app.
      apply NoDup_app in S4 as (Hn1 & Hdisj & [_ Hn2]%NoDup_cons).
      apply NoDup_app. split_and!; [done | | done].
      intros x Hx Hx2. apply (Hdisj x Hx). by right.
    + intros x [Hin|Hin]%elem_of_app; apply S5, elem_of_app; [by left | by right; right].
  - destruct (synced_lane_of w q p run gIdx H Hq Ho)
      as (l1 & l2 & L1 & l & L2 & Hp & Hrm & HL & Hl & H1 & H2).
    pose proof H as (S1 & S2 & S3 & S4 & S5).
    assert (lane_key l = (run, gIdx)) as Hk.
    { injection Hl as Hr Hg _. unfold lane_key. by rewrite Hr, Hg. }
    rewrite HL in S2.
    destruct (lane_split run gIdx l L1 L2 Hk S2) as (Hfind & Hfilter & Hnotin & Hnd).
    assert (l_run l < nextRun w) as Hrun.
    { apply S3. rewrite HL. apply elem_of_app. right. by left. }
    unfold close_group, resolve_lane.
    destruct (is_zero code); cbn; rewrite HL, Hfind.
    all: apply groups_settle_synced, lane_resume_synced; [done | by cbn; rewrite HL, Hfilter |].
    all: eapply (synced_retire w);
      [exact Hp | exact HL | exact H1 | exact H2 | cbn; exact Hrm
      | cbn; by rewrite HL, Hfilter | reflexivity | reflexivity | exact H].
Qed.

Lemma update_proc_lanes q f l :
  (∀ p, owner (f p) = owner p ∧ pidx (f p) = pidx p ∧ pid (f p) = pid p) →
  omap proc_lane (update_proc q f l) = omap proc_lane l ∧
  pid <$> update_proc q f l = pid <$> l.
Proof.
  intros Hf. unfold update_proc. induction l as [|x l [IH1 IH2]]; [done|].
  destruct (Hf x) as (Ho & Hi & Hp). csimpl. rewrite IH1, IH2.
  assert (proc_lane (f x) = proc_lane x) as Hpl by (unfold proc_lane; by rewrite Ho, Hi).
  case_decide; [by rewrite Hpl, Hp | done].
Qed.

Lemma update_proc_synced q f w w' :
  (∀ p, owner (f p) = owner p ∧ pidx (f p) = pidx p ∧ pid (f p) = pid p) →
  procs w' = update_proc q f (procs w) → lanes w' = lanes w →
  nextRun w' = nextRun w → nextPid w' = nextPid w → synced w → synced w'.
Proof.
  intros Hf Hp Hl Hr Hn (S1 & S2 & S3 & S4 & S5).
  destruct (update_proc_lanes q f (procs w) Hf) as [E1 E2].
  unfold synced, pids_fresh. rewrite Hp, Hl, Hr, Hn, E1, E2. split_and!; try done.
  intros x (y & -> & Hy)%list_elem_of_fmap. specialize (S5 y Hy).
  destruct (Hf y) as (_ & _ & Hpid). case_decide; [by rewrite Hpid | done].
Qed.

Lemma apply_synced w o : synced w → synced (apply w o).
Proof.
  intros H. destruct o; simpl; try by apply (synced_ext w).
  - unfold start, run_installed. repeat case_match; simpl; try by apply (synced_ext w).
    + apply runGroups_synced. by apply (synced_ext w).
    + apply runSingle_iter_synced. by apply (synced_ext w).
  - unfold stopTask, kill_child. by repeat case_match; apply (synced_ext w).
  - unfold continue. case_match; [done|].
    apply runSingle_iter_synced. by apply (synced_ext w).
  - unfold cancelTask. by repeat case_match; apply (synced_ext w).
  - unfold on_wake. case_match; [done | by apply runSingle_iter_synced].
  - unfold on_retry_timer. repeat case_match; try by apply (synced_ext w).
    apply runSingle_iter_synced. by apply (synced_ext w).
  - unfold on_deadline, kill_overdue. by repeat case_match; apply (synced_ext w).
  - unfold on_stdout. case_match; [|done].
    by apply (update_proc_synced pid0 (add_stdout data) w).
  - unfold on_stderr. case_match; [|done].
    by apply (update_proc_synced pid0 (add_stderr data) w).
  - by apply on_close_synced.
Qed.

Lemma new_manager_synced c : synced (new_manager c).
Proof.
  unfold synced, pids_fresh. cbn. split_and!; try done; try apply NoDup_nil_2.
  all: by intros ? ?%elem_of_nil.
Qed.

Lemma run_synced ops w : synced w → synced (run w ops).
Proof.
  apply (run_invariant synced (λ _, True)); [intros; by apply apply_synced|].
  by apply Forall_forall.
Qed.

(** ** Grouped mode *)

Lemma lane_children_unique (l : list Proc) (p p' : Proc) (run gIdx : nat) :
  NoDup ((λ k, k.1) <$> omap proc_lane l) → p ∈ l → p' ∈ l →
  owner p = GroupLane run gIdx → owner p' = GroupLane run gIdx → p = p'.
Proof.
  intros Hnd Hp Hp' Ho Ho'.
  assert (∀ x, x ∈ l → owner x = GroupLane run gIdx →
               (run, gIdx) ∈ (λ k, k.1) <$> omap proc_lane l) as Hin.
  { intros x Hx Hox. apply list_elem_of_fmap. exists (run, gIdx, S (pidx x)). split; [done|].
    apply list_elem_of_omap. exists x. split; [done|]. unfold proc_lane. by rewrite Hox. }
  clear Hin. induction l as [|x l IH]; [by apply elem_of_nil in Hp|].
  assert (∀ y, y ∈ l → owner y = GroupLane run gIdx →
               (run, gIdx) ∈ (λ k, k.1) <$> omap proc_lane l) as Hin.
  { intros y Hy Hoy. apply list_elem_of_fmap. exists (run, gIdx, S (pidx y)). split; [done|].
    apply list_elem_of_omap. exists y. split; [done|]. unfold proc_lane. by rewrite Hoy. }
  csimpl in Hnd.
  apply elem_of_cons in Hp as [->|Hp]; apply elem_of_cons in Hp' as [->|Hp']; [done | | |].
  - unfold proc_lane at 1 in Hnd. rewrite Ho in Hnd. csimpl in Hnd.
    apply NoDup_cons in Hnd as [Hn _]. destruct Hn. by apply (Hin p').
  - unfold proc_lane at 1 in Hnd. rewrite Ho' in Hnd. csimpl in Hnd.
    apply NoDup_cons in Hnd as [Hn _]. destruct Hn. by apply (Hin p).
  - apply IH; [|done|done]. destruct (proc_lane x); [|done].
    csimpl in Hnd. by apply NoDup_cons in Hnd as [_ ?].
Qed.

Lemma synced_one_child_per_lane (w : World) (p p' : Proc) (run gIdx : nat) :
  synced w → p ∈ procs w → p' ∈ procs w →
  owner p = GroupLane run gIdx → owner p' = GroupLane run gIdx → p = p'.
Proof.
  intros (S1 & S2 & _). apply lane_children_unique.
  rewrite S1, <- list_fmap_compose. exact S2.
Qed.

(** [adds P w w']: every child of [w'] is a child of [w] or satisfies [P]. *)
Definition adds (P : Proc → Prop) (w w' : World) : Prop :=
  ∀ p, p ∈ procs w' → p ∈ procs w ∨ P p.

Lemma adds_same P w w' : procs w' = procs w → adds P w w'.
Proof. intros H p. rewrite H. by left. Qed.

Lemma adds_trans P w1 w2 w3 : adds P w1 w2 → adds P w2 w3 → adds P w1 w3.
Proof. intros H12 H23 p [Hp|Hp]%H23; [by apply H12 | by right]. Qed.

Lemma adds_mono (P Q : Proc → Prop) w w' : (∀ p, P p → Q p) → adds P w w' → adds Q w w'.
Proof. intros HPQ H p [Hp|Hp]%H; [by left | right; by apply HPQ]. Qed.

Definition is_flat (p : Proc) : Prop := ∃ t, owner p = FlatSlot t.

Lemma dispatch_adds t w : adds is_flat w (dispatch t w).
Proof.
  unfold dispatch. repeat case_match; try by apply adds_same.
  intros p. cbn. intros [Hp| ->%list_elem_of_singleton]%elem_of_app; [by left | right].
  by eexists.
Qed.

Lemma runSingle_iter_adds w : adds is_flat w (runSingle_iter w).
Proof.
  unfold runSingle_iter, dispatch_all. repeat case_match; try by apply adds_same.
  apply (foldl_invariant (adds is_flat w)).
  - intros a t Ha. eapply adds_trans; [exact Ha | apply dispatch_adds].
  - by apply adds_same.
Qed.

Lemma lane_resume_adds l w :
  adds (λ p, owner p = GroupLane (l_run l) (l_gidx l) ∧ pidx p = l_pos l) w (lane_resume l w).
Proof.
  unfold lane_resume. repeat case_match; try by apply adds_same.
  intros p. cbn. intros [Hp| ->%list_elem_of_singleton]%elem_of_app; [by left | by right].
Qed.

Lemma start_lanes_adds run groups gIdx w :
  adds (λ p, (∃ g, owner p = GroupLane run g) ∧ pidx p = 0) w (start_lanes run gIdx groups w).
Proof.
  revert gIdx w. induction groups as [|group rest IH]; intros gIdx w; simpl.
  - by apply adds_same.
  - eapply adds_trans; [|apply IH].
    eapply adds_mono; [|apply lane_resume_adds]. simpl. intros p [Ho Hi]. eauto.
Qed.

Lemma runGroups_adds w :
  adds (λ p, (∃ g, owner p = GroupLane (nextRun w) g) ∧ pidx p = 0) w (runGroups w).
Proof.
  unfold runGroups. eapply adds_trans; [|apply adds_same; unfold groups_settle; by case_match].
  eapply adds_trans; [|apply start_lanes_adds]. by apply adds_same.
Qed.

Lemma close_flat_procs p t code signal w : procs (close_flat p t code signal w) = procs w.
Proof. unfold close_flat, retry_policy. by repeat case_match. Qed.

(** The children that a step adds to the live ones. *)
Definition birth (w : World) (o : Op) (p : Proc) : Prop :=
  ∀ run gIdx, owner p = GroupLane run gIdx →
    (o = CallStart ∧ run = nextRun w ∧ pidx p = 0) ∨
    (∃ q code signal p0,
        o = ChildCloses q code signal ∧ find_proc q (procs w) = Some p0 ∧
        owner p0 = GroupLane run gIdx ∧ pidx p = S (pidx p0)).

Lemma is_flat_birth w o p : is_flat p → birth w o p.
Proof. intros [t Ht] run gIdx Ho. congruence. Qed.

Lemma on_close_adds q code signal w :
  synced w → adds (birth w (ChildCloses q code signal)) w (on_close q code signal w).
Proof.
  intros H. unfold on_close. destruct (find_proc q (procs w)) as [p0|] eqn:Hq; [|by apply adds_same].
  destruct (owner p0) as [t|run gIdx] eqn:Ho.
  - intros p. rewrite close_flat_procs. cbn. unfold remove_proc.
    intros [_ Hp]%list_elem_of_filter. by left.
  - destruct (synced_lane_of w q p0 run gIdx H Hq Ho)
      as (l1 & l2 & L1 & l & L2 & Hp & Hrm & HL & Hl & H1 & H2).
    pose proof H as (S1 & S2 & S3 & S4 & S5).
    assert (lane_key l = (run, gIdx)) as Hk.
    { injection Hl as Hr Hg _. unfold lane_key. by rewrite Hr, Hg. }
    rewrite HL in S2.
    destruct (lane_split run gIdx l L1 L2 Hk S2) as (Hfind & Hfilter & Hnotin & Hnd).
    injection Hl as Hr Hg Hpos.
    unfold close_group, resolve_lane.
    destruct (is_zero code); cbn; rewrite HL, Hfind.
    all: eapply adds_trans; [|apply adds_same; unfold groups_settle; by case_match].
    all: eapply adds_trans; [|eapply adds_mono; [|apply lane_resume_adds]].
    all: try (intros p; cbn; unfold remove_proc; intros [_ Hin]%list_elem_of_filter; by left).
    all: intros p [Hop Hip] run' gIdx' Ho'; right; exists q, code, signal, p0.
    all: rewrite Hop, Hr, Hg in Ho'; injection Ho' as <- <-.
    all: split_and!; [done | done | done | by rewrite Hip, Hpos].
Qed.

Lemma update_proc_pids q f l p :
  (∀ p, pid (f p) = pid p) → p ∈ update_proc q f l → pid p ∈ pid <$> l.
Proof.
  intros Hf (x & -> & Hx)%list_elem_of_fmap. apply list_elem_of_fmap. exists x.
  split; [|done]. by case_decide.
Qed.

Lemma apply_births w o p :
  synced w → p ∈ procs (apply w o) → pid p ∈ pid <$> procs w ∨ birth w o p.
Proof.
  intros H Hp.
  assert (∀ P, adds P w (apply w o) → (∀ x, P x → birth w o x) →
               pid p ∈ pid <$> procs w ∨ birth w o p) as Hadds.
  { intros P Ha HP. destruct (Ha p Hp) as [Hin|HPp]; [left | right; by apply HP].
    apply list_elem_of_fmap. by exists p. }
  destruct o; simpl in *.
  all: try (apply (Hadds (λ _, False)); [by apply adds_same | done]).
  - unfold start, run_installed in *. revert Hp Hadds. repeat case_match; simpl; intros Hp Hadds.
    + apply (Hadds (λ _, False)); [by apply adds_same | done].
    + apply (Hadds (λ p, (∃ g, owner p = GroupLane (nextRun w) g) ∧ pidx p = 0)).
      * eapply adds_trans; [|exact (runGroups_adds _)]. by apply adds_same.
      * intros x [[g Hg] Hi] run gIdx Ho. left. rewrite Hg in Ho. by injection Ho as <- _.
    + apply (Hadds is_flat); [|apply is_flat_birth].
      eapply adds_trans; [|apply runSingle_iter_adds]. by apply adds_same.
  - apply (Hadds (λ _, False)); [|done].
    unfold stopTask, kill_child. by repeat case_match; apply adds_same.
  - apply (Hadds is_flat); [|apply is_flat_birth].
    unfold continue. case_match; [by apply adds_same|].
    eapply adds_trans; [|apply runSingle_iter_adds]. by apply adds_same.
  - apply (Hadds (λ _, False)); [|done].
    unfold cancelTask. by repeat case_match; apply adds_same.
  - apply (Hadds is_flat); [|apply is_flat_birth].
    unfold on_wake. case_match; [by apply adds_same | apply runSingle_iter_adds].
  - apply (Hadds is_flat); [|apply is_flat_birth].
    unfold on_retry_timer. repeat case_match; try by apply adds_same.
    eapply adds_trans; [|apply runSingle_iter_adds]. by apply adds_same.
  - apply (Hadds (λ _, False)); [|done].
    unfold on_deadline, kill_overdue. by repeat case_match; apply adds_same.
  - left. unfold on_stdout in Hp. destruct (find_proc _ _); [|apply list_elem_of_fmap; by exists p].
    by apply (update_proc_pids pid0 (add_stdout data)).
  - left. unfold on_stderr in Hp. destruct (find_proc _ _); [|apply list_elem_of_fmap; by exists p].
    by apply (update_proc_pids pid0 (add_stderr data)).
  - apply (Hadds (birth w (ChildCloses pid0 code signal))); [by apply on_close_adds | done].
Qed.

(** Who is running: the owner and the position of every live child. *)
Definition census (w : World) : list (Owner * nat) := (λ p, (owner p, pidx p)) <$> procs w.

Lemma lane_resume_first run gIdx group w :
  isProcessing w = true → group ≠ [] →
  let w' := lane_resume {| l_run := run; l_gidx := gIdx; l_group := group; l_pos := 0 |} w in
  census w' = census w ++ [(GroupLane run gIdx, 0)] ∧
  lane_pos <$> lanes w' = (lane_pos <$> lanes w) ++ [(run, gIdx, 1)] ∧
  isProcessing w' = true.
Proof.
  intros Hp Hg. destruct group as [|task rest]; [done|].
  unfold lane_resume. simpl. rewrite Hp. unfold census. cbn. by rewrite !fmap_app.
Qed.

Lemma start_lanes_census run groups gIdx w :
  isProcessing w = true → Forall (λ g, g ≠ []) groups →
  let w' := start_lanes run gIdx groups w in
  census w' = census w ++ ((λ g, (GroupLane run g, 0)) <$> seq gIdx (length groups)) ∧
  lane_pos <$> lanes w' =
    (lane_pos <$> lanes w) ++ ((λ g, (run, g, 1)) <$> seq gIdx (length groups)) ∧
  isProcessing w' = true.
Proof.
  intros Hp Hg. revert gIdx w Hp.
  induction Hg as [|group rest Hgroup _ IH]; intros gIdx w Hp; simpl.
  - by rewrite !app_nil_r.
  - destruct (lane_resume_first run gIdx group w Hp Hgroup) as (E1 & E2 & E3).
    destruct (IH (S gIdx) _ E3) as (F1 & F2 & F3).
    rewrite F1, F2, E1, E2, <- !app_assoc. done.
Qed.

Lemma flat_fields (w w' : World) :
  flat_view w' = flat_view w →
  cfg w' = cfg w ∧ tasks w' = tasks w ∧ taskGroups w' = taskGroups w ∧
  threads w' = threads w ∧ processing w' = processing w ∧ processed w' = processed w ∧
  isPaused w' = isPaused w ∧ children w' = children w ∧ retryCount w' = retryCount w ∧
  timeouts w' = timeouts w ∧ globalRetryCount w' = globalRetryCount w ∧
  timers w' = timers w ∧ loops w' = loops w ∧ retryTimers w' = retryTimers w.
Proof. intros H. flat_eqs H. by split_and!. Qed.

Lemma start_lanes_flat run groups gIdx w : flat_view (start_lanes run gIdx groups w) = flat_view w.
Proof.
  apply (start_lanes_invariant (λ w', flat_view w' = flat_view w)); [|done].
  intros l w' <-. apply lane_resume_flat.
Qed.

Lemma start_idle (w : World) :
  isProcessing w = false →
  (start w).2 =
  run_installed (w |> hook beforeStart (EvBeforeStart (tasks w))
                   |> set_isProcessing true
                   |> set_isPaused false
                   |> fill_threads
                   |> hook afterStart EvAfterStart).
Proof. intros H. unfold start. by rewrite H. Qed.

Lemma run_installed_groups (w : World) : taskGroups w ≠ [] → run_installed w = runGroups w.
Proof. intros H. unfold run_installed. by destruct (taskGroups w). Qed.

Lemma run_installed_flat (w : World) : taskGroups w = [] → run_installed w = runSingle w.
Proof. intros H. unfold run_installed. by rewrite H. Qed.

Lemma runGroups_census (w : World) :
  isProcessing w = true → taskGroups w ≠ [] → Forall (λ g, g ≠ []) (taskGroups w) →
  census (runGroups w) =
    census w ++ ((λ g, (GroupLane (nextRun w) g, 0)) <$> seq 0 (length (taskGroups w))) ∧
  lane_pos <$> lanes (runGroups w) =
    (lane_pos <$> lanes w) ++ ((λ g, (nextRun w, g, 1)) <$> seq 0 (length (taskGroups w))) ∧
  isProcessing (runGroups w) = true ∧
  flat_view (runGroups w) = flat_view w.
Proof.
  intros Hp Hne Hg.
  destruct (start_lanes_census (nextRun w) (taskGroups w) 0 (set_nextRun (S (nextRun w)) w) Hp Hg)
    as (E1 & E2 & E3).
  assert (nextRun w ∈ l_run <$> lanes (start_lanes (nextRun w) 0 (taskGroups w)
                                        (set_nextRun (S (nextRun w)) w))) as Hin.
  { rewrite (list_fmap_compose lane_pos (λ k, k.1.1) _ : l_run <$> _ = _).
    rewrite E2, fmap_app. apply elem_of_app. right.
    destruct (taskGroups w); [done|]. simpl. left. }
  split_and!; [| | |apply runGroups_flat].
  all: unfold runGroups, groups_settle; rewrite (bool_decide_eq_true_2 _ Hin).
  - exact E1.
  - exact E2.
  - exact E3.
Qed.

Lemma grouped_start (c : Config) (groups : list (list ITask)) :
  groups ≠ [] → Forall (λ g, g ≠ []) groups →
  let w0 := run (new_manager c) [CallSetGroupedTasks groups; CallStart] in
  census w0 = (λ g, (GroupLane 0 g, 0)) <$> seq 0 (length groups) ∧
  lane_pos <$> lanes w0 = (λ g, (0, g, 1)) <$> seq 0 (length groups) ∧
  isProcessing w0 = true ∧
  threads w0 = replicate (totalThreads c) Null ∧ processing w0 = [] ∧
  timers w0 = [] ∧ timeouts w0 = ∅.
Proof.
  intros Hne Hg w0.
  assert (w0 = (start (setGroupedTasks groups (new_manager c))).2) as -> by reflexivity.
  rewrite start_idle by reflexivity. rewrite run_installed_groups by exact Hne.
  match goal with |- context [runGroups ?x] => set (w1 := x) end.
  destruct (runGroups_census w1 eq_refl Hne Hg) as (E1 & E2 & E3 & Hflat).
  destruct (flat_fields _ _ Hflat)
    as (_ & _ & _ & Ethreads & Eprocessing & _ & _ & _ & _ & Etimeouts & _ & Etimers & _).
  split_and!; [exact E1 | exact E2 | exact E3 | exact Ethreads | exact Eprocessing
              | exact Etimers | exact Etimeouts].
Qed.

(** * The flat scheduler during a run *)

(** The live children of flat mode: slot, task index and pid. *)
Definition flat_children (w : World) : list (nat * nat * nat) :=
  omap (λ p, match owner p with
             | FlatSlot t => Some (t, pidx p, pid p)
             | GroupLane _ _ => None
             end) (procs w).

(** [this.retryCount[i] || 0] *)
Definition retries (w : World) (i : nat) : nat := default 0 (retryCount w !! i).

(** What [runSingle] and the [close] listener keep true between them, as
    long as nothing is stopped, installed or started anew. *)
Record orderly (w : World) : Prop := {
  ord_nodup : NoDup (processing w);
  ord_slots : ∀ i, i ∈ processing w ↔ ∃ t, js_get (threads w) t = Val i;
  ord_inj : ∀ t t' i,
    js_get (threads w) t = Val i → js_get (threads w) t' = Val i → t = t';
  ord_child : ∀ t i q, (t, i, q) ∈ flat_children w → js_get (threads w) t = Val i;
  ord_one : ∀ t i q i' q',
    (t, i, q) ∈ flat_children w → (t, i', q') ∈ flat_children w → q = q';
  ord_disj : ∀ i, i ∈ processing w → i ∉ processed w;
  ord_len : length (threads w) = totalThreads (cfg w);
  ord_done : NoDup (processed w);
  ord_range : ∀ i, i ∈ processing w ∨ i ∈ processed w → i < length (tasks w);
  ord_timer : ∀ tm,
    tm ∈ timers w → tidx tm ∈ processing w ∧ timeouts w !! tidx tm = Some (tid tm);
  ord_retry : ∀ i,
    retries w i ≤ S (maxRetry (cfg w)) ∧
    (i ∉ processed w → retries w i ≤ maxRetry (cfg w))
}.

Lemma orderly_sub (w w' : World) :
  cfg w' = cfg w → threads w' = threads w → processing w' = processing w →
  processed w' = processed w → retryCount w' = retryCount w → timeouts w' = timeouts w →
  length (tasks w) ≤ length (tasks w') →
  (∀ x, x ∈ flat_children w' → x ∈ flat_children w) →
  (∀ tm, tm ∈ timers w' → tm ∈ timers w) →
  orderly w → orderly w'.
Proof.
  intros Hc Ht Hp Hd Hr Ho Hl Hf Hm [].
  constructor; unfold retries; rewrite ?Hc, ?Ht, ?Hp, ?Hd, ?Hr, ?Ho; eauto.
  intros i Hi. eapply Nat.lt_le_trans; [|exact Hl]. eauto.
Qed.

Lemma orderly_same (w w' : World) :
  cfg w' = cfg w → threads w' = threads w → processing w' = processing w →
  processed w' = processed w → retryCount w' = retryCount w → timeouts w' = timeouts w →
  tasks w' = tasks w → procs w' = procs w → timers w' = timers w →
  orderly w → orderly w'.
Proof.
  intros Hc Ht Hp Hd Hr Ho Hl Hf Hm. apply orderly_sub; try done.
  - by rewrite Hl.
  - unfold flat_children. by rewrite Hf.
  - by rewrite Hm.
Qed.

Lemma flat_children_grown (w w' : World) :
  lane_grown w w' → ∀ x, x ∈ flat_children w' → x ∈ flat_children w.
Proof.
  intros [_ Hg] x (p & Hp & Hx)%list_elem_of_omap.
  apply list_elem_of_omap. exists p. split; [|done].
  destruct (Hg p Hp) as [?|(run & gIdx & Ho)]; [done|]. by rewrite Ho in Hx.
Qed.

Lemma orderly_grown (w w' : World) : lane_grown w w' → orderly w → orderly w'.
Proof.
  intros Hg. pose proof Hg as [Hflat _].
  destruct (flat_fields _ _ Hflat)
    as (Ec & Et & _ & Eth & Ep & Ed & _ & _ & Er & Eo & _ & Em & _).
  apply orderly_sub; try done.
  - by rewrite Et.
  - by apply flat_children_grown.
  - by rewrite Em.
Qed.

Lemma flat_children_remove (q : nat) (w w' : World) :
  procs w' = remove_proc q (procs w) →
  ∀ x, x ∈ flat_children w' → x ∈ flat_children w ∧ x.2 ≠ q.
Proof.
  intros Hp x (p & Hin & Hx)%list_elem_of_omap. rewrite Hp in Hin.
  unfold remove_proc in Hin. apply list_elem_of_filter in Hin as [Hq Hin]. split.
  - apply list_elem_of_omap. by exists p.
  - destruct (owner p); [|done]. by injection Hx as <-.
Qed.

Lemma flat_children_update (q : nat) (f : Proc → Proc) (l : list Proc) :
  (∀ p, owner (f p) = owner p ∧ pidx (f p) = pidx p ∧ pid (f p) = pid p) →
  omap (λ p, match owner p with
             | FlatSlot t => Some (t, pidx p, pid p)
             | GroupLane _ _ => None
             end) (update_proc q f l) =
  omap (λ p, match owner p with
             | FlatSlot t => Some (t, pidx p, pid p)
             | GroupLane _ _ => None
             end) l.
Proof.
  intros Hf. unfold update_proc. induction l as [|x l IH]; [done|].
  csimpl. rewrite IH. destruct (Hf x) as (Ho & Hi & Hp).
  case_decide; [by rewrite Ho, Hi, Hp | done].
Qed.

Lemma js_get_null_lt {A} (l : list (Cell A)) (t : nat) : js_get l t = Null → t < length l.
Proof.
  unfold js_get. destruct (l !! t) eqn:E; [|done]. intros _. by eapply lookup_lt_Some.
Qed.

Lemma js_set_length_in {A} (l : list (Cell A)) (t : nat) (v : Cell A) :
  t < length l → length (js_set l t v) = length l.
Proof. intros Ht. rewrite js_set_length. lia. Qed.

(** The assignment of an idle slot to an eligible task. *)
Lemma assign_orderly (t i : nat) (task : ITask) (w : World) :
  js_get (threads w) t = Null → startable w i → orderly w → orderly (assign t i task w).
Proof.
  intros Hnull (Htask & Hnp & Hnd & _) [].
  assert (∀ x, x ∈ flat_children (assign t i task w) ↔
               x ∈ flat_children w ∨ x = (t, i, nextPid w)) as Hfc.
  { intros x. unfold flat_children. cbn. rewrite omap_app, elem_of_app. csimpl.
    by rewrite list_elem_of_singleton. }
  constructor; cbn.
  - apply NoDup_app. split_and!; [done | | apply NoDup_singleton].
    by intros x Hx ->%list_elem_of_singleton.
  - intros j. rewrite elem_of_app, list_elem_of_singleton, ord_slots0. split.
    + intros [(t' & Ht')| ->].
      * exists t'. rewrite js_get_set. case_decide; [congruence | done].
      * exists t. rewrite js_get_set. by case_decide.
    + intros (t' & Ht'). rewrite js_get_set in Ht'. case_decide.
      * right. congruence.
      * left. by exists t'.
  - intros t1 t2 j. rewrite !js_get_set. repeat case_decide; subst; try done.
    + intros [= <-] Hj. destruct Hnp. apply ord_slots0. by exists t2.
    + intros Hj [= <-]. destruct Hnp. apply ord_slots0. by exists t1.
    + apply ord_inj0.
  - intros t' j q [Hx|Hx]%Hfc.
    + rewrite js_get_set. case_decide; [|by eapply ord_child0].
      subst. apply ord_child0 in Hx. congruence.
    + injection Hx as -> -> ->. rewrite js_get_set. by case_decide.
  - intros t' j q j' q' [Hx|Hx]%Hfc [Hy|Hy]%Hfc.
    + by eapply ord_one0.
    + injection Hy as -> -> ->. apply ord_child0 in Hx. congruence.
    + injection Hx as -> -> ->. apply ord_child0 in Hy. congruence.
    + congruence.
  - intros j [Hj| ->%list_elem_of_singleton]%elem_of_app; [by apply ord_disj0 | done].
  - rewrite js_set_length_in; [done | by apply js_get_null_lt].
  - done.
  - intros j [[Hj| ->%list_elem_of_singleton]%elem_of_app|Hj]; eauto.
    destruct Htask as [task' Ht']. by eapply js_get_lt.
  - intros tm [Htm| ->%list_elem_of_singleton]%elem_of_app.
    + destruct (ord_timer0 tm Htm) as [Hin Hto]. split; [apply elem_of_app; by left|].
      rewrite lookup_insert_ne; [done | congruence].
    + split; [apply elem_of_app; right; by apply list_elem_of_singleton|].
      simpl. by rewrite lookup_insert_eq.
  - apply ord_retry0.
Qed.

Lemma dispatch_orderly (t : nat) (w : World) : orderly w → orderly (dispatch t w).
Proof.
  intros H. unfold dispatch.
  destruct (js_get (threads w) t) eqn:Ht; try done.
  pose proof (findIndex_startable w) as Hs.
  destruct (findIndex (eligible w) (tasks w)) as [i|]; [|done].
  destruct (js_get (tasks w) i) eqn:Hi; try done.
  apply assign_orderly; [done | apply Hs | done].
Qed.

Lemma runSingle_iter_orderly (w : World) : orderly w → orderly (runSingle_iter w).
Proof.
  intros H. unfold runSingle_iter, dispatch_all. repeat case_match; try done.
  - apply foldl_invariant; [intros; by apply dispatch_orderly|]. by apply (orderly_same w).
  - by apply (orderly_same w).
Qed.

Lemma close_flat_fields (p : Proc) (t : nat) code signal (w : World) :
  let w' := close_flat p t code signal w in
  cfg w' = cfg w ∧ tasks w' = tasks w ∧ procs w' = procs w ∧
  threads w' = js_set (threads w) t Null ∧
  processing w' = without (pidx p) (processing w) ∧
  timeouts w' = delete (pidx p) (timeouts w) ∧
  timers w' = match timeouts w !! pidx p with
              | Some id => filter (λ tm, tid tm ≠ id) (timers w)
              | None => timers w
              end ∧
  retryCount w' = (if is_zero code then retryCount w
                   else <[pidx p := retries w (pidx p) + 1]> (retryCount w)) ∧
  (processed w' = push_new (pidx p) (processed w) ∨
   (is_zero code = false ∧ retries w (pidx p) + 1 ≤ maxRetry (cfg w) ∧
    processed w' = without (pidx p) (push_new (pidx p) (processed w)))).
Proof.
  intros w'. subst w'. unfold close_flat. destruct (is_zero code) eqn:Hz.
  - cbn. split_and!; try done. by left.
  - unfold retry_policy. cbn. rewrite !lookup_insert_eq. cbn [default].
    fold (retries w (pidx p)).
    case_match eqn:Hc; [|case_match]; cbn; split_and!; try reflexivity; try (by left).
    right. apply andb_true_iff in Hc as [E1%Nat.leb_le _]. by split_and!.
Qed.

Lemma close_flat_orderly (q : nat) (p : Proc) (t : nat) code signal (w : World) :
  find_proc q (procs w) = Some p → owner p = FlatSlot t → orderly w →
  orderly (close_flat p t code signal (upd_procs (remove_proc q) w)).
Proof.
  intros Hq Ho H. pose proof H as [].
  apply find_proc_Some in Hq as [Hin Hpid].
  assert ((t, pidx p, q) ∈ flat_children w) as Hc.
  { apply list_elem_of_omap. exists p. by rewrite Ho, Hpid. }
  assert (js_get (threads w) t = Val (pidx p)) as Hslot by eauto.
  assert (pidx p ∈ processing w) as Hproc by (apply ord_slots0; eauto).
  assert (pidx p ∉ processed w) as Hnd by auto.
  destruct (close_flat_fields p t code signal (upd_procs (remove_proc q) w))
    as (Ec & Et & Ep & Eth & Epr & Eto & Etm & Erc & Epd).
  generalize dependent (close_flat p t code signal (upd_procs (remove_proc q) w)).
  intros w'. cbn. intros Ec Et Ep Eth Epr Eto Etm Erc Epd.
  assert (∀ x, x ∈ flat_children w' → x ∈ flat_children w ∧ x.2 ≠ q) as Hfc
    by (by apply (flat_children_remove q w)).
  constructor.
  - rewrite Epr. by apply NoDup_without.
  - intros j. rewrite Epr, Eth, elem_of_without, ord_slots0. split.
    + intros [Hne (t' & Ht')]. exists t'. rewrite js_get_set.
      case_decide; [congruence | done].
    + intros (t' & Ht'). rewrite js_get_set in Ht'. case_decide; [done|].
      split; [|eauto]. intros ->. eauto.
  - intros t1 t2 j. rewrite Eth, !js_get_set. repeat case_decide; try done. apply ord_inj0.
  - intros t' j q' [Hx Hne]%Hfc. simpl in Hne. rewrite Eth, js_get_set.
    case_decide; [|eauto]. subst t'. destruct Hne. symmetry. eauto.
  - intros t' j q1 j' q2 [Hx _]%Hfc [Hy _]%Hfc. eauto.
  - intros j. rewrite Epr, elem_of_without. intros [Hne Hj] Hd.
    apply (ord_disj0 j Hj).
    destruct Epd as [Epd | (_ & _ & Epd)]; rewrite Epd in Hd.
    + apply elem_of_push_new in Hd as [?|?]; done.
    + apply elem_of_without in Hd as [_ [?|?]%elem_of_push_new]; done.
  - rewrite Eth, Ec. rewrite js_set_length_in; [done | by eapply js_get_lt].
  - destruct Epd as [Epd | (_ & _ & Epd)]; rewrite Epd.
    + by apply NoDup_push_new.
    + by apply NoDup_without, NoDup_push_new.
  - rewrite Et, Epr. intros j [[_ Hj]%elem_of_without|Hj]; [eauto|].
    destruct Epd as [Epd | (_ & _ & Epd)]; rewrite Epd in Hj.
    + apply elem_of_push_new in Hj as [->|?]; eauto.
    + apply elem_of_without in Hj as [_ [->|?]%elem_of_push_new]; eauto.
  - intros tm. rewrite Etm, Epr, Eto. intros Htm.
    assert (tm ∈ timers w ∧ tidx tm ≠ pidx p) as [Hin' Hne].
    { destruct (timeouts w !! pidx p) as [id|] eqn:Eid.
      - apply list_elem_of_filter in Htm as [Hid Htm]. split; [done|].
        intros Heq. destruct (ord_timer0 tm Htm) as [_ Hto]. congruence.
      - split; [done|]. intros Heq. destruct (ord_timer0 tm Htm) as [_ Hto]. congruence. }
    destruct (ord_timer0 tm Hin') as [Hp Hto]. split.
    + by apply elem_of_without.
    + by rewrite lookup_delete_ne.
  - intros j. unfold retries. rewrite Erc, Ec. unfold retries.
    change (retryCount (upd_procs (remove_proc q) w)) with (retryCount w).
    assert (j ∉ processed w' → j ≠ pidx p → j ∉ processed w) as Hback.
    { intros Hj Hne Hd. apply Hj.
      destruct Epd as [Epd | (_ & _ & Epd)]; rewrite Epd.
      - apply elem_of_push_new. by right.
      - apply elem_of_without. split; [done|]. apply elem_of_push_new. by right. }
    destruct (is_zero code) eqn:Hz.
    + split; [apply ord_retry0|]. intros Hj. apply ord_retry0.
      destruct (decide (j = pidx p)) as [->|Hne]; [done | by apply Hback].
    + destruct (decide (j = pidx p)) as [->|Hne].
      * rewrite lookup_insert_eq. simpl.
        destruct (ord_retry0 (pidx p)) as [_ Hle]. specialize (Hle Hnd).
        unfold retries in Hle. split; [lia|]. intros Hni.
        destruct Epd as [Epd | (_ & Hok & _)]; [|done].
        destruct Hni. rewrite Epd. apply elem_of_push_new. by left.
      * rewrite lookup_insert_ne by done.
        split; [apply ord_retry0|]. intros Hj. apply ord_retry0. by apply Hback.
Qed.

Lemma on_close_orderly (q : nat) code signal (w : World) :
  orderly w → orderly (on_close q code signal w).
Proof.
  intros H. unfold on_close. destruct (find_proc q (procs w)) as [p|] eqn:Hq; [|done].
  destruct (owner p) as [t|run gIdx] eqn:Ho.
  - by apply (close_flat_orderly q).
  - eapply orderly_grown; [apply close_group_grown|].
    apply (orderly_sub w); try done.
    intros x Hx.
    by destruct (flat_children_remove q w (upd_procs (remove_proc q) w) eq_refl x Hx).
Qed.

Lemma apply_orderly (w : World) (o : Op) : scheduling o → orderly w → orderly (apply w o).
Proof.
  intros Ho H. destruct o; try done; simpl.
  - by apply (orderly_same w).
  - unfold continue. case_match; [done|].
    apply runSingle_iter_orderly. by apply (orderly_same w).
  - unfold cancelTask. case_match; [done|]. apply (orderly_sub w); try done.
    cbn. rewrite js_set_length. lia.
  - unfold on_wake. case_match; [done|]. by apply runSingle_iter_orderly.
  - unfold on_retry_timer. repeat case_match; try done.
    + apply runSingle_iter_orderly. by apply (orderly_same w).
    + by apply (orderly_same w).
  - unfold on_deadline, kill_overdue. repeat case_match; try done.
    all: apply (orderly_sub w); try done.
    all: cbn; by intros tm [_ ?]%list_elem_of_filter.
  - unfold on_stdout. case_match; [|done]. apply (orderly_sub w); try done.
    intros x. unfold flat_children. cbn. by rewrite flat_children_update.
  - unfold on_stderr. case_match; [|done]. apply (orderly_sub w); try done.
    intros x. unfold flat_children. cbn. by rewrite flat_children_update.
  - by apply on_close_orderly.
Qed.

Lemma orderly_idle (w : World) :
  processing w = [] → processed w = [] →
  threads w = replicate (totalThreads (cfg w)) Null →
  procs w = [] → timers w = [] → retryCount w = ∅ → orderly w.
Proof.
  intros Hp Hd Ht Hc Hm Hr.
  constructor; unfold retries, flat_children; rewrite ?Hp, ?Hd, ?Ht, ?Hc, ?Hm, ?Hr.
  - apply NoDup_nil_2.
  - intros i. split; [by intros ?%elem_of_nil|]. intros (t & Hi).
    unfold js_get in Hi. destruct (replicate _ _ !! t) eqn:E; [|done].
    apply lookup_replicate in E as [-> _]. done.
  - intros t t' i Hi. unfold js_get in Hi. destruct (replicate _ _ !! t) eqn:E; [|done].
    apply lookup_replicate in E as [-> _]. done.
  - by intros t i q ?%elem_of_nil.
  - by intros t i q i' q' ?%elem_of_nil.
  - by intros i ?%elem_of_nil.
  - by rewrite length_replicate.
  - apply NoDup_nil_2.
  - by intros i [?%elem_of_nil|?%elem_of_nil].
  - by intros tm ?%elem_of_nil.
  - intros i. rewrite lookup_empty. simpl. split; lia.
Qed.

(** The state in which [setTasks] followed by [start] leaves a new manager. *)
Definition fresh_run (c : Config) (ts : list ITask) : World :=
  run (new_manager c) [CallSetTasks ts; CallStart].

Lemma fresh_run_orderly (c : Config) (ts : list ITask) : orderly (fresh_run c ts).
Proof.
  assert (fresh_run c ts = (start (setTasks ts (new_manager c))).2) as -> by reflexivity.
  rewrite start_idle by reflexivity. rewrite run_installed_flat by reflexivity.
  apply runSingle_iter_orderly. by apply orderly_idle.
Qed.

Lemma run_orderly (ops : list Op) (w : World) :
  Forall scheduling ops → orderly w → orderly (run w ops).
Proof. apply run_invariant. intros. by apply apply_orderly. Qed.

Lemma occupants_length (l : list nat) (th : list (Cell nat)) :
  NoDup l → (∀ i, i ∈ l → ∃ t, js_get th t = Val i) → length l ≤ length th.
Proof.
  intros Hnd Hin.
  set (occ := omap (λ c : Cell nat, match c with Val i => Some i | _ => None end) th).
  assert (length occ ≤ length th) as Hocc.
  { subst occ. clear. induction th as [|c th IH]; [done|]. csimpl.
    destruct c; simpl; lia. }
  etrans; [|exact Hocc]. apply submseteq_length, NoDup_submseteq; [done|].
  intros i (t & Ht)%Hin. apply list_elem_of_omap. exists (Val i). split; [|done].
  apply js_get_lookup in Ht. by eapply list_elem_of_lookup_2.
Qed.


(** Two worker slots, [maxRetry = 1], every hook installed. *)
Definition two_slots : Config :=
  {| totalThreads := 2; sleep := 100%N; maxRetry := 1; defaultTimeout := 600000%N;
     retryDelay := 1000%N; globalRetryLimit := 100; logLevel := LInfo;
     killSignal := SIGTERM; hooks := all_hooks |}.

Definition three_tasks : list ITask := [task_of "a"; task_of "b"; task_of "c"].

(** X1: during a run in flat mode (after [setTasks] and [start], through
    any turns of the event loop, [pause], [continue] and [cancelTask]) the
    in-flight indices are exactly the occupants of the worker slots, no
    index occupies two slots, every live child sits in the slot that holds
    its index, a slot has at most one live child, no in-flight index is in
    the completed list, and so at most [totalThreads] tasks are in flight. *)
Theorem flat_slots_invariant (c : Config) (ts : list ITask) (ops : list Op) :
  Forall scheduling ops →
  let w := run (fresh_run c ts) ops in
  length (processing w) ≤ totalThreads c ∧
  NoDup (processing w) ∧
  (∀ i, i ∈ processing w ↔ ∃ t, t < totalThreads c ∧ js_get (threads w) t = Val i) ∧
  (∀ t t' i, js_get (threads w) t = Val i → js_get (threads w) t' = Val i → t = t') ∧
  (∀ p t, p ∈ procs w → owner p = FlatSlot t → js_get (threads w) t = Val (pidx p)) ∧
  (∀ p p' t, p ∈ procs w → p' ∈ procs w → owner p = FlatSlot t → owner p' = FlatSlot t →
             pid p = pid p') ∧
  (∀ i, i ∈ processing w → i ∉ processed w).
Proof.
  intros Hops w.
  assert (orderly w) as [] by (apply run_orderly; [done | apply fresh_run_orderly]).
  assert (cfg w = c) as Hc by (unfold w, fresh_run; by rewrite !run_cfg).
  rewrite Hc in ord_len0.
  assert (∀ p t, p ∈ procs w → owner p = FlatSlot t → (t, pidx p, pid p) ∈ flat_children w)
    as Hfc.
  { intros p t Hp Ho. apply list_elem_of_omap. exists p. by rewrite Ho. }
  split_and!; try done.
  - rewrite <- ord_len0. apply occupants_length; [done|]. by intros i ?%ord_slots0.
  - intros i. rewrite ord_slots0. split; intros (t & Ht); [|by destruct Ht; eauto].
    exists t. split; [|done]. rewrite <- ord_len0. by eapply js_get_lt.
  - intros p t Hp Ho. eauto.
  - intros p p' t Hp Hp' Ho Ho'. eauto.
Qed.

Lemma flat_slots_invariant_witness :
  length (processing (run (fresh_run two_slots three_tasks)
                          [LoopWakes; ChildCloses 0 (Some 1%Z) None; RetryTimerFires;
                           LoopWakes])) ≤ 2.
Proof.
  refine (proj1 (flat_slots_invariant two_slots three_tasks _ _)). repeat constructor.
Defined.





(** ** A finished task stays finished *)

Definition all_flat (w : World) : Prop := ∀ p, p ∈ procs w → is_flat p.

Lemma adds_all_flat (w w' : World) : adds is_flat w w' → all_flat w → all_flat w'.
Proof. intros Ha H p [Hp|Hp]%Ha; [by apply H | done]. Qed.

Lemma all_flat_same (w w' : World) : procs w' = procs w → all_flat w → all_flat w'.
Proof. intros Hp H p. rewrite Hp. apply H. Qed.

Lemma update_proc_all_flat (q : nat) (f : Proc → Proc) (w w' : World) :
  (∀ p, owner (f p) = owner p) → procs w' = update_proc q f (procs w) →
  all_flat w → all_flat w'.
Proof.
  intros Hf Hp H p. rewrite Hp. unfold update_proc.
  intros (x & -> & Hx)%list_elem_of_fmap. destruct (H x Hx) as [t Ht].
  exists t. case_decide; [by rewrite Hf | done].
Qed.

Lemma on_close_all_flat (q : nat) code signal (w : World) :
  all_flat w → all_flat (on_close q code signal w).
Proof.
  intros H. unfold on_close. destruct (find_proc q (procs w)) as [p|] eqn:Hq; [|done].
  destruct (find_proc_Some _ _ _ Hq) as [Hin _]. destruct (H p Hin) as [t Ht]. rewrite Ht.
  intros p'. rewrite close_flat_procs. cbn. unfold remove_proc.
  intros [_ Hp']%list_elem_of_filter. by apply H.
Qed.

Lemma apply_all_flat (w : World) (o : Op) : scheduling o → all_flat w → all_flat (apply w o).
Proof.
  intros Ho H. destruct o as [ts|groups| |sg|index sg| | |index|sg| | |timer|q data|q data|q code sig];
    try done; simpl.
  - unfold continue. case_match; [done|].
    eapply adds_all_flat; [apply runSingle_iter_adds|]. by apply (all_flat_same w).
  - unfold cancelTask. case_match; [done | by apply (all_flat_same w)].
  - unfold on_wake. case_match; [done|].
    eapply adds_all_flat; [apply runSingle_iter_adds | done].
  - unfold on_retry_timer. repeat case_match; try done.
    eapply adds_all_flat; [apply runSingle_iter_adds|]. by apply (all_flat_same w).
  - unfold on_deadline, kill_overdue. by repeat case_match; apply (all_flat_same w).
  - unfold on_stdout. case_match; [|done].
    by apply (update_proc_all_flat q (add_stdout data) w).
  - unfold on_stderr. case_match; [|done].
    by apply (update_proc_all_flat q (add_stderr data) w).
  - by apply on_close_all_flat.
Qed.

Lemma fresh_run_all_flat (c : Config) (ts : list ITask) : all_flat (fresh_run c ts).
Proof.
  assert (fresh_run c ts = (start (setTasks ts (new_manager c))).2) as -> by reflexivity.
  rewrite start_idle by reflexivity. rewrite run_installed_flat by reflexivity.
  eapply adds_all_flat; [apply runSingle_iter_adds|]. by intros p ?%elem_of_nil.
Qed.

Lemma close_flat_status (p : Proc) (t : nat) code signal (w : World) :
  taskStatus (close_flat p t code signal w) =
  <[pidx p := if is_zero code then Done else Failed]> (taskStatus w).
Proof.
  unfold close_flat, retry_policy. destruct (is_zero code); [done|]. by repeat case_match.
Qed.

(** Index [i] is in the completed list and no child runs for it. *)
Definition settled (i : nat) (w : World) : Prop :=
  orderly w ∧ all_flat w ∧ i ∈ processed w ∧ i ∉ processing w.

Lemma dispatch_settled (i t : nat) (w : World) :
  settled i w →
  settled i (dispatch t w) ∧ taskStatus (dispatch t w) !! i = taskStatus w !! i.
Proof.
  intros (Hord & Hflat & Hd & Hp).
  assert (settled i (dispatch t w)) as Hs.
  { split_and!; [by apply dispatch_orderly | | |].
    - eapply adds_all_flat; [apply dispatch_adds | done].
    - unfold dispatch. by repeat case_match.
    - unfold dispatch. pose proof (findIndex_startable w) as Hst.
      repeat case_match; try done. cbn.
      intros [?| ->%list_elem_of_singleton]%elem_of_app; [done|].
      by destruct Hst as [(_ & _ & ? & _) _]. }
  split; [done|]. unfold dispatch. pose proof (findIndex_startable w) as Hst.
  repeat case_match; try done. cbn. rewrite lookup_insert_ne; [done|].
  intros ->. by destruct Hst as [(_ & _ & ? & _) _].
Qed.

Lemma runSingle_iter_settled (i : nat) (w : World) :
  settled i w →
  settled i (runSingle_iter w) ∧ taskStatus (runSingle_iter w) !! i = taskStatus w !! i.
Proof.
  intros H. unfold runSingle_iter, dispatch_all. pose proof H as (Ho & Hf & Hd & Hp).
  repeat case_match; try done.
  - apply (foldl_invariant (λ w', settled i w' ∧ taskStatus w' !! i = taskStatus w !! i)).
    + intros a t [Ha <-]. by apply dispatch_settled.
    + split; [|done].
      split_and!; [by apply (orderly_same w) | by apply (all_flat_same w) | done | done].
  - split; [|done].
    split_and!; [by apply (orderly_same w) | by apply (all_flat_same w) | done | done].
Qed.

Lemma on_close_settled (i q : nat) code signal (w : World) :
  settled i w →
  settled i (on_close q code signal w) ∧
  taskStatus (on_close q code signal w) !! i = taskStatus w !! i.
Proof.
  intros H. pose proof H as (Hord & Hflat & Hd & Hp).
  assert (orderly (on_close q code signal w)) as Hord' by (by apply on_close_orderly).
  assert (all_flat (on_close q code signal w)) as Hflat' by (by apply on_close_all_flat).
  unfold on_close in *. destruct (find_proc q (procs w)) as [p|] eqn:Hq; [|done].
  destruct (find_proc_Some _ _ _ Hq) as [Hin Hpid].
  destruct (Hflat p Hin) as [t Ht]. rewrite Ht in *.
  assert (pidx p ∈ processing w) as Hproc.
  { destruct Hord. apply ord_slots0. exists t. apply (ord_child0 t (pidx p) q).
    apply list_elem_of_omap. exists p. by rewrite Ht, Hpid. }
  assert (pidx p ≠ i) as Hne by (by intros <-).
  rewrite close_flat_status.
  destruct (close_flat_fields p t code signal (upd_procs (remove_proc q) w))
    as (_ & _ & _ & _ & Epr & _ & _ & _ & Epd).
  split; [|by rewrite lookup_insert_ne].
  split_and!; [done | done | |].
  - destruct Epd as [Epd | (_ & _ & Epd)]; rewrite Epd.
    + apply elem_of_push_new. by right.
    + apply elem_of_without. split; [done|]. apply elem_of_push_new. by right.
  - rewrite Epr. by intros [_ ?]%elem_of_without.
Qed.

Lemma apply_settled (i : nat) (w : World) (o : Op) :
  scheduling o → settled i w →
  settled i (apply w o) ∧
  (o ≠ CallCancelTask i → taskStatus (apply w o) !! i = taskStatus w !! i).
Proof.
  intros Ho H. pose proof H as (Hord & Hflat & Hd & Hp).
  assert (orderly (apply w o)) as Hord' by (by apply apply_orderly).
  assert (all_flat (apply w o)) as Hflat' by (by apply apply_all_flat).
  destruct o as [ts|groups| |sg|index sg| | |index|sg| | |timer|q data|q data|q code sig];
    try done; simpl in *.
  - unfold continue in *. case_match; [done|].
    assert (settled i (upd_loops S (set_isProcessing true (set_isPaused false w)))) as Hs
      by (by split_and!; [apply (orderly_same w) | apply (all_flat_same w) | |]).
    destruct (runSingle_iter_settled i _ Hs) as [? ?]. by split.
  - unfold cancelTask in *. case_match; [done|]. split; [by split_and!|].
    intros Hne. cbn. rewrite lookup_insert_ne; [done | congruence].
  - unfold on_wake in *. case_match; [done|].
    destruct (runSingle_iter_settled i _ H) as [? ?]. by split.
  - unfold on_retry_timer in *. repeat case_match; try done.
    assert (settled i (upd_loops S (set_retryTimers n w))) as Hs
      by (by split_and!; [apply (orderly_same w) | apply (all_flat_same w) | |]).
    destruct (runSingle_iter_settled i _ Hs) as [? ?]. by split.
  - unfold on_deadline, kill_overdue in *.
    destruct (find_timer timer (timers w)) as [tm|] eqn:Htm; [|done].
    assert (tidx tm ≠ i) as Hne.
    { intros <-. destruct Hord. apply Hp, (ord_timer0 tm).
      clear -Htm. induction (timers w) as [|x l IH]; [done|].
      unfold find_timer in Htm. fold find_timer in Htm.
      case_decide; [injection Htm as ->; left | right; by apply IH]. }
    repeat case_match; cbn; (split; [by split_and!|]); intros _;
      by rewrite lookup_insert_ne.
  - unfold on_stdout in *. case_match; [|done]. by split; [split_and!|].
  - unfold on_stderr in *. case_match; [|done]. by split; [split_and!|].
  - destruct (on_close_settled i q code sig w H) as [? ?]. by split.
Qed.

Lemma run_settled (i : nat) (ops : list Op) (w : World) :
  Forall scheduling ops → settled i w →
  settled i (run w ops) ∧
  (Forall (λ o, o ≠ CallCancelTask i) ops → taskStatus (run w ops) !! i = taskStatus w !! i).
Proof.
  intros Hops. revert w. induction Hops as [|o ops Ho _ IH]; intros w H; simpl; [done|].
  destruct (apply_settled i w o Ho H) as [Hs Hst].
  destruct (IH _ Hs) as [Hs' Hst']. split; [done|].
  intros [Hne Hrest]%Forall_cons. rewrite Hst' by done. by apply Hst.
Qed.

(** X4: a task whose process exits with code 0 during a run in flat mode is
    finished for good: through any later turns of the event loop, [pause],
    [continue] and [cancelTask], its index stays in the completed list, is
    never in flight again and no process runs for it; its status stays
    [done] unless [cancelTask] is called for it. *)
Theorem done_is_final (c : Config) (ts : list ITask) (ops ops' : list Op)
    (q : nat) (p : Proc) (signal : option Signal) :
  Forall scheduling ops → Forall scheduling ops' →
  find_proc q (procs (run (fresh_run c ts) ops)) = Some p →
  let w' := run (on_close q (Some 0%Z) signal (run (fresh_run c ts) ops)) ops' in
  pidx p ∈ processed w' ∧ pidx p ∉ processing w' ∧
  (∀ p', p' ∈ procs w' → pidx p' ≠ pidx p) ∧
  (Forall (λ o, o ≠ CallCancelTask (pidx p)) ops' → taskStatus w' !! pidx p = Some Done).
Proof.
  intros Hops Hops' Hq. set (w := run (fresh_run c ts) ops) in *.
  assert (orderly w) as Hord by (apply run_orderly; [done | apply fresh_run_orderly]).
  assert (all_flat w) as Hflat.
  { apply (run_invariant all_flat scheduling); [apply apply_all_flat | done |].
    apply fresh_run_all_flat. }
  destruct (find_proc_Some _ _ _ Hq) as [Hin Hpid]. destruct (Hflat p Hin) as [t Ht].
  assert (settled (pidx p) (on_close q (Some 0%Z) signal w) ∧
          taskStatus (on_close q (Some 0%Z) signal w) !! pidx p = Some Done) as [Hs Hst].
  { assert (orderly (on_close q (Some 0%Z) signal w)) as Hord' by (by apply on_close_orderly).
    assert (all_flat (on_close q (Some 0%Z) signal w)) as Hflat'
      by (by apply on_close_all_flat).
    unfold on_close in *. rewrite Hq, Ht in *. rewrite close_flat_status.
    destruct (close_flat_fields p t (Some 0%Z) signal (upd_procs (remove_proc q) w))
      as (_ & _ & _ & _ & Epr & _ & _ & _ & Epd).
    split; [|by rewrite lookup_insert_eq]. split_and!; [done | done | |].
    - destruct Epd as [Epd | (? & _)]; [|done]. rewrite Epd. apply elem_of_push_new. by left.
    - rewrite Epr. by intros [? _]%elem_of_without. }
  intros w'. destruct (run_settled (pidx p) ops' _ Hops' Hs) as [(Ho' & Hf' & Hd' & Hp') Hst'].
  split_and!; [done | done | |].
  - intros p' Hp'in Heq. destruct (Hf' p' Hp'in) as [t' Ht']. apply Hp'.
    destruct Ho'. apply ord_slots0. exists t'. rewrite <- Heq.
    apply (ord_child0 t' (pidx p') (pid p')). apply list_elem_of_omap. exists p'.
    by rewrite Ht'.
  - intros Hnc. subst w'. by rewrite Hst'.
Qed.

Lemma done_is_final_witness :
  let p := {| pid := 0; owner := FlatSlot 0; pidx := 0; ptask := task_of "a";
              pout := ""; perr := "" |} in
  taskStatus (run (on_close 0 (Some 0%Z) None (run (fresh_run two_slots three_tasks) []))
                  [LoopWakes; ChildCloses 1 (Some 1%Z) None; RetryTimerFires; CallCancelTask 2])
    !! pidx p = Some Done.
Proof.
  intros p.
  refine (proj2 (proj2 (proj2 (done_is_final two_slots three_tasks [] _ 0 p None _ _ _))) _).
  - constructor.
  - repeat constructor.
  - vm_compute. reflexivity.
  - repeat constructor; discriminate.
Defined.

(** * Grouped mode *)

Definition two_groups : list (list ITask) :=
  [[task_of "a"; task_of "b"]; [task_of "c"]].

(** One worker slot and no retries, every hook installed. *)
Definition one_slot_config : Config :=
  {| totalThreads := 1; sleep := 100%N; maxRetry := 0; defaultTimeout := 600000%N;
     retryDelay := 1000%N; globalRetryLimit := 100; logLevel := LInfo;
     killSignal := SIGTERM; hooks := all_hooks |}.

Lemma lane_resume_first_pid run gIdx group w :
  isProcessing w = true → group ≠ [] →
  nextPid (lane_resume {| l_run := run; l_gidx := gIdx; l_group := group; l_pos := 0 |} w)
  = S (nextPid w).
Proof.
  intros Hp Hg. destruct group as [|task rest]; [done|].
  unfold lane_resume. simpl. by rewrite Hp.
Qed.

Lemma start_lanes_pids run groups gIdx w :
  isProcessing w = true → Forall (λ g, g ≠ []) groups →
  nextPid (start_lanes run gIdx groups w) = nextPid w + length groups.
Proof.
  intros Hp Hg. revert gIdx w Hp.
  induction Hg as [|group rest Hgroup _ IH]; intros gIdx w Hp; simpl; [lia|].
  destruct (lane_resume_first run gIdx group w Hp Hgroup) as (_ & _ & E3).
  rewrite (IH (S gIdx) _ E3), lane_resume_first_pid by done. lia.
Qed.

Lemma runGroups_spawns (w : World) :
  isProcessing w = true → taskGroups w ≠ [] → Forall (λ g, g ≠ []) (taskGroups w) →
  spawn_count (runGroups w) = spawn_count w + length (taskGroups w).
Proof.
  intros Hp Hne Hg. pose proof (runGroups_spawn_sync w) as Hs. unfold spawn_sync in Hs.
  assert (nextPid (runGroups w) = nextPid w + length (taskGroups w)) as Hn; [|lia].
  unfold runGroups, groups_settle. case_match; cbn.
  all: by rewrite (start_lanes_pids _ _ _ (set_nextRun _ w)).
Qed.

Lemma start_prelude_spawns (w : World) :
  spawn_count (w |> hook beforeStart (EvBeforeStart (tasks w))
                 |> set_isProcessing true
                 |> set_isPaused false
                 |> fill_threads
                 |> hook afterStart EvAfterStart) = spawn_count w.
Proof.
  unfold spawn_count. cbn. rewrite !List.filter_app, !length_app.
  destruct (beforeStart (hooks (cfg w))), (afterStart (hooks (cfg w))); simpl; lia.
Qed.

Lemma grouped_start_spawns (c : Config) (groups : list (list ITask)) :
  groups ≠ [] → Forall (λ g, g ≠ []) groups →
  spawn_count (run (new_manager c) [CallSetGroupedTasks groups; CallStart]) = length groups.
Proof.
  intros Hne Hg.
  assert (run (new_manager c) [CallSetGroupedTasks groups; CallStart]
          = (start (setGroupedTasks groups (new_manager c))).2) as -> by reflexivity.
  rewrite start_idle by reflexivity. rewrite run_installed_groups by exact Hne.
  rewrite runGroups_spawns; [|reflexivity|exact Hne|exact Hg].
  rewrite start_prelude_spawns. reflexivity.
Qed.

(** X5: [start] after [setGroupedTasks] on a new manager, every group being
    non-empty, spawns the first task of every group at once, one child per
    group in the order of the groups, whatever the number of worker slots;
    no slot is occupied, nothing is in flight in the sense of flat mode, and
    no deadline timer is armed. *)
Theorem groups_start_together (c : Config) (groups : list (list ITask)) :
  groups ≠ [] → Forall (λ g, g ≠ []) groups →
  let w := run (new_manager c) [CallSetGroupedTasks groups; CallStart] in
  census w = (λ g, (GroupLane 0 g, 0)) <$> seq 0 (length groups) ∧
  length (procs w) = length groups ∧
  spawn_count w = length groups ∧
  isProcessing w = true ∧
  threads w = replicate (totalThreads c) Null ∧ processing w = [] ∧
  timers w = [] ∧ timeouts w = ∅.
Proof.
  intros Hne Hg.
  pose proof (grouped_start c groups Hne Hg) as (Hc & _ & Hp & Ht & Hpr & Htm & Hto).
  pose proof (grouped_start_spawns c groups Hne Hg) as Hs.
  generalize dependent (run (new_manager c) [CallSetGroupedTasks groups; CallStart]).
  intros w Hc Hp Ht Hpr Htm Hto Hs. cbv zeta.
  assert (length (procs w) = length groups) as Hlen.
  { rewrite <- (length_fmap (λ p, (owner p, pidx p))). fold (census w).
    by rewrite Hc, length_fmap, length_seq. }
  by split_and!.
Qed.

Lemma groups_start_together_witness :
  census (run (new_manager one_slot_config) [CallSetGroupedTasks two_groups; CallStart])
  = [(GroupLane 0 0, 0); (GroupLane 0 1, 0)].
Proof.
  refine (proj1 (groups_start_together one_slot_config two_groups _ _)).
  - discriminate.
  - repeat constructor; discriminate.
Defined.

Lemma on_close_gone (q : nat) code signal (w : World) :
  pids_fresh w → find_proc q (procs (on_close q code signal w)) = None.
Proof.
  intros Hf. apply find_proc_None. intros p Hp.
  destruct (on_close_extends q code signal w) as [_ (new & Hprocs & Hnew)].
  rewrite Hprocs in Hp. cbn in Hp, Hnew. apply elem_of_app in Hp as [Hp|Hp].
  - unfold remove_proc in Hp. by apply list_elem_of_filter in Hp as [? _].
  - destruct (Hnew p Hp) as [[Hge _] _]. intros Heq.
    destruct (find_proc q (procs w)) as [p0|] eqn:Hq.
    + apply find_proc_Some in Hq as [Hin Hpid]. specialize (Hf p0 Hin). lia.
    + unfold on_close in Hprocs. rewrite Hq in Hprocs.
      assert (new = []) as ->; [|by apply elem_of_nil in Hp].
      apply (f_equal length) in Hprocs. rewrite length_app in Hprocs. cbn in Hprocs.
      assert (length (remove_proc q (procs w)) = length (procs w)) as Hl.
      { f_equal. unfold remove_proc. apply filter_keep_all.
        intros x Hx. by apply (proj1 (find_proc_None _ _) Hq). }
      destruct new; [done | simpl in Hprocs; lia].
Qed.

(** X6: in every state reached from a new manager, a lane has at most one
    live child; and a lane child is only ever spawned by [start] (task 0 of
    its lane) or by the [close] listener of the child of the previous task
    of the same lane, which is then gone. *)
Theorem lane_tasks_in_sequence (c : Config) (ops : list Op) (o : Op) :
  let w := run (new_manager c) ops in
  (∀ p p' run gIdx, p ∈ procs w → p' ∈ procs w →
     owner p = GroupLane run gIdx → owner p' = GroupLane run gIdx → p = p') ∧
  (∀ p run gIdx, p ∈ procs (apply w o) → pid p ∉ pid <$> procs w →
     owner p = GroupLane run gIdx →
     (o = CallStart ∧ run = nextRun w ∧ pidx p = 0) ∨
     (∃ q code signal p0,
        o = ChildCloses q code signal ∧ find_proc q (procs w) = Some p0 ∧
        owner p0 = GroupLane run gIdx ∧ pidx p = S (pidx p0) ∧
        find_proc q (procs (apply w o)) = None)).
Proof.
  pose proof (run_synced ops (new_manager c) (new_manager_synced c)) as Hs.
  generalize dependent (run (new_manager c) ops). intros w Hs. cbv zeta. split.
  - intros p p' run gIdx. by apply synced_one_child_per_lane.
  - intros p run gIdx Hp Hnew Ho.
    destruct (apply_births w o p Hs Hp) as [Hold|Hb]; [done|].
    destruct (Hb run gIdx Ho) as [?|(q & code & signal & p0 & -> & Hq & Ho0 & Hi)]; [by left|].
    right. exists q, code, signal, p0. split_and!; try done.
    apply on_close_gone. by destruct Hs as (_ & _ & _ & _ & ?).
Qed.

(** What the [close] listener of a lane child does to the live children:
    the closed child goes, and the next task of the lane, if there is one
    and the manager is still processing, is spawned. *)
Definition lane_successor (w : World) (l : Lane) : list Proc :=
  match l_group l !! l_pos l with
  | Some task =>
    if isProcessing w then
      [{| pid := nextPid w; owner := GroupLane (l_run l) (l_gidx l); pidx := l_pos l;
          ptask := task; pout := ""; perr := "" |}]
    else []
  | None => []
  end.

Lemma close_group_outcome (q : nat) (p : Proc) (run gIdx : nat) code signal (w : World) :
  synced w → find_proc q (procs w) = Some p → owner p = GroupLane run gIdx →
  ∃ l, l ∈ lanes w ∧ lane_pos l = (run, gIdx, S (pidx p)) ∧
       procs (on_close q code signal w) = remove_proc q (procs w) ++ lane_successor w l ∧
       taskStatus (on_close q code signal w) =
         <[pidx p := if is_zero code then Done else Failed]> (taskStatus w) ∧
       flat_view (on_close q code signal w) = flat_view w.
Proof.
  intros H Hq Ho.
  destruct (synced_lane_of w q p run gIdx H Hq Ho)
    as (l1 & l2 & L1 & l & L2 & Hp & Hrm & HL & Hl & H1 & H2).
  pose proof H as (S1 & S2 & S3 & S4 & S5).
  assert (lane_key l = (run, gIdx)) as Hk.
  { injection Hl as Hr Hg _. unfold lane_key. by rewrite Hr, Hg. }
  rewrite HL in S2.
  destruct (lane_split run gIdx l L1 L2 Hk S2) as (Hfind & Hfilter & Hnotin & Hnd).
  exists l. split_and!; [rewrite HL; apply elem_of_app; right; by left | done | | |].
  - unfold on_close. rewrite Hq, Ho. unfold close_group, resolve_lane, lane_successor.
    destruct (is_zero code); cbn; rewrite HL, Hfind; unfold lane_resume, groups_settle; cbn.
    all: destruct (l_group l !! l_pos l); [destruct (isProcessing w)|];
      repeat case_match; cbn; by rewrite ?app_nil_r.
  - unfold on_close. rewrite Hq, Ho. unfold close_group, resolve_lane.
    destruct (is_zero code); cbn; rewrite HL, Hfind; unfold lane_resume, groups_settle; cbn.
    all: by repeat case_match.
  - unfold on_close. rewrite Hq, Ho. by rewrite close_group_flat.
Qed.

(** X7: when the child of task [k] of a lane closes, whatever its exit code
    and whether or not the manager is paused, the listener records [done] or
    [failed] under the task's position and, if the manager is still
    processing and the lane has a task [k + 1], spawns it at once; worker
    slots, in-flight and completed lists, retry counters, deadline timers
    and the pause flag are left as they are: no retry, no timeout. *)
Theorem lane_advances (c : Config) (ops : list Op) (q : nat) (p : Proc)
    (r gIdx : nat) (code : option Z) (signal : option Signal) :
  let w := run (new_manager c) ops in
  find_proc q (procs w) = Some p → owner p = GroupLane r gIdx →
  let w' := on_close q code signal w in
  ∃ l, l ∈ lanes w ∧ lane_pos l = (r, gIdx, S (pidx p)) ∧
       procs w' = remove_proc q (procs w) ++ lane_successor w l ∧
       taskStatus w' = <[pidx p := if is_zero code then Done else Failed]> (taskStatus w) ∧
       flat_view w' = flat_view w.
Proof.
  pose proof (run_synced ops (new_manager c) (new_manager_synced c)) as Hs.
  generalize dependent (run (new_manager c) ops). intros w Hs. cbv zeta.
  by apply close_group_outcome.
Qed.

Lemma lane_advances_witness :
  let w := run (new_manager one_slot_config)
               [CallSetGroupedTasks two_groups; CallStart; CallPause] in
  ∃ l', l' ∈ lanes w ∧ lane_pos l' = (0, 0, 1) ∧
    procs (on_close 0 (Some 1%Z) None w) = remove_proc 0 (procs w) ++ lane_successor w l' ∧
    taskStatus (on_close 0 (Some 1%Z) None w) = <[0 := Failed]> (taskStatus w) ∧
    flat_view (on_close 0 (Some 1%Z) None w) = flat_view w.
Proof.
  intros w.
  refine (lane_advances one_slot_config
            [CallSetGroupedTasks two_groups; CallStart; CallPause] 0
            {| pid := 0; owner := GroupLane 0 0; pidx := 0; ptask := task_of "a";
               pout := ""; perr := "" |} 0 0 (Some 1%Z) None _ _).
  - vm_compute. reflexivity.
  - reflexivity.
Defined.

(** ** A manager that is only given groups *)

(** No flat task list is installed by these steps. *)
Definition grouped_only (o : Op) : Prop :=
  match o with
  | CallSetTasks _ => False
  | _ => True
  end.

(** Nothing of flat mode is in use: no task cell holds a task, no child is
    registered in the handle table, no deadline timer is pending, no child
    was started for a slot, and no kill signal was sent so far. *)
Definition untracked (w : World) : Prop :=
  (∀ i task, js_get (tasks w) i ≠ Val task) ∧
  children w = [] ∧ timers w = [] ∧ timeouts w = ∅ ∧ processing w = [] ∧
  flat_children w = [] ∧ kills w = [].

Lemma kills_opt (b : bool) (e : Event) :
  is_kill e = false → List.filter is_kill (if b then [e] else []) = [].
Proof. intros He. destruct b; [|done]. simpl. by rewrite He. Qed.

Ltac count_kills :=
  unfold kills; cbn; rewrite ?List.filter_app, ?kills_opt by reflexivity; cbn;
  rewrite ?app_nil_r; try done.

Lemma untracked_same (w w' : World) :
  tasks w' = tasks w → children w' = children w → timers w' = timers w →
  timeouts w' = timeouts w → processing w' = processing w →
  flat_children w' = flat_children w → kills w' = kills w →
  untracked w → untracked w'.
Proof.
  intros Ht Hc Hm Ho Hp Hf Hk (U1 & U2 & U3 & U4 & U5 & U6 & U7). unfold untracked.
  by rewrite Ht, Hc, Hm, Ho, Hp, Hf, Hk.
Qed.

Lemma untracked_dispatch (t : nat) (w : World) : untracked w → dispatch t w = w.
Proof.
  intros (U1 & _). unfold dispatch. pose proof (findIndex_startable w) as Hs.
  destruct (js_get (threads w) t); try done.
  destruct (findIndex (eligible w) (tasks w)) as [i|]; [|done].
  destruct Hs as [[[task Ht] _] _]. by destruct (U1 i task).
Qed.

Lemma untracked_iter (w : World) : untracked w → untracked (runSingle_iter w).
Proof.
  intros H. unfold runSingle_iter, dispatch_all. repeat case_match; try done.
  - apply (foldl_invariant untracked).
    + intros a t Ha. by rewrite untracked_dispatch.
    + apply (untracked_same w); try done; count_kills.
  - apply (untracked_same w); try done; count_kills.
Qed.

Lemma lane_resume_kills (l : Lane) (w : World) : kills (lane_resume l w) = kills w.
Proof. unfold lane_resume, runSingleTask. repeat case_match; count_kills. Qed.

Lemma groups_settle_kills (run : nat) (w : World) : kills (groups_settle run w) = kills w.
Proof. unfold groups_settle. repeat case_match; count_kills. Qed.

Lemma untracked_grown (w w' : World) :
  lane_grown w w' → kills w' = kills w → untracked w → untracked w'.
Proof.
  intros Hg Hk (U1 & U2 & U3 & U4 & U5 & U6 & U7). pose proof Hg as [Hflat _].
  destruct (flat_fields _ _ Hflat)
    as (_ & Et & _ & _ & Ep & _ & _ & Ec & _ & Eo & _ & Em & _).
  unfold untracked. rewrite Et, Ep, Ec, Eo, Em, Hk. split_and!; try done.
  destruct (flat_children w') as [|x l] eqn:E; [done|].
  assert (x ∈ flat_children w) as Hx by (apply (flat_children_grown w w' Hg); rewrite E; left).
  rewrite U6 in Hx. by apply elem_of_nil in Hx.
Qed.

Lemma runGroups_kills (w : World) : kills (runGroups w) = kills w.
Proof.
  unfold runGroups. rewrite groups_settle_kills.
  apply (start_lanes_invariant (λ w', kills w' = kills w)); [|done].
  intros l w' <-. apply lane_resume_kills.
Qed.

Lemma close_group_kills (p : Proc) (run gIdx : nat) code signal (w : World) :
  kills (close_group p run gIdx code signal w) = kills w.
Proof.
  unfold close_group, resolve_lane.
  repeat case_match; rewrite ?groups_settle_kills, ?lane_resume_kills; count_kills.
Qed.

Lemma untracked_no_flat (w : World) (p : Proc) (t : nat) :
  untracked w → p ∈ procs w → owner p ≠ FlatSlot t.
Proof.
  intros (_ & _ & _ & _ & _ & U6 & _) Hp Ho.
  assert ((t, pidx p, pid p) ∈ flat_children w) as Hin.
  { apply list_elem_of_omap. exists p. by rewrite Ho. }
  rewrite U6 in Hin. by apply elem_of_nil in Hin.
Qed.

Lemma apply_untracked (w : World) (o : Op) : grouped_only o → untracked w → untracked (apply w o).
Proof.
  intros Ho H. pose proof H as (U1 & U2 & U3 & U4 & U5 & U6 & U7).
  destruct o as [ts|groups| |sg|index sg| | |index|sg| | |timer|q data|q data|q code sig];
    try done; simpl.
  - unfold untracked, kills, flat_children in *. cbn. rewrite U3, U6, U7.
    split_and!; try done; intros i task; unfold js_get; by rewrite lookup_nil.
  - unfold start. case_match.
    + apply (untracked_same w); try done; count_kills.
    + assert (untracked (w |> hook beforeStart (EvBeforeStart (tasks w))
                           |> set_isProcessing true |> set_isPaused false
                           |> fill_threads |> hook afterStart EvAfterStart)) as H'.
      { apply (untracked_same w); try done; count_kills. }
      cbn [snd]. unfold run_installed. case_match.
      * apply (untracked_grown _ _ (runGroups_grown _) (runGroups_kills _) H').
      * apply untracked_iter. apply (untracked_same w); try done; count_kills.
  - unfold untracked, kills, flat_children in *. cbn. rewrite U2, U3, U6. cbn.
    rewrite !List.filter_app, !kills_opt by reflexivity. rewrite U7.
    by split_and!.
  - unfold stopTask, kill_child. cbn. rewrite U2.
    change (map_get index []) with (@None nat).
    apply (untracked_same w); try done; count_kills.
  - apply (untracked_same w); try done; count_kills.
  - unfold continue. case_match; [done|].
    apply untracked_iter. by apply (untracked_same w).
  - unfold cancelTask. case_match; [done|].
    unfold untracked, kills, flat_children in *. cbn.
    rewrite !List.filter_app, !kills_opt by reflexivity. rewrite U7.
    split_and!; try done; intros i task; rewrite js_get_set; case_decide; [done | apply U1].
  - unfold untracked, kills, flat_children in *. cbn. rewrite U2, U3, U6. cbn.
    rewrite !List.filter_app, !kills_opt by reflexivity. rewrite U7.
    split_and!; try done; intros i task; unfold js_get; by rewrite lookup_nil.
  - unfold on_wake. case_match; [done | by apply untracked_iter].
  - unfold on_retry_timer. repeat case_match; try done.
    all: try apply untracked_iter; by apply (untracked_same w).
  - unfold on_deadline. by rewrite U3.
  - unfold on_stdout. case_match; [|done]. apply (untracked_same w); try done.
    + unfold flat_children. cbn. by rewrite flat_children_update.
    + count_kills.
  - unfold on_stderr. case_match; [|done]. apply (untracked_same w); try done.
    + unfold flat_children. cbn. by rewrite flat_children_update.
    + count_kills.
  - unfold on_close. destruct (find_proc q (procs w)) as [p|] eqn:Hq; [|done].
    destruct (find_proc_Some _ _ _ Hq) as [Hin _].
    destruct (owner p) as [t|run gIdx] eqn:Hown; [by destruct (untracked_no_flat w p t)|].
    apply (untracked_grown _ _ (close_group_grown _ _ _ _ _ _) (close_group_kills _ _ _ _ _ _)).
    unfold untracked, kills in *. cbn. split_and!; try done.
    destruct (flat_children (upd_procs (remove_proc q) w)) as [|x l] eqn:E; [done|].
    destruct (flat_children_remove q w (upd_procs (remove_proc q) w) eq_refl x) as [Hx _];
      [rewrite E; left|].
    rewrite U6 in Hx. by apply elem_of_nil in Hx.
Qed.

Lemma new_manager_untracked (c : Config) : untracked (new_manager c).
Proof.
  unfold untracked. split_and!; try done; intros i task; unfold js_get; by rewrite lookup_nil.
Qed.

(** X8: as long as no flat task list is installed, whatever else is called
    and whatever the children do, the handle table and the timer table stay
    empty and no kill signal is ever sent: the children of grouped tasks are
    never registered, so neither [stop], [stopTask], [destroy] nor a
    deadline can terminate them. *)
Theorem grouped_children_never_killed (c : Config) (ops : list Op) :
  Forall grouped_only ops →
  let w := run (new_manager c) ops in
  kills w = [] ∧ children w = [] ∧ timers w = [] ∧ timeouts w = ∅ ∧
  ∀ p t, p ∈ procs w → owner p ≠ FlatSlot t.
Proof.
  intros Hops.
  assert (untracked (run (new_manager c) ops)) as H.
  { apply (run_invariant untracked grouped_only); [apply apply_untracked | done |].
    apply new_manager_untracked. }
  generalize dependent (run (new_manager c) ops). intros w H. cbv zeta.
  pose proof H as (U1 & U2 & U3 & U4 & U5 & U6 & U7). split_and!; try done.
  intros p t. by apply untracked_no_flat.
Qed.

Lemma grouped_children_never_killed_witness :
  kills (run (new_manager one_slot_config)
             [CallSetGroupedTasks two_groups; CallStart; CallStopTask 0 None;
              CallStop (Some SIGKILL); ChildCloses 0 None (Some SIGTERM);
              CallDestroy None]) = [].
Proof.
  refine (proj1 (grouped_children_never_killed one_slot_config _ _)). repeat constructor.
Defined.

(** * Pause, continue and start *)

(** The steps that neither lower the pause flag nor run [runGroups]. *)
Definition holds (o : Op) : Prop :=
  match o with
  | CallStart | CallStop _ | CallDestroy _ | CallContinue => False
  | _ => True
  end.

Lemma runSingle_iter_paused (w : World) :
  isPaused w = true →
  isPaused (runSingle_iter w) = true ∧ nextPid (runSingle_iter w) = nextPid w ∧
  procs (runSingle_iter w) = procs w.
Proof. intros H. unfold runSingle_iter. rewrite H. by repeat case_match. Qed.

Lemma close_flat_paused (p : Proc) (t : nat) code signal (w : World) :
  isPaused (close_flat p t code signal w) = isPaused w ∧
  nextPid (close_flat p t code signal w) = nextPid w.
Proof. unfold close_flat, retry_policy. by repeat case_match. Qed.

Lemma apply_paused (w : World) (o : Op) :
  holds o → isPaused w = true → all_flat w →
  isPaused (apply w o) = true ∧ all_flat (apply w o) ∧ nextPid (apply w o) = nextPid w.
Proof.
  intros Ho Hp Hf.
  destruct o as [ts|groups| |sg|index sg| | |index|sg| | |timer|q data|q data|q code sig];
    try done; simpl.
  - unfold stopTask, kill_child. by repeat case_match.
  - unfold cancelTask. by repeat case_match.
  - unfold on_wake. case_match; [done|].
    destruct (runSingle_iter_paused w Hp) as (? & ? & ?). split_and!; try done.
    by apply (all_flat_same w).
  - unfold on_retry_timer. repeat case_match; try done.
    destruct (runSingle_iter_paused (upd_loops S (set_retryTimers n w)) Hp) as (? & ? & ?).
    split_and!; try done. by apply (all_flat_same w).
  - unfold on_deadline, kill_overdue. by repeat case_match.
  - split_and!; [| by apply (apply_all_flat w (StdoutData q data)) |];
      unfold on_stdout; by case_match.
  - split_and!; [| by apply (apply_all_flat w (StderrData q data)) |];
      unfold on_stderr; by case_match.
  - split_and!; [| by apply on_close_all_flat |].
    all: unfold on_close; destruct (find_proc q (procs w)) as [p|] eqn:Hq; [|done].
    all: destruct (find_proc_Some _ _ _ Hq) as [Hin _]; destruct (Hf p Hin) as [t Ht].
    all: rewrite Ht.
    all: destruct (close_flat_paused p t code sig (upd_procs (remove_proc q) w)) as [E1 E2].
    all: by rewrite ?E1, ?E2.
Qed.

Lemma run_paused (ops : list Op) (w : World) :
  Forall holds ops → isPaused w = true → all_flat w →
  isPaused (run w ops) = true ∧ all_flat (run w ops) ∧ nextPid (run w ops) = nextPid w.
Proof.
  intros Hops. revert w. induction Hops as [|o ops Ho _ IH]; intros w Hp Hf; simpl; [done|].
  destruct (apply_paused w o Ho Hp Hf) as (Hp' & Hf' & Hn).
  destruct (IH _ Hp' Hf') as (? & ? & ?). split_and!; try done. congruence.
Qed.

(** X9: [pause] neither kills nor removes a child, and while the manager is
    paused, with only flat-mode children alive, nothing is spawned, whatever
    the event loop delivers (loop wake-ups, retry timers, deadlines, output,
    closing children) and whichever of [pause], [cancelTask], [stopTask],
    [setTasks], [setGroupedTasks] is called; the pause flag stays up until
    [start], [stop], [destroy] or [continue]. *)
Theorem pause_holds_dispatch (w : World) (ops : list Op) :
  all_flat w → Forall holds ops →
  procs (pause w) = procs w ∧ kills (pause w) = kills w ∧
  isPaused (run (pause w) ops) = true ∧
  spawn_count (run (pause w) ops) = spawn_count w.
Proof.
  intros Hf Hops. split; [done|]. split; [count_kills|].
  destruct (run_paused ops (pause w) Hops eq_refl Hf) as (Hp & _ & Hn).
  split; [done|]. pose proof (run_spawn_sync ops (pause w)) as Hs.
  unfold spawn_sync in Hs. rewrite Hn in Hs.
  assert (spawn_count (pause w) = spawn_count w) as Hpw; [|lia].
  unfold spawn_count, pause. cbn. rewrite !List.filter_app, !length_app.
  destruct (beforePause (hooks (cfg w))), (afterPause (hooks (cfg w))); simpl; lia.
Qed.

Lemma pause_holds_dispatch_witness :
  spawn_count (run (pause (fresh_run two_slots three_tasks))
                   [LoopWakes; ChildCloses 0 (Some 0%Z) None; LoopWakes;
                    ChildCloses 1 (Some 1%Z) None; RetryTimerFires; LoopWakes])
  = spawn_count (fresh_run two_slots three_tasks).
Proof.
  refine (proj2 (proj2 (proj2 (pause_holds_dispatch _ _ _ _)))).
  - apply fresh_run_all_flat.
  - repeat constructor.
Defined.

(** X10: [start] throws exactly when the manager is already processing, and
    then changes nothing but the log; during a live run [continue] does
    nothing either, so [pause] followed by [continue] leaves the manager
    paused. *)
Theorem calls_during_a_run (w : World) :
  ((start w).1 = Thrown "Task manager is already running." ↔ isProcessing w = true) ∧
  ((start w).1 = Returned ↔ isProcessing w = false) ∧
  (isProcessing w = true →
     (start w).2 = log LWarn MsgAlreadyRunning w ∧
     continue w = w ∧ continue (pause w) = pause w ∧
     isPaused (continue (pause w)) = true).
Proof.
  unfold start. destruct (isProcessing w) eqn:Hp; simpl.
  - split_and!; try done. intros _. unfold continue. cbn. rewrite Hp.
    by rewrite !orb_true_r.
  - by split_and!.
Qed.

Lemma calls_during_a_run_witness :
  continue (pause (fresh_run two_slots three_tasks)) = pause (fresh_run two_slots three_tasks).
Proof.
  refine (proj1 (proj2 (proj2 (proj2 (proj2 (calls_during_a_run _)) _)))).
  vm_compute. reflexivity.
Defined.

(** X11: [start] with nothing left to do completes at once.  When no groups
    are installed and the completed list is at least as long as the task
    list (no task was installed, or a run has finished and the list was not
    installed again), [start] fires its hooks and the all-done hook with the
    task count, spawns nothing, leaves the completed list as it is and the
    manager idle: a finished task list is not run a second time. *)
Theorem start_with_nothing_to_do (w : World) :
  isProcessing w = false → taskGroups w = [] → length (tasks w) ≤ length (processed w) →
  let w' := (start w).2 in
  (start w).1 = Returned ∧
  trace w' = trace w
             ++ (if beforeStart (hooks (cfg w)) then [EvBeforeStart (tasks w)] else [])
             ++ (if afterStart (hooks (cfg w)) then [EvAfterStart] else [])
             ++ (if onAllTasksDone (hooks (cfg w))
                 then [EvAllTasksDone (length (tasks w))] else []) ∧
  isProcessing w' = false ∧ processed w' = processed w ∧ processing w' = processing w ∧
  procs w' = procs w ∧ loops w' = loops w ∧ nextPid w' = nextPid w.
Proof.
  intros Hp Hg Hlen. cbv zeta. rewrite start_idle by done.
  rewrite run_installed_flat by done. unfold start. rewrite Hp.
  unfold runSingle, runSingle_iter. cbn.
  assert (length (processed w) <? length (tasks w) = false) as -> by (apply Nat.ltb_ge; lia).
  cbn. rewrite <- !app_assoc. by split_and!.
Qed.

Lemma start_with_nothing_to_do_witness :
  let w := run (fresh_run two_slots [task_of "a"]) [ChildCloses 0 (Some 0%Z) None; LoopWakes] in
  trace (start w).2 = trace w ++ [EvBeforeStart (tasks w)] ++ [EvAfterStart]
                              ++ [EvAllTasksDone 1].
Proof.
  intros w.
  refine (proj1 (proj2 (start_with_nothing_to_do w _ _ _))).
  - vm_compute. reflexivity.
  - vm_compute. reflexivity.
  - vm_compute. lia.
Defined.

(** * Deadlines *)

Lemma map_has_delete (k : nat) (m : list (nat * nat)) : map_has k (map_delete k m) = false.
Proof.
  unfold map_has, map_delete. apply bool_decide_eq_false.
  intros (e & -> & [He _]%list_elem_of_filter)%list_elem_of_fmap. done.
Qed.

Lemma map_get_None (k : nat) (m : list (nat * nat)) : map_get k m = None → map_has k m = false.
Proof.
  unfold map_has, map_get. intros H. apply bool_decide_eq_false. revert H.
  induction m as [|[k' v'] m IH]; simpl; [by intros _ ?%elem_of_nil|].
  case_decide; [done|]. intros Hm [Heq|Hin]%elem_of_cons; [done | by apply IH].
Qed.


Lemma stopTask_untracks (index : nat) (sg : option Signal) (w : World) :
  map_has index (children (stopTask index sg w)) = false ∧
  timers (stopTask index sg w) = timers w ∧ timeouts (stopTask index sg w) = timeouts w ∧
  taskStatus (stopTask index sg w) = <[index := Stopped]> (taskStatus w) ∧
  cfg (stopTask index sg w) = cfg w.
Proof.
  unfold stopTask, kill_child. cbn.
  destruct (map_get index (children w)) as [child|] eqn:E; cbn; split_and!; try done.
  - apply map_has_delete.
  - by apply map_get_None.
Qed.

(** X12: [stopTask] leaves the deadline timer of the task armed.  When the
    deadline then fires, the status [stopped] is overwritten by [timeout]
    and the timeout hook is called, but no kill signal is sent, since the
    task is no longer in the handle table. *)
Theorem stopTask_keeps_deadline (w : World) (index id : nat) (tm : Timer)
    (sg : option Signal) :
  find_timer id (timers w) = Some tm → tidx tm = index →
  let w1 := stopTask index sg w in
  let w2 := on_deadline id w1 in
  find_timer id (timers w1) = Some tm ∧
  taskStatus w1 !! index = Some Stopped ∧
  taskStatus w2 !! index = Some Timeout ∧
  kills w2 = kills w1 ∧
  trace w2 = trace w1 ++ (if onTaskTimeout (hooks (cfg w))
                          then [EvTaskTimeout index (ttask tm)] else []).
Proof.
  intros Htm <-. cbv zeta.
  destruct (stopTask_untracks (tidx tm) sg w) as (Hhas & Htimers & _ & Hst & Hcfg).
  generalize dependent (stopTask (tidx tm) sg w). intros w1 Hhas Htimers Hst Hcfg.
  unfold on_deadline. rewrite Htimers, Htm. unfold kill_overdue. cbn. rewrite Hhas.
  unfold kills. cbn. rewrite Hst, Hcfg, lookup_insert_eq, lookup_insert_eq.
  split_and!; try done.
  rewrite List.filter_app, kills_opt by reflexivity. by rewrite app_nil_r.
Qed.

Lemma stopTask_keeps_deadline_witness :
  let w := fresh_run two_slots three_tasks in
  taskStatus (on_deadline 1 (stopTask 1 None w)) !! 1 = Some Timeout ∧
  kills (on_deadline 1 (stopTask 1 None w)) = kills (stopTask 1 None w).
Proof.
  intros w.
  destruct (stopTask_keeps_deadline w 1 1
              {| tid := 1; tidx := 1; tpid := 1; ttask := task_of "b"; tms := 600000%N |}
              None) as (_ & _ & H3 & H4 & _).
  - vm_compute. reflexivity.
  - reflexivity.
  - split; [exact H3 | exact H4].
Defined.













Lemma close_flat_children (p : Proc) (t : nat) code signal (w : World) :
  children (close_flat p t code signal w) = map_delete (pidx p) (children w) ∧
  globalRetryCount (close_flat p t code signal w) =
    (if is_zero code then globalRetryCount w else S (globalRetryCount w)) ∧
  nextPid (close_flat p t code signal w) = nextPid w.
Proof.
  unfold close_flat, retry_policy. destruct (is_zero code); [done|]. by repeat case_match.
Qed.









(** * The retry counters *)

(** The sum of the per-task retry counters. *)
Definition total_retries (w : World) : nat :=
  map_fold (λ _ v acc, v + acc) 0 (retryCount w).

Lemma total_insert (m : gmap nat nat) (i v : nat) :
  map_fold (λ _ v acc, v + acc) 0 (<[i := v]> m) + default 0 (m !! i)
  = map_fold (λ _ v acc, v + acc) 0 m + v.
Proof.
  destruct (m !! i) as [v0|] eqn:E; simpl.
  - rewrite (map_fold_delete_L _ _ i v0 m); [|intros; lia|done].
    rewrite <- insert_delete_eq, map_fold_insert_L; [lia|intros; lia|].
    apply lookup_delete_eq.
  - rewrite map_fold_insert_L; [lia|intros; lia|done].
Qed.

(** The steps that install a task list or groups. *)
Definition installs (o : Op) : Prop :=
  match o with
  | CallSetTasks _ | CallSetGroupedTasks _ => True
  | _ => False
  end.

Global Instance installs_dec (o : Op) : Decision (installs o).
Proof. destruct o; simpl; apply _. Defined.

Definition counters (w : World) : gmap nat nat * nat := (retryCount w, globalRetryCount w).

Lemma dispatch_counters (t : nat) (w : World) : counters (dispatch t w) = counters w.
Proof. unfold dispatch. by repeat case_match. Qed.

Lemma runSingle_iter_counters (w : World) : counters (runSingle_iter w) = counters w.
Proof.
  unfold runSingle_iter, dispatch_all. repeat case_match; try done.
  apply (foldl_invariant (λ w', counters w' = counters w)); [|done].
  intros a t <-. apply dispatch_counters.
Qed.

Lemma flat_counters (w w' : World) : flat_view w' = flat_view w → counters w' = counters w.
Proof.
  intros H. destruct (flat_fields _ _ H) as (_ & _ & _ & _ & _ & _ & _ & _ & Er & _ & Eg & _).
  unfold counters. by rewrite Er, Eg.
Qed.

(** A step either leaves both counters alone, or adds one failure of one
    task to both, or (installing) empties the per-task table only. *)
Lemma apply_counters (w : World) (o : Op) :
  counters (apply w o) = counters w ∨
  (∃ i, counters (apply w o) = (<[i := retries w i + 1]> (retryCount w),
                                S (globalRetryCount w))) ∨
  (installs o ∧ counters (apply w o) = (∅, globalRetryCount w)).
Proof.
  destruct o as [ts|groups| |sg|index sg| | |index|sg| | |timer|q data|q data|q code sig];
    simpl.
  - right. right. by split.
  - right. right. by split.
  - left. unfold start, run_installed. repeat case_match; simpl; try done.
    + by rewrite (flat_counters _ _ (runGroups_flat _)).
    + unfold runSingle. by rewrite runSingle_iter_counters.
  - by left.
  - left. unfold stopTask, kill_child. by repeat case_match.
  - by left.
  - left. unfold continue. case_match; [done|]. unfold runSingle.
    by rewrite runSingle_iter_counters.
  - left. unfold cancelTask. by repeat case_match.
  - by left.
  - left. unfold on_wake. case_match; [done|]. apply runSingle_iter_counters.
  - left. unfold on_retry_timer. repeat case_match; try done. unfold runSingle.
    by rewrite runSingle_iter_counters.
  - left. unfold on_deadline, kill_overdue. by repeat case_match.
  - left. unfold on_stdout. by repeat case_match.
  - left. unfold on_stderr. by repeat case_match.
  - unfold on_close. destruct (find_proc q (procs w)) as [p|]; [|by left].
    destruct (owner p) as [t|run gIdx].
    + destruct (close_flat_fields p t code sig (upd_procs (remove_proc q) w))
        as (_ & _ & _ & _ & _ & _ & _ & Erc & _).
      destruct (close_flat_children p t code sig (upd_procs (remove_proc q) w))
        as (_ & Eg & _).
      unfold counters. rewrite Erc, Eg. destruct (is_zero code); [by left|].
      right. left. by exists (pidx p).
    + left. by rewrite (flat_counters _ _ (close_group_flat _ _ _ _ _ _)).
Qed.

Lemma run_total_retries (ops : list Op) (w : World) :
  total_retries w ≤ globalRetryCount w →
  total_retries (run w ops) ≤ globalRetryCount (run w ops) ∧
  (Forall (λ o, ¬ installs o) ops → total_retries w = globalRetryCount w →
   total_retries (run w ops) = globalRetryCount (run w ops)).
Proof.
  revert w. induction ops as [|o ops IH]; intros w Hle; simpl; [done|].
  assert (total_retries (apply w o) ≤ globalRetryCount (apply w o) ∧
          (¬ installs o → total_retries w = globalRetryCount w →
           total_retries (apply w o) = globalRetryCount (apply w o))) as [Hle' Heq'].
  { destruct (apply_counters w o) as [E|[(i & E)|[Hi E]]]; unfold counters in E;
      injection E as Er Eg; unfold total_retries in *; rewrite Er, Eg.
    - done.
    - pose proof (total_insert (retryCount w) i (retries w i + 1)) as Hs.
      unfold retries in *. split; [lia | intros; lia].
    - rewrite map_fold_empty. split; [lia | done]. }
  destruct (IH _ Hle') as [H1 H2]. split; [done|].
  intros [Hno Hrest]%Forall_cons Heq. apply H2; [done|]. by apply Heq'.
Qed.

Lemma counters_split (w : World) (r : gmap nat nat) (g : nat) :
  counters w = (r, g) → retryCount w = r ∧ globalRetryCount w = g.
Proof. by intros [= ? ?]. Qed.

Lemma fresh_run_counters (c : Config) (ts : list ITask) : counters (fresh_run c ts) = (∅, 0).
Proof.
  assert (fresh_run c ts = (start (setTasks ts (new_manager c))).2) as -> by reflexivity.
  rewrite start_idle by reflexivity. rewrite run_installed_flat by reflexivity.
  unfold runSingle. by rewrite runSingle_iter_counters.
Qed.

(** X14: the global retry counter counts every failed attempt.  From a new
    manager it is always at least the sum of the per-task retry counters,
    and equal to it for as long as no task list or groups are installed
    again (installing empties the per-task table but never resets the
    global counter). *)
Theorem global_counter_is_total (c : Config) (ts : list ITask) (ops : list Op) :
  let w := run (fresh_run c ts) ops in
  total_retries w ≤ globalRetryCount w ∧
  (Forall (λ o, ¬ installs o) ops → globalRetryCount w = total_retries w).
Proof.
  destruct (counters_split _ _ _ (fresh_run_counters c ts)) as [Hr Hg].
  assert (total_retries (fresh_run c ts) = globalRetryCount (fresh_run c ts)) as H0.
  { unfold total_retries. by rewrite Hr, Hg, map_fold_empty. }
  destruct (run_total_retries ops (fresh_run c ts)) as [H1 H2]; [lia|].
  generalize dependent (run (fresh_run c ts) ops). intros w H1 H2. cbv zeta.
  split; [done|]. intros Hops. symmetry. by apply H2.
Qed.

Lemma global_counter_is_total_witness :
  globalRetryCount (run (fresh_run two_slots three_tasks)
                        [ChildCloses 0 (Some 1%Z) None; ChildCloses 1 None (Some SIGKILL);
                         RetryTimerFires; ChildCloses 2 (Some 2%Z) None])
  = total_retries (run (fresh_run two_slots three_tasks)
                       [ChildCloses 0 (Some 1%Z) None; ChildCloses 1 None (Some SIGKILL);
                        RetryTimerFires; ChildCloses 2 (Some 2%Z) None]).
Proof.
  refine (proj2 (global_counter_is_total two_slots three_tasks _) _).
  repeat constructor; by intros [].
Defined.

(** ** No retries *)

Definition is_retry (e : Event) : bool :=
  match e with
  | EvTaskRetry _ _ => true
  | _ => false
  end.

Definition retry_calls (w : World) : list Event := List.filter is_retry (trace w).

(** Nothing is queued for a retry and the retry hook was never called. *)
Definition never_retried (w : World) : Prop :=
  maxRetry (cfg w) = 0 ∧ retryTimers w = 0 ∧ retry_calls w = [].

Lemma filter_opt (f : Event → bool) (b : bool) (e : Event) :
  f e = false → List.filter f (if b then [e] else []) = [].
Proof. intros He. destruct b; [|done]. simpl. by rewrite He. Qed.

Lemma filter_kill_events (f : Event → bool) (signal : Signal) (l : list (nat * nat)) :
  (∀ q, f (EvKill q signal) = false) →
  List.filter f ((λ e, EvKill e.2 signal) <$> l) = [].
Proof. intros Hf. induction l as [|x l IH]; [done|]. rewrite fmap_cons. simpl. by rewrite Hf. Qed.

Ltac count_retries :=
  unfold retry_calls; cbn;
  rewrite ?List.filter_app, ?(filter_opt is_retry), ?(filter_kill_events is_retry)
    by reflexivity;
  cbn; rewrite ?app_nil_r; try done.

Lemma never_retried_same (w w' : World) :
  cfg w' = cfg w → retryTimers w' = retryTimers w → retry_calls w' = retry_calls w →
  never_retried w → never_retried w'.
Proof. intros Hc Hr Ht (? & ? & ?). unfold never_retried. by rewrite Hc, Hr, Ht. Qed.

Lemma dispatch_never_retried (t : nat) (w : World) :
  never_retried w → never_retried (dispatch t w).
Proof.
  intros H. unfold dispatch. repeat case_match; try done.
  apply (never_retried_same w); try done. unfold assign. count_retries.
Qed.

Lemma runSingle_iter_never_retried (w : World) :
  never_retried w → never_retried (runSingle_iter w).
Proof.
  intros H. unfold runSingle_iter, dispatch_all. repeat case_match; try done.
  - apply foldl_invariant; [intros; by apply dispatch_never_retried|].
    apply (never_retried_same w); try done; count_retries.
  - apply (never_retried_same w); try done; count_retries.
Qed.

Lemma lane_resume_never_retried (l : Lane) (w : World) :
  never_retried w → never_retried (lane_resume l w).
Proof.
  intros H. unfold lane_resume, runSingleTask.
  repeat case_match; apply (never_retried_same w); try done; count_retries.
Qed.

Lemma groups_settle_never_retried (run : nat) (w : World) :
  never_retried w → never_retried (groups_settle run w).
Proof.
  intros H. unfold groups_settle.
  repeat case_match; try done. apply (never_retried_same w); try done; count_retries.
Qed.

Lemma close_flat_never_retried (p : Proc) (t : nat) code signal (w : World) :
  never_retried w → never_retried (close_flat p t code signal w).
Proof.
  intros H. pose proof H as (Hm & Hr & Ht). unfold close_flat.
  destruct (is_zero code).
  - apply (never_retried_same w); try done; unfold release; count_retries.
  - unfold retry_policy. cbn. rewrite lookup_insert_eq. cbn [default]. rewrite Hm.
    case_match eqn:Hc.
    { apply andb_true_iff in Hc as [E1%Nat.leb_le _]. unfold id in E1. lia. }
    case_match; apply (never_retried_same w); try done.
    all: unfold release; count_retries.
Qed.

Lemma apply_never_retried (w : World) (o : Op) :
  never_retried w → never_retried (apply w o).
Proof.
  intros H.
  destruct o as [ts|groups| |sg|index sg| | |index|sg| | |timer|q data|q data|q code sig];
    simpl.
  - apply (never_retried_same w); try done; count_retries.
  - apply (never_retried_same w); try done; count_retries.
  - unfold start, run_installed. repeat case_match; simpl.
    + apply (never_retried_same w); try done; count_retries.
    + unfold runGroups. apply groups_settle_never_retried.
      apply start_lanes_invariant; [intros; by apply lane_resume_never_retried|].
      apply (never_retried_same w); try done; count_retries.
    + apply runSingle_iter_never_retried.
      apply (never_retried_same w); try done; count_retries.
  - apply (never_retried_same w); try done; count_retries.
  - unfold stopTask, kill_child.
    case_match; apply (never_retried_same w); try done; count_retries.
  - apply (never_retried_same w); try done; count_retries.
  - unfold continue. case_match; [done|].
    apply runSingle_iter_never_retried. by apply (never_retried_same w).
  - unfold cancelTask. case_match; [done|].
    apply (never_retried_same w); try done; count_retries.
  - apply (never_retried_same w); try done; count_retries.
  - unfold on_wake. case_match; [done | by apply runSingle_iter_never_retried].
  - destruct H as (Hm & Hr & Ht). unfold on_retry_timer. rewrite Hr. by split_and!.
  - unfold on_deadline, kill_overdue.
    repeat case_match; try done; apply (never_retried_same w); try done; count_retries.
  - unfold on_stdout. case_match; [|done].
    apply (never_retried_same w); try done; count_retries.
  - unfold on_stderr. case_match; [|done].
    apply (never_retried_same w); try done; count_retries.
  - unfold on_close. repeat case_match; try done.
    + apply close_flat_never_retried. by apply (never_retried_same w).
    + unfold close_group, resolve_lane.
      repeat case_match; try apply groups_settle_never_retried;
        try apply lane_resume_never_retried;
        apply (never_retried_same w); try done; count_retries.
Qed.

(** X15: with [maxRetry = 0] nothing is ever retried: whatever is called and
    whatever the children do, no retry timer is armed and the retry hook is
    never called. *)
Theorem no_retry_without_budget (c : Config) (ops : list Op) :
  maxRetry c = 0 →
  let w := run (new_manager c) ops in
  retryTimers w = 0 ∧ retry_calls w = [] ∧
  on_retry_timer w = w.
Proof.
  intros Hm.
  assert (never_retried (run (new_manager c) ops)) as H.
  { apply (run_invariant never_retried (λ _, True)).
    - intros. by apply apply_never_retried.
    - by apply Forall_forall.
    - by split_and!. }
  generalize dependent (run (new_manager c) ops). intros w (_ & Hr & Ht). cbv zeta.
  split_and!; try done. unfold on_retry_timer. by rewrite Hr.
Qed.

Lemma no_retry_without_budget_witness :
  retry_calls (run (new_manager one_slot_config)
                   [CallSetTasks three_tasks; CallStart; ChildCloses 0 (Some 1%Z) None;
                    LoopWakes; ChildCloses 1 None (Some SIGKILL)]) = [].
Proof.
  refine (proj1 (proj2 (no_retry_without_budget one_slot_config _ _))). reflexivity.
Defined.

(** * Stop *)

Lemma filter_kills_all (signal : Signal) (l : list (nat * nat)) :
  List.filter is_kill ((λ e, EvKill e.2 signal) <$> l) = (λ e, EvKill e.2 signal) <$> l.
Proof. induction l as [|x l IH]; [done|]. rewrite !fmap_cons. simpl. by rewrite IH. Qed.

Lemma stop_fields (sg : option Signal) (w : World) :
  kills (stop sg w) =
    kills w ++ ((λ e, EvKill e.2 (default (killSignal (cfg w)) sg)) <$> children w) ∧
  children (stop sg w) = [] ∧ timeouts (stop sg w) = ∅ ∧
  processing (stop sg w) = [] ∧ processed (stop sg w) = [] ∧
  threads (stop sg w) = replicate (totalThreads (cfg w)) Null ∧
  isProcessing (stop sg w) = false ∧ isPaused (stop sg w) = false ∧
  procs (stop sg w) = procs w ∧ spawn_count (stop sg w) = spawn_count w ∧
  timers (stop sg w) = filter (λ tm, tid tm ∉ (map_to_list (timeouts w)).*2) (timers w).
Proof.
  unfold stop. split_and!; try done.
  - unfold kills. cbn. rewrite !List.filter_app, !kills_opt by reflexivity.
    by rewrite filter_kills_all, !app_nil_r.
  - count_spawns.
Qed.

Lemma orderly_clear_timers (w : World) :
  orderly w → filter (λ tm, tid tm ∉ (map_to_list (timeouts w)).*2) (timers w) = [].
Proof.
  intros Ho. destruct (filter _ (timers w)) as [|tm l] eqn:E; [done|].
  assert (tm ∈ filter (λ tm, tid tm ∉ (map_to_list (timeouts w)).*2) (timers w)) as Hin
    by (rewrite E; left).
  apply list_elem_of_filter in Hin as [Hout Hin]. destruct Hout.
  destruct (ord_timer w Ho tm Hin) as [_ Hto].
  apply list_elem_of_fmap. exists (tidx tm, tid tm). split; [done|].
  by apply elem_of_map_to_list.
Qed.

(** X16: [stop] during a run in flat mode sends the given (or else the
    configured) signal to exactly the children registered in the handle
    table, in the order of their registration, cancels every deadline,
    empties the handle, timer, in-flight and completed tables, frees all
    slots and lowers both flags.  The children stay alive until they close,
    and whatever they and the timers do afterwards, nothing is spawned
    until [start] or [continue] is called. *)
Theorem stop_clears_and_halts (c : Config) (ts : list ITask) (ops ops' : list Op)
    (sg : option Signal) :
  Forall scheduling ops → Forall (λ o, ¬ resumes o) ops' →
  let w := run (fresh_run c ts) ops in
  let w1 := stop sg w in
  kills w1 = kills w ++ ((λ e, EvKill e.2 (default (killSignal c) sg)) <$> children w) ∧
  children w1 = [] ∧ timers w1 = [] ∧ timeouts w1 = ∅ ∧
  processing w1 = [] ∧ processed w1 = [] ∧
  threads w1 = replicate (totalThreads c) Null ∧
  isProcessing w1 = false ∧ isPaused w1 = false ∧ procs w1 = procs w ∧
  isProcessing (run w1 ops') = false ∧ spawn_count (run w1 ops') = spawn_count w.
Proof.
  intros Hops Hops'.
  assert (orderly (run (fresh_run c ts) ops)) as Ho
    by (apply run_orderly; [done | apply fresh_run_orderly]).
  assert (cfg (run (fresh_run c ts) ops) = c) as Hc by (unfold fresh_run; by rewrite !run_cfg).
  generalize dependent (run (fresh_run c ts) ops). intros w Ho Hc. cbv zeta.
  destruct (stop_fields sg w) as (Hk & Hch & Hto & Hp & Hd & Hth & Hproc & Hpa & Hpr & Hs & Htm).
  rewrite Hc in Hk, Hth. rewrite orderly_clear_timers in Htm by done.
  destruct (run_halted ops' (stop sg w) Hops' Hproc) as [H1 H2].
  pose proof (run_spawn_sync ops' (stop sg w)) as Hsync. unfold spawn_sync in Hsync.
  split_and!; try done. lia.
Qed.

Lemma stop_clears_and_halts_witness :
  spawn_count (run (stop (Some SIGKILL) (run (fresh_run two_slots three_tasks) [LoopWakes]))
                   [ChildCloses 0 None (Some SIGKILL); RetryTimerFires; LoopWakes;
                    ChildCloses 1 None (Some SIGKILL); RetryTimerFires])
  = spawn_count (run (fresh_run two_slots three_tasks) [LoopWakes]).
Proof.
  refine (proj2 (proj2 (proj2 (proj2 (proj2 (proj2 (proj2 (proj2 (proj2 (proj2 (proj2
            (stop_clears_and_halts two_slots three_tasks _ _ (Some SIGKILL) _ _)))))))))))).
  - repeat constructor.
  - repeat constructor; by intros [|].
Defined.

(** * Polling loops and the all-done hook *)

Definition is_all_done (e : Event) : bool :=
  match e with
  | EvAllTasksDone _ => true
  | _ => false
  end.

(** The number of calls of the all-done hook so far. *)
Definition all_done_calls (w : World) : nat := length (List.filter is_all_done (trace w)).

(** Whether the step calls [runSingle]: [start] in flat mode, [continue]
    after a halt, and a retry timer that finds the manager processing. *)
Definition starts_loop (w : World) (o : Op) : bool :=
  match o with
  | CallStart => negb (isProcessing w) && negb (0 <? length (taskGroups w))
  | CallContinue => isPaused w && negb (isProcessing w)
  | RetryTimerFires => (0 <? retryTimers w) && isProcessing w
  | _ => false
  end.

(** The number of [runSingle] loops started along a run. *)
Fixpoint loop_starts (w : World) (ops : list Op) : nat :=
  match ops with
  | [] => 0
  | o :: ops' => (if starts_loop w o then 1 else 0) + loop_starts (apply w o) ops'
  end.

(** Calls of the hook so far, plus the loops that are still to end. *)
Definition loop_balance (w : World) : nat := all_done_calls w + loops w.

Lemma all_done_opt (b : bool) (e : Event) :
  length (List.filter is_all_done (if b then [e] else []))
  = if b && is_all_done e then 1 else 0.
Proof. by destruct b, (is_all_done e) eqn:E; simpl; rewrite ?E. Qed.

Lemma all_done_kills (signal : Signal) (l : list (nat * nat)) :
  List.filter is_all_done ((λ e, EvKill e.2 signal) <$> l) = [].
Proof. apply filter_kill_events. done. Qed.

Ltac count_all_done :=
  unfold loop_balance, all_done_calls; cbn;
  rewrite ?List.filter_app, ?length_app, ?all_done_kills, ?all_done_opt; cbn;
  rewrite ?andb_false_r; try lia.

(** No groups are installed and no lane child is alive. *)
Definition flat_only (w : World) : Prop :=
  onAllTasksDone (hooks (cfg w)) = true ∧ taskGroups w = [] ∧ all_flat w.

Lemma flat_only_same (w w' : World) :
  cfg w' = cfg w → taskGroups w' = taskGroups w → procs w' = procs w →
  flat_only w → flat_only w'.
Proof.
  intros Hc Hg Hp (H1 & H2 & H3). unfold flat_only. rewrite Hc, Hg.
  split_and!; try done. by apply (all_flat_same w).
Qed.

Lemma dispatch_balance (t : nat) (w : World) :
  loop_balance (dispatch t w) = loop_balance w ∧ loops (dispatch t w) = loops w ∧
  taskGroups (dispatch t w) = taskGroups w.
Proof.
  unfold dispatch. repeat case_match; try done. unfold assign.
  split_and!; try done; count_all_done.
Qed.

Lemma runSingle_iter_balance (w : World) :
  onAllTasksDone (hooks (cfg w)) = true → 0 < loops w →
  loop_balance (runSingle_iter w) = loop_balance w ∧
  taskGroups (runSingle_iter w) = taskGroups w.
Proof.
  intros Hh Hl. unfold runSingle_iter, dispatch_all. repeat case_match; try done.
  - apply (foldl_invariant
             (λ w', loop_balance w' = loop_balance w ∧ taskGroups w' = taskGroups w)).
    + intros a t [<- <-]. destruct (dispatch_balance t a) as (? & _ & ?). by split.
    + split; [count_all_done | done].
  - split; [|done]. unfold loop_balance, all_done_calls. cbn.
    rewrite List.filter_app, length_app, Hh. simpl. lia.
Qed.

Lemma runSingle_iter_flat_only (w : World) : flat_only w → flat_only (runSingle_iter w).
Proof.
  intros (H1 & H2 & H3). unfold flat_only. rewrite runSingle_iter_cfg.
  split_and!; [done | | by eapply adds_all_flat; [apply runSingle_iter_adds|]].
  unfold runSingle_iter, dispatch_all. repeat case_match; try done.
  apply (foldl_invariant (λ w', taskGroups w' = [])); [|done].
  intros a t <-. by destruct (dispatch_balance t a) as (_ & _ & ?).
Qed.

Lemma runSingle_balance (w : World) :
  flat_only w →
  loop_balance (runSingle w) = S (loop_balance w) ∧ flat_only (runSingle w).
Proof.
  intros H. pose proof H as (Hh & Hg & Hf). unfold runSingle.
  destruct (runSingle_iter_balance (upd_loops S w)) as [-> _]; [done | cbn; lia |].
  split; [count_all_done|]. apply runSingle_iter_flat_only. by apply (flat_only_same w).
Qed.

Lemma close_flat_balance (p : Proc) (t : nat) code signal (w : World) :
  loop_balance (close_flat p t code signal w) = loop_balance w ∧
  taskGroups (close_flat p t code signal w) = taskGroups w ∧
  cfg (close_flat p t code signal w) = cfg w.
Proof.
  unfold close_flat, retry_policy, release.
  repeat case_match; split_and!; try done; count_all_done.
Qed.

Lemma apply_balance (w : World) (o : Op) :
  (∀ groups, o ≠ CallSetGroupedTasks groups) → flat_only w →
  loop_balance (apply w o) = loop_balance w + (if starts_loop w o then 1 else 0) ∧
  flat_only (apply w o).
Proof.
  intros Ho H. pose proof H as (Hh & Hg & Hf).
  destruct o as [ts|groups| |sg|index sg| | |index|sg| | |timer|q data|q data|q code sig];
    simpl.
  - split; [count_all_done | by apply (flat_only_same w)].
  - by destruct (Ho groups).
  - rewrite Hg. unfold start. destruct (isProcessing w) eqn:Hp; simpl.
    + split; [count_all_done | by apply (flat_only_same w)].
    + rewrite run_installed_flat by done.
      destruct (runSingle_balance
                  (w |> hook beforeStart (EvBeforeStart (tasks w))
                     |> set_isProcessing true |> set_isPaused false
                     |> fill_threads |> hook afterStart EvAfterStart)) as [-> ?];
        [by apply (flat_only_same w)|].
      split; [count_all_done | done].
  - split; [count_all_done | by apply (flat_only_same w)].
  - unfold stopTask, kill_child. case_match.
    all: split; [count_all_done | by apply (flat_only_same w)].
  - split; [count_all_done | by apply (flat_only_same w)].
  - unfold continue. destruct (isPaused w), (isProcessing w); simpl;
      try (split; [lia | done]).
    destruct (runSingle_balance (set_isProcessing true (set_isPaused false w))) as [-> ?];
      [by apply (flat_only_same w)|].
    split; [count_all_done | done].
  - unfold cancelTask. case_match; [split; [lia | done]|].
    split; [count_all_done | by apply (flat_only_same w)].
  - split; [count_all_done | by apply (flat_only_same w)].
  - unfold on_wake. destruct (loops w) as [|k] eqn:Hl; [split; [lia | done]|].
    destruct (runSingle_iter_balance w Hh) as [-> _]; [lia|].
    split; [lia | by apply runSingle_iter_flat_only].
  - unfold on_retry_timer. destruct (retryTimers w) as [|k] eqn:Hr; simpl;
      [split; [lia | done]|].
    destruct (isProcessing w); simpl.
    + destruct (runSingle_balance (set_retryTimers k w)) as [-> ?];
        [by apply (flat_only_same w)|].
      split; [count_all_done | done].
    + split; [count_all_done | by apply (flat_only_same w)].
  - unfold on_deadline, kill_overdue. repeat case_match; try (split; [lia | done]).
    all: split; [count_all_done | by apply (flat_only_same w)].
  - unfold on_stdout. case_match; [|split; [lia | done]].
    split; [count_all_done|]. split_and!; try done.
    by apply (update_proc_all_flat q (add_stdout data) w).
  - unfold on_stderr. case_match; [|split; [lia | done]].
    split; [count_all_done|]. split_and!; try done.
    by apply (update_proc_all_flat q (add_stderr data) w).
  - assert (all_flat (on_close q code sig w)) as Hf' by (by apply on_close_all_flat).
    unfold on_close in *. destruct (find_proc q (procs w)) as [p|] eqn:Hq;
      [|split; [lia | done]].
    destruct (find_proc_Some _ _ _ Hq) as [Hin _]. destruct (Hf p Hin) as [t Ht].
    rewrite Ht in *.
    destruct (close_flat_balance p t code sig (upd_procs (remove_proc q) w)) as (Hb & Hg' & Hc').
    split; [rewrite Hb; count_all_done|]. unfold flat_only. by rewrite Hg', Hc'.
Qed.

Lemma run_balance (ops : list Op) (w : World) :
  Forall (λ o, ∀ groups, o ≠ CallSetGroupedTasks groups) ops → flat_only w →
  loop_balance (run w ops) = loop_balance w + loop_starts w ops.
Proof.
  intros Hops. revert w. induction Hops as [|o ops Ho _ IH]; intros w H; simpl; [lia|].
  destruct (apply_balance w o Ho H) as [Hb Hf]. rewrite IH by done. lia.
Qed.

(** X17: in flat mode the all-done hook is called once for every
    [runSingle] loop that ends, and by nothing else: along any run of a
    manager that was never given groups, the number of calls of the hook
    plus the number of loops still polling equals the number of loops
    started, where a loop is started by [start], by [continue] after a halt,
    and by every retry timer that fires while the manager is processing. *)
Theorem all_done_once_per_loop (c : Config) (ops : list Op) :
  onAllTasksDone (hooks c) = true →
  Forall (λ o, ∀ groups, o ≠ CallSetGroupedTasks groups) ops →
  let w := run (new_manager c) ops in
  all_done_calls w + loops w = loop_starts (new_manager c) ops.
Proof.
  intros Hh Hops. cbv zeta.
  pose proof (run_balance ops (new_manager c) Hops) as Hb.
  unfold loop_balance in Hb at 1. rewrite Hb; [done|].
  split_and!; try done. by intros p ?%elem_of_nil.
Qed.

(** One task that fails once and then succeeds: two loops, two calls. *)
Definition one_retry : list Op :=
  [CallSetTasks [task_of "a"]; CallStart; ChildCloses 0 (Some 1%Z) None;
   RetryTimerFires; ChildCloses 1 (Some 0%Z) None; LoopWakes; LoopWakes].

Lemma all_done_once_per_loop_witness :
  all_done_calls (run (new_manager two_slots) one_retry) = 2.
Proof.
  assert (Forall (λ o, ∀ groups, o ≠ CallSetGroupedTasks groups) one_retry) as Hops
    by (repeat constructor; discriminate).
  pose proof (all_done_once_per_loop two_slots one_retry eq_refl Hops) as Hb.
  assert (loops (run (new_manager two_slots) one_retry) = 0) as Hl by (vm_compute; reflexivity).
  assert (loop_starts (new_manager two_slots) one_retry = 2) as Hs by (vm_compute; reflexivity).
  cbv zeta in Hb. rewrite Hl, Hs in Hb. by rewrite Nat.add_0_r in Hb.
Defined.

(** * Logging *)

(** A log message below the configured level, or any log message when no
    log hook is installed. *)
Definition unwanted (c : Config) (e : Event) : bool :=
  match e with
  | EvLog level _ => negb (onLog (hooks c)) || (levels level <? levels (logLevel c))
  | _ => false
  end.

Local Arguments levels : simpl never.

Definition log_clean (w : World) : Prop := List.filter (unwanted (cfg w)) (trace w) = [].

Lemma filter_log (c : Config) (level : Level) (msg : LogMsg) :
  List.filter (unwanted c)
    (if onLog (hooks c) && (levels (logLevel c) <=? levels level)
     then [EvLog level msg] else []) = [].
Proof.
  destruct (onLog (hooks c)) eqn:Hl; [|done].
  destruct (levels (logLevel c) <=? levels level) eqn:Hle; [|done].
  simpl. rewrite Hl. simpl.
  apply Nat.leb_le in Hle. by rewrite (proj2 (Nat.ltb_ge _ _) Hle).
Qed.

Ltac count_logs :=
  unfold log_clean; cbn;
  rewrite ?List.filter_app, ?filter_log, ?(filter_opt (unwanted _)),
    ?(filter_kill_events (unwanted _)) by reflexivity;
  cbn; rewrite ?app_nil_r; try done.

Lemma log_clean_same (w w' : World) :
  cfg w' = cfg w → List.filter (unwanted (cfg w)) (trace w') = [] → log_clean w'.
Proof. intros Hc Ht. unfold log_clean. by rewrite Hc. Qed.

Lemma dispatch_log_clean (t : nat) (w : World) : log_clean w → log_clean (dispatch t w).
Proof.
  intros H. unfold dispatch. repeat case_match; try done.
  apply (log_clean_same w); [done|]. unfold assign. unfold log_clean in H. count_logs.
Qed.

Lemma runSingle_iter_log_clean (w : World) : log_clean w → log_clean (runSingle_iter w).
Proof.
  intros H. unfold runSingle_iter, dispatch_all. repeat case_match; try done.
  - apply foldl_invariant; [intros; by apply dispatch_log_clean|].
    apply (log_clean_same w); [done|]. unfold log_clean in H. count_logs.
  - apply (log_clean_same w); [done|]. unfold log_clean in H. count_logs.
Qed.

Lemma lane_resume_log_clean (l : Lane) (w : World) : log_clean w → log_clean (lane_resume l w).
Proof.
  intros H. unfold lane_resume, runSingleTask. unfold log_clean in H.
  repeat case_match; apply (log_clean_same w); try done; count_logs.
Qed.

Lemma groups_settle_log_clean (run : nat) (w : World) :
  log_clean w → log_clean (groups_settle run w).
Proof.
  intros H. unfold groups_settle. repeat case_match; try done. unfold log_clean in H.
  apply (log_clean_same w); try done; count_logs.
Qed.

Lemma close_flat_log_clean (p : Proc) (t : nat) code signal (w : World) :
  log_clean w → log_clean (close_flat p t code signal w).
Proof.
  intros H. unfold close_flat, retry_policy, release. unfold log_clean in H.
  repeat case_match; apply (log_clean_same w); try done; count_logs.
Qed.

Lemma apply_log_clean (w : World) (o : Op) : log_clean w → log_clean (apply w o).
Proof.
  intros H. pose proof H as H'. unfold log_clean in H'.
  destruct o as [ts|groups| |sg|index sg| | |index|sg| | |timer|q data|q data|q code sig];
    simpl.
  - apply (log_clean_same w); try done; count_logs.
  - apply (log_clean_same w); try done; count_logs.
  - unfold start, run_installed. repeat case_match; simpl.
    + apply (log_clean_same w); try done; count_logs.
    + unfold runGroups. apply groups_settle_log_clean.
      apply start_lanes_invariant; [intros; by apply lane_resume_log_clean|].
      apply (log_clean_same w); try done; count_logs.
    + apply runSingle_iter_log_clean.
      apply (log_clean_same w); try done; count_logs.
  - apply (log_clean_same w); try done; count_logs.
  - unfold stopTask, kill_child.
    case_match; apply (log_clean_same w); try done; count_logs.
  - apply (log_clean_same w); try done; count_logs.
  - unfold continue. case_match; [done|].
    apply runSingle_iter_log_clean. by apply (log_clean_same w).
  - unfold cancelTask. case_match; [done|].
    apply (log_clean_same w); try done; count_logs.
  - apply (log_clean_same w); try done; count_logs.
  - unfold on_wake. case_match; [done | by apply runSingle_iter_log_clean].
  - unfold on_retry_timer. repeat case_match; try done.
    all: try apply runSingle_iter_log_clean; by apply (log_clean_same w).
  - unfold on_deadline, kill_overdue.
    repeat case_match; try done; apply (log_clean_same w); try done; count_logs.
  - unfold on_stdout. case_match; [|done].
    apply (log_clean_same w); try done; count_logs.
  - unfold on_stderr. case_match; [|done].
    apply (log_clean_same w); try done; count_logs.
  - unfold on_close. repeat case_match; try done.
    + apply close_flat_log_clean. by apply (log_clean_same w).
    + unfold close_group, resolve_lane.
      repeat case_match; try apply groups_settle_log_clean;
        try apply lane_resume_log_clean;
        apply (log_clean_same w); try done; count_logs.
Qed.

(** X21: the log hook only ever receives messages at or above the
    configured level: whatever is called and whatever the children do, every
    log message that is delivered has a level of at least [logLevel], and
    none is delivered when no log hook is installed. *)
Theorem log_respects_level (c : Config) (ops : list Op) (level : Level) (msg : LogMsg) :
  EvLog level msg ∈ trace (run (new_manager c) ops) →
  onLog (hooks c) = true ∧ levels (logLevel c) ≤ levels level.
Proof.
  assert (log_clean (run (new_manager c) ops)) as H.
  { apply (run_invariant log_clean (λ _, True)).
    - intros. by apply apply_log_clean.
    - by apply Forall_forall.
    - done. }
  unfold log_clean in H. rewrite run_cfg in H. change (cfg (new_manager c)) with c in H.
  generalize dependent (run (new_manager c) ops). intros w H Hin.
  assert (unwanted c (EvLog level msg) = false) as Hu.
  { destruct (unwanted c (EvLog level msg)) eqn:E; [|done].
    assert (EvLog level msg ∈ List.filter (unwanted c) (trace w)) as Hf.
    { apply list_elem_of_In, List.filter_In. split; [by apply list_elem_of_In | done]. }
    rewrite H in Hf. by apply elem_of_nil in Hf. }
  simpl in Hu. apply orb_false_iff in Hu as [Hl Hlt].
  split; [by apply negb_false_iff | by apply Nat.ltb_ge].
Qed.

(** Only errors are logged. *)
Definition errors_only : Config :=
  {| totalThreads := 1; sleep := 100%N; maxRetry := 0; defaultTimeout := 600000%N;
     retryDelay := 1000%N; globalRetryLimit := 100; logLevel := LError;
     killSignal := SIGTERM; hooks := all_hooks |}.

Lemma log_respects_level_witness :
  levels (logLevel errors_only) ≤ levels LError.
Proof.
  refine (proj2 (log_respects_level errors_only
                   [CallSetTasks [task_of "a"]; CallStart; ChildCloses 0 (Some 1%Z) None]
                   LError (MsgTaskFailed 0) _)).
  vm_compute. repeat constructor.
Defined.

(** * The retry delay *)












(** * Request helpers ([request.ts])

    A JavaScript string is a Rocq [string]; a value of type
    [string | null | undefined] is an [option string], and it is truthy when
    it is a non-empty string. *)

Definition truthy (v : option string) : bool :=
  match v with
  | Some s => negb (bool_decide (s = ""%string))
  | None => false
  end.

(** [a || b] on such values. *)
Definition js_or (a b : option string) : option string := if truthy a then a else b.

Fixpoint drop_chars (n : nat) (s : string) : string :=
  match n, s with
  | 0, _ => s
  | S n', String _ s' => drop_chars n' s'
  | S _, EmptyString => EmptyString
  end.

(** [s.replace(pat, rep)] for a string pattern and a replacement without
    [$]: the first occurrence of [pat], if any, is replaced. *)
Fixpoint replace (pat rep s : string) : string :=
  if String.prefix pat s then String.append rep (drop_chars (String.length pat) s)
  else match s with
       | EmptyString => EmptyString
       | String ch s' => String ch (replace pat rep s')
       end.

Definition normalizeIP (ip : option string) : option string :=
  match ip with
  | Some s =>
    if negb (truthy ip) then None
    else if String.prefix "::ffff:" s then Some (replace "::ffff:" "" s)
    else if bool_decide (s = "::1"%string) then Some "127.0.0.1"%string
    else Some s
  | None => None
  end.

(** The fields of [IncomingRequest] that the helpers read; [connection] is
    optional and so is its [remoteAddress]. *)
Record IncomingRequest := {
  req_ip : option string;
  protocol : string;
  originalUrl : string;
  get : string → option string;
  connection : option (option string);
  clientIP : option string
}.

Definition getClientIpFromRequest (request : IncomingRequest) : string :=
  if truthy (clientIP request) then default ""%string (clientIP request)
  else
    let rawIP := js_or (req_ip request) (mjoin (connection request)) in
    let normalizedIp := normalizeIP rawIP in
    default ""%string (js_or normalizedIp (Some "127.0.0.1"%string)).

Definition getHost (request : IncomingRequest) : string :=
  let host := get request "host" in
  match host with
  | Some h =>
    if truthy host then
      let proto :=
        if bool_decide (protocol request = ""%string)
        then (if String.prefix "localhost" h then "http" else "https")%string
        else protocol request in
      String.append proto (String.append "://" h)
    else "http://127.0.0.1"%string
  | None => "http://127.0.0.1"%string
  end.

Definition getUserAgent (request : IncomingRequest) : string :=
  default ""%string (js_or (get request "user-agent") (Some "undefined"%string)).

Record RequestInfo := {
  info_ip : string;
  info_host : string;
  info_fullUrl : string;
  info_userAgent : string
}.

Definition getRequestInfo (request : IncomingRequest) : RequestInfo :=
  let ip := getClientIpFromRequest request in
  let host := getHost request in
  let userAgent := getUserAgent request in
  let fullUrl := String.append host (originalUrl request) in
  {| info_ip := ip; info_host := host; info_fullUrl := fullUrl; info_userAgent := userAgent |}.

Definition getHostUrl (request : IncomingRequest) : string :=
  let hostBase := getHost request in
  String.append hostBase (originalUrl request).

Lemma replace_prefix (pat s : string) :
  String.prefix pat s = true → replace pat "" s = drop_chars (String.length pat) s.
Proof. intros H. destruct s; cbn [replace]; rewrite H; reflexivity. Qed.

Lemma drop_chars_append (p s : string) : drop_chars (String.length p) (String.append p s) = s.
Proof. induction p as [|ch p IH]; [done|]. simpl. apply IH. Qed.

Lemma prefix_append (p s : string) : String.prefix p (String.append p s) = true.
Proof.
  induction p as [|ch p IH]; simpl; [by destruct s|].
  destruct (Ascii.ascii_dec ch ch); [apply IH | done].
Qed.

Lemma truthy_Some (v : option string) :
  truthy v = true ↔ ∃ s, v = Some s ∧ s ≠ ""%string.
Proof.
  destruct v as [s|]; simpl; [|split; [done | by intros (? & ? & _)]].
  rewrite negb_true_iff, bool_decide_eq_false. split; [by exists s|]. by intros (? & [= <-] & ?).
Qed.

Lemma normalizeIP_None (ip : option string) : normalizeIP ip = None ↔ truthy ip = false.
Proof.
  destruct ip as [x|]; [|done]. unfold normalizeIP.
  destruct (truthy (Some x)); simpl; [|done]. by repeat case_match.
Qed.

(** X18: [normalizeIP] returns [null] for [null], [undefined] and the empty
    string; it removes the prefix [::ffff:] of an IPv6-mapped address, and
    only there (whatever follows the prefix is returned unchanged); it maps
    [::1] to [127.0.0.1]; and it returns every other address as it is. *)
Theorem normalizeIP_cases (ip : option string) (rest s : string) :
  normalizeIP None = None ∧ normalizeIP (Some ""%string) = None ∧
  normalizeIP (Some (String.append "::ffff:" rest)) = Some rest ∧
  normalizeIP (Some "::1"%string) = Some "127.0.0.1"%string ∧
  (s ≠ ""%string → String.prefix "::ffff:" s = false → s ≠ "::1"%string →
   normalizeIP (Some s) = Some s) ∧
  (normalizeIP ip = None ↔ truthy ip = false).
Proof.
  split_and!; try done.
  - unfold normalizeIP.
    change (truthy (Some (String.append "::ffff:" rest))) with true. cbn [negb].
    rewrite prefix_append, replace_prefix by apply prefix_append.
    by rewrite drop_chars_append.
  - intros Hne Hp H1. unfold normalizeIP. simpl.
    rewrite bool_decide_eq_false_2 by done. simpl. rewrite Hp.
    by rewrite bool_decide_eq_false_2.
  - apply normalizeIP_None.
Qed.

Lemma normalizeIP_cases_witness :
  normalizeIP (Some "10.0.0.7"%string) = Some "10.0.0.7"%string.
Proof.
  refine (proj1 (proj2 (proj2 (proj2 (proj2
            (normalizeIP_cases None "" "10.0.0.7"))))) _ _ _); done.
Defined.

(** X19: [getClientIpFromRequest] never returns the empty string.  A truthy
    [clientIP] is returned as it is, without normalization; otherwise the
    result is the normalized [ip], or else the normalized remote address of
    the connection, and [127.0.0.1] when none of them gives an address. *)
Theorem client_ip_never_empty (request : IncomingRequest) :
  getClientIpFromRequest request ≠ ""%string ∧
  (truthy (clientIP request) = true →
   clientIP request = Some (getClientIpFromRequest request)) ∧
  (truthy (clientIP request) = false →
   getClientIpFromRequest request =
     match normalizeIP (if truthy (req_ip request) then req_ip request
                        else mjoin (connection request)) with
     | Some s => if bool_decide (s = ""%string) then "127.0.0.1"%string else s
     | None => "127.0.0.1"%string
     end) ∧
  (truthy (clientIP request) = false → truthy (req_ip request) = false →
   truthy (mjoin (connection request)) = false →
   getClientIpFromRequest request = "127.0.0.1"%string).
Proof.
  unfold getClientIpFromRequest, js_or.
  destruct (truthy (clientIP request)) eqn:Hc.
  - apply truthy_Some in Hc as (s & Hs & Hne). rewrite Hs. simpl. by split_and!.
  - cbv zeta. split_and!; try done.
    + destruct (normalizeIP _) as [s|] eqn:E; simpl; [|done].
      destruct (bool_decide (s = ""%string)) eqn:Hs; simpl; [done|].
      by apply bool_decide_eq_false in Hs.
    + intros _. destruct (normalizeIP _) as [s|]; simpl; [|done].
      by destruct (bool_decide (s = ""%string)).
    + intros _ Hi Hr. rewrite Hi.
      assert (normalizeIP (mjoin (connection request)) = None) as ->; [|done].
      by apply normalizeIP_None.
Qed.

Lemma client_ip_never_empty_witness :
  let request := {| req_ip := Some "::ffff:"%string; protocol := "http"; originalUrl := "/";
                    get := λ _, None; connection := None; clientIP := None |} in
  getClientIpFromRequest request =
    match normalizeIP (if truthy (req_ip request) then req_ip request
                       else mjoin (connection request)) with
    | Some s => if bool_decide (s = ""%string) then "127.0.0.1"%string else s
    | None => "127.0.0.1"%string
    end.
Proof.
  intros request. refine (proj1 (proj2 (proj2 (client_ip_never_empty request))) _).
  reflexivity.
Defined.

(** X20: without a (non-empty) [Host] header [getHost] returns
    [http://127.0.0.1] whatever the protocol of the request; with one it
    returns [protocol://host], where an empty protocol defaults to [http]
    for a host that starts with [localhost] and to [https] otherwise, so the
    scheme is never empty.  [getHostUrl] and the [fullUrl] of
    [getRequestInfo] are both this base followed by the original URL. *)
Theorem host_url_shape (request : IncomingRequest) :
  (truthy (get request "host") = false → getHost request = "http://127.0.0.1"%string) ∧
  (∀ h, get request "host" = Some h → h ≠ ""%string →
     ∃ proto, proto ≠ ""%string ∧
       getHost request = String.append proto (String.append "://" h) ∧
       proto = if bool_decide (protocol request = ""%string)
               then (if String.prefix "localhost" h then "http" else "https")%string
               else protocol request) ∧
  info_fullUrl (getRequestInfo request) = getHostUrl request ∧
  getHostUrl request = String.append (getHost request) (originalUrl request) ∧
  info_ip (getRequestInfo request) = getClientIpFromRequest request.
Proof.
  split_and!; try done.
  - unfold getHost. destruct (get request "host") as [h|]; [|done]. by intros ->.
  - intros h Hh Hne. unfold getHost. rewrite Hh. simpl.
    rewrite bool_decide_eq_false_2 by done. simpl.
    eexists. split; [|split; reflexivity].
    case_bool_decide as Hp; [by destruct (String.prefix "localhost" h) | done].
Qed.
